(** * cgol: the grid engine, the turn history and the image ingestion of
    [cgol.c], embedded as Rocq functions.

    Conventions of the embedding.
    - [int] and [unsigned int] values are integers of [Z]; an operation on an
      [unsigned int] that can leave the 32-bit range is followed by [u32], its
      reduction modulo [2^32].
    - The cell array [gameBoard->cells] is a [list cell]; a read or a write
      outside the array, which C leaves undefined, makes the embedded function
      return [None].
    - Loops over [i < gameBoard->cellCount] walk the cell list: the array is
      allocated with [cellCount] cells ([wf_board] records it).
    - The drawing fields of a cell ([x], [y] and the animation [size]) and the
      window fields of the board belong to the presentation layer and are left
      out. *)

From Stdlib Require Import ZArith Lia Ascii String.
From Stdlib Require PrimFloat SpecFloat FloatOps Uint63.
From stdpp Require Import base option list.

Local Open Scope Z_scope.

(** ** Constants and enumerations *)

Definition UINT_MAX : Z := 4294967295.
Definition INT_MAX : Z := 2147483647.

(** [#define TURN_LIMIT UINT_MAX] *)
Definition TURN_LIMIT : Z := UINT_MAX.

(** Reduction of a value to [unsigned int]. *)
Definition u32 (z : Z) : Z := z mod 4294967296.

(** [enum DIRECTIONS], clockwise from [TOP]. *)
Definition TOP : Z := 0.
Definition TOP_RIGHT : Z := 1.
Definition RIGHT : Z := 2.
Definition BOTTOM_RIGHT : Z := 3.
Definition BOTTOM : Z := 4.
Definition BOTTOM_LEFT : Z := 5.
Definition LEFT : Z := 6.
Definition TOP_LEFT : Z := 7.

(** [enum INFOPANELSTATES], the states stored in the history. *)
Definition DISABLED : Z := -2.
Definition STABLE : Z := -1.
Definition DEAD : Z := 0.
Definition BORN : Z := 1.

(** ** Data model *)

(** [struct cell]. *)
Record cell : Type := mkCell {
  isLiving : bool;
  cellChanged : bool;
  cellX : Z;
  cellY : Z
}.

(** [struct playBoard]. *)
Record playBoard : Type := mkBoard {
  isDirty : bool;
  cellsX : Z;
  cellsY : Z;
  cellCount : Z;
  livingCells : Z;
  turns : Z;
  cells : list cell
}.

Definition set_cells (b : playBoard) (cs : list cell) : playBoard :=
  mkBoard (isDirty b) (cellsX b) (cellsY b) (cellCount b) (livingCells b)
          (turns b) cs.

Definition set_livingCells (b : playBoard) (n : Z) : playBoard :=
  mkBoard (isDirty b) (cellsX b) (cellsY b) (cellCount b) n (turns b)
          (cells b).

(** [cells[i]] as a read: [None] outside the array. *)
Definition cell_at (cs : list cell) (i : Z) : option cell :=
  if 0 <=? i then cs !! Z.to_nat i else None.

(** [cells[i].isLiving = l; cells[i].cellChanged = ch] as a write: [None]
    outside the array. *)
Definition cell_write (cs : list cell) (i : Z) (l ch : bool) : option (list cell) :=
  c ← cell_at cs i;
  Some (<[Z.to_nat i := mkCell l ch (cellX c) (cellY c)]> cs).

(** The number of cells of the array whose [isLiving] is set. *)
Fixpoint count_alive (cs : list cell) : Z :=
  match cs with
  | [] => 0
  | c :: cs' => (if isLiving c then 1 else 0) + count_alive cs'
  end.

(** The [isLiving] flags of the board, cell for cell. *)
Definition alive_map (b : playBoard) : list bool := isLiving <$> cells b.

(** ** Neighbour lookup: [get_neighbour_living] *)

(** The [switch] on the direction: the shifts [(calcX, calcY)], or [None] in
    the [default] branch, where the function returns [false]. *)
Definition direction_shift (direction : Z) : option (Z * Z) :=
  if direction =? TOP then Some (0, -1)
  else if direction =? TOP_RIGHT then Some (1, -1)
  else if direction =? RIGHT then Some (1, 0)
  else if direction =? BOTTOM_RIGHT then Some (1, 1)
  else if direction =? BOTTOM then Some (0, 1)
  else if direction =? BOTTOM_LEFT then Some (-1, 1)
  else if direction =? LEFT then Some (-1, 0)
  else if direction =? TOP_LEFT then Some (-1, -1)
  else None.

(** The offset calculation of one axis: [pos] is the cell's coordinate, [dim]
    the board's dimension on that axis and [calc] the shift. *)
Definition limit_of (pos dim calc : Z) : Z :=
  if calc =? -1 then (if pos =? 0 then dim - 1 else pos - 1)
  else if calc =? 1 then (if pos =? dim - 1 then 0 else pos + 1)
  else pos.

(** The coordinates [(limitX, limitY)] the function reads for a direction. *)
Definition neighbour_limits (gameCell : cell) (gameBoard : playBoard)
    (direction : Z) : option (Z * Z) :=
  match direction_shift direction with
  | Some (calcX, calcY) =>
      Some (limit_of (cellX gameCell) (cellsX gameBoard) calcX,
            limit_of (cellY gameCell) (cellsY gameBoard) calcY)
  | None => None
  end.

Definition get_neighbour_living (gameCell : cell) (gameBoard : playBoard)
    (direction : Z) : option bool :=
  match neighbour_limits gameCell gameBoard direction with
  | None => Some false
  | Some (limitX, limitY) =>
      isLiving <$> cell_at (cells gameBoard) (limitX + limitY * cellsY gameBoard)
  end.

(** ** One turn: [applyTurn] *)

(** The inner loop [for (j = 0; j < 8; ++j)] of the first pass, over the
    directions [dirs]: the number of living neighbours. *)
Fixpoint count_neighbours (gameBoard : playBoard) (gameCell : cell)
    (dirs : list Z) : option Z :=
  match dirs with
  | [] => Some 0
  | j :: dirs' =>
      l ← get_neighbour_living gameCell gameBoard j;
      n ← count_neighbours gameBoard gameCell dirs';
      Some ((if l : bool then 1 else 0) + n)
  end.

(** The first pass at one cell: the pair
    [(deathInRound[i], bornInRound[i])]. *)
Definition tag_of (living : bool) (livingNeighbours : Z) : bool * bool :=
  if living
  then ((livingNeighbours <? 2) || (3 <? livingNeighbours), false)
  else (false, livingNeighbours =? 3).

Definition turn_tags (gameBoard : playBoard) (gameCell : cell) : option (bool * bool) :=
  livingNeighbours ← count_neighbours gameBoard gameCell (seqZ 0 8);
  Some (tag_of (isLiving gameCell) livingNeighbours).

Definition applyTurn_pass1 (gameBoard : playBoard) : option (list (bool * bool)) :=
  mapM (turn_tags gameBoard) (cells gameBoard).

(** The second pass: the commit loop, threading [livingCells] and
    [isDirty]. *)
Fixpoint applyTurn_pass2 (cs : list cell) (tags : list (bool * bool))
    (living : Z) (dirty : bool) : list cell * Z * bool :=
  match cs, tags with
  | c :: cs', (deathInRound, bornInRound) :: tags' =>
      if deathInRound then
        let '(r, l, d) := applyTurn_pass2 cs' tags' (u32 (living - 1)) true in
        (mkCell false true (cellX c) (cellY c) :: r, l, d)
      else if bornInRound then
        let '(r, l, d) := applyTurn_pass2 cs' tags' (u32 (living + 1)) true in
        (mkCell true true (cellX c) (cellY c) :: r, l, d)
      else
        let '(r, l, d) := applyTurn_pass2 cs' tags' living dirty in
        (mkCell (isLiving c) false (cellX c) (cellY c) :: r, l, d)
  | _, _ => ([], living, dirty)
  end.

Definition next_turns (t : Z) (isInHistory : bool) : Z :=
  if isInHistory then t
  else let t1 := u32 (t + 1) in if TURN_LIMIT <? t1 then 0 else t1.

Definition applyTurn (gameBoard : playBoard) (isInHistory : bool) : option playBoard :=
  tags ← applyTurn_pass1 gameBoard;
  let '(cs, living, dirty) :=
    applyTurn_pass2 (cells gameBoard) tags (livingCells gameBoard) false in
  Some (mkBoard dirty (cellsX gameBoard) (cellsY gameBoard)
                (cellCount gameBoard) living
                (next_turns (turns gameBoard) isInHistory) cs).

(** ** [resetPlayboard] *)

Definition clear_cell (c : cell) : cell := mkCell false false (cellX c) (cellY c).

Definition resetPlayboard (gameBoard : playBoard) : playBoard :=
  mkBoard (isDirty gameBoard) (cellsX gameBoard) (cellsY gameBoard)
          (cellCount gameBoard) 0 0 (clear_cell <$> cells gameBoard).

(** ** Results of loops that need not end *)

(** [Returned a]: the call returned with [a]. [Running]: the supply of
    steps (random draws, fuel) ended with the loop still running.
    [Undefined]: the call made an access C leaves undefined. *)
Inductive outcome (A : Type) : Type :=
  | Returned (a : A)
  | Running
  | Undefined.
Arguments Returned {A} a.
Arguments Running {A}.
Arguments Undefined {A}.

(** ** Random seeding: [initRandomBoard] *)

(** The [while (maximumFitCellsForRandom > 0)] loop. [draws] are the values
    the successive calls of [rand()] return. [rand() % (cellCount - 1)] is
    undefined when [cellCount - 1] is zero. *)
Fixpoint seed_loop (draws : list Z) (gameBoard : playBoard)
    (maximumFitCellsForRandom : Z) : outcome playBoard :=
  if 0 <? maximumFitCellsForRandom then
    match draws with
    | [] => Running
    | r :: draws' =>
        if u32 (cellCount gameBoard - 1) =? 0 then Undefined
        else
          let i := r mod u32 (cellCount gameBoard - 1) in
          match cell_at (cells gameBoard) i with
          | None => Undefined
          | Some c =>
              if isLiving c then seed_loop draws' gameBoard maximumFitCellsForRandom
              else
                match cell_write (cells gameBoard) i true true with
                | None => Undefined
                | Some cs =>
                    seed_loop draws'
                      (set_livingCells (set_cells gameBoard cs)
                         (u32 (livingCells gameBoard + 1)))
                      (u32 (maximumFitCellsForRandom - 1))
                end
          end
    end
  else Returned gameBoard.

(** [initRandomBoard] from the declaration of its local
    [maximumFitCellsForRandom] on: [target] is the value of that local, the
    number of cells the loop is to bring alive, and not the value of the
    option. The whole call, with the scaling of the option that gives the
    local its value, is [initRandomBoard_call]. *)
Definition initRandomBoard (gameBoard : playBoard) (target : Z)
    (draws : list Z) : outcome playBoard :=
  seed_loop draws (resetPlayboard gameBoard) target.

(** ** The turn history *)

(** [struct gameHistoryTurn]. The arrays [state] and [index] are lists; the
    field [turn], which no function writes or reads, is left out. *)
Record gameHistoryTurn : Type := mkTurn {
  records : Z;
  countBorn : Z;
  countDeath : Z;
  countStable : Z;
  state : list Z;
  index : list Z
}.

(** [struct gameHistoryGame]; its field [turns] is [H.turns], the board's is
    [turns]. A [NULL] [turnData] is the empty list. *)
Module H.

Record gameHistoryGame : Type := mkGame {
  turns : Z;
  currentTurn : Z;
  turnData : list gameHistoryTurn
}.

End H.

(** [clearHistory]. The loop that frees [turnData[i].state] and
    [turnData[i].index] for [i < turns] reads inside the array when the
    count [turns] is the number of stored turns, as in every history the
    functions build from [{0, 0, NULL}]; the model is the function on these
    histories. For a count above the stored turns the loop reads outside the
    array, which the model does not show. *)
Definition clearHistory (gameHistory : H.gameHistoryGame) : bool * H.gameHistoryGame :=
  match H.turnData gameHistory with
  | [] => (false, gameHistory)
  | _ :: _ => (true, H.mkGame 0 0 [])
  end.

(** The scan loop of [addHistory] over the cells: every [realloc] and store
    at position [records] appends one element to [state] and to [index]. *)
Fixpoint scan_cells (gameBoard : playBoard) (cs : list cell)
    (currentTurn : gameHistoryTurn) : gameHistoryTurn :=
  match cs with
  | [] => currentTurn
  | c :: cs' =>
      let idx := u32 (cellX c + cellY c * cellsX gameBoard) in
      let t := currentTurn in
      if cellChanged c then
        if isLiving c then
          scan_cells gameBoard cs'
            (mkTurn (u32 (records t + 1)) (u32 (countBorn t + 1)) (countDeath t)
                    (countStable t) (state t ++ [BORN]) (index t ++ [idx]))
        else
          scan_cells gameBoard cs'
            (mkTurn (u32 (records t + 1)) (countBorn t) (u32 (countDeath t + 1))
                    (countStable t) (state t ++ [DEAD]) (index t ++ [idx]))
      else if isLiving c then
        scan_cells gameBoard cs'
          (mkTurn (u32 (records t + 1)) (countBorn t) (countDeath t)
                  (u32 (countStable t + 1)) (state t ++ [STABLE]) (index t ++ [idx]))
      else scan_cells gameBoard cs' t
  end.

(** [addHistory]: the result and the history after the call; the board is
    only read. [realloc] is taken to succeed; it keeps the first
    [gameHistory->turns] turns and the new turn is stored behind them. *)
Definition addHistory (gameHistory : H.gameHistoryGame) (gameBoard : playBoard)
    : bool * H.gameHistoryGame :=
  if turns gameBoard <? H.turns gameHistory then (false, gameHistory)
  else
    let h := if H.turns gameHistory =? TURN_LIMIT
             then (clearHistory gameHistory).2 else gameHistory in
    let currentTurn := scan_cells gameBoard (cells gameBoard) (mkTurn 0 0 0 0 [] []) in
    (true, H.mkGame (u32 (H.turns h + 1)) (H.turns h)
                    (take (Z.to_nat (H.turns h)) (H.turnData h) ++ [currentTurn])).

(** One round of the replay loop of [historyDisplayTurn]: the [switch] on
    [state[i]] writing the cell at [index[i]]. *)
Definition replay_entry (st idx : Z) (cs : list cell) : option (list cell) :=
  if st =? STABLE then cell_write cs idx true false
  else if st =? DEAD then cell_write cs idx false true
  else if st =? BORN then cell_write cs idx true true
  else Some cs.

(** The loop [for (i = 0; i < currentTurn->records; ++i)]: [n] rounds left,
    [sts] and [idxs] the arrays from position [i] on. *)
Fixpoint replay_entries (n : nat) (sts idxs : list Z) (cs : list cell)
    : option (list cell) :=
  match n with
  | O => Some cs
  | S n' =>
      match sts, idxs with
      | st :: sts', idx :: idxs' =>
          cs' ← replay_entry st idx cs;
          replay_entries n' sts' idxs' cs'
      | _, _ => None
      end
  end.

(** [turnData[i]] as a read. *)
Definition turn_at (ts : list gameHistoryTurn) (i : Z) : option gameHistoryTurn :=
  if 0 <=? i then ts !! Z.to_nat i else None.

Definition historyDisplayTurn (gameHistory : H.gameHistoryGame)
    (gameBoard : playBoard) : option (bool * playBoard) :=
  let cleared := clear_cell <$> cells gameBoard in
  currentTurn ← turn_at (H.turnData gameHistory) (H.currentTurn gameHistory);
  cs ← replay_entries (Z.to_nat (records currentTurn)) (state currentTurn)
                      (index currentTurn) cleared;
  Some (true, set_cells gameBoard cs).

Definition set_currentTurn (h : H.gameHistoryGame) (c : Z) : H.gameHistoryGame :=
  H.mkGame (H.turns h) c (H.turnData h).

Definition historyBackwards (gameHistory : H.gameHistoryGame) (gameBoard : playBoard)
    : option (bool * H.gameHistoryGame * playBoard) :=
  if (H.currentTurn gameHistory =? 0) || (H.turns gameHistory =? 0)
  then Some (false, gameHistory, gameBoard)
  else
    let h := set_currentTurn gameHistory (u32 (H.currentTurn gameHistory - 1)) in
    '(shown, b) ← historyDisplayTurn h gameBoard;
    Some (shown, h, b).

Definition historyForwards (gameHistory : H.gameHistoryGame) (gameBoard : playBoard)
    : option (bool * H.gameHistoryGame * playBoard) :=
  if (H.currentTurn gameHistory =? turns gameBoard)
     || (H.turns gameHistory =? 0)
     || (H.currentTurn gameHistory =? u32 (H.turns gameHistory - 1))
  then Some (false, gameHistory, gameBoard)
  else
    let h := set_currentTurn gameHistory (u32 (H.currentTurn gameHistory + 1)) in
    '(shown, b) ← historyDisplayTurn h gameBoard;
    Some (shown, h, b).

(** ** Image ingestion: [generateCellMapFromImage] *)

(** The fields of [struct options] the core functions use, in the order of
    the declaration: behind [char message[64]] come
    [int maximumFitCellsForRandom], [unsigned int colorThreshold] and
    [short activePanelItem], which is left out. [message] is the text read
    from the start of the buffer up to the first NUL. *)
Record options : Type := mkOptions {
  hasMessage : bool;
  messageTicks : Z;
  message : string;
  maximumFitCellsForRandom : Z;
  colorThreshold : Z
}.

(** The bytes [sprintf] writes for a text: its characters and the closing
    NUL. *)
Definition text_bytes (msg : string) : list Z :=
  ((λ c, Z.of_nat (nat_of_ascii c)) <$> list_ascii_of_string msg) ++ [0].

(** The value of a member of four bytes after the bytes [bs] are written
    over it from its lowest address on, the lowest address holding the
    lowest byte; the bytes [bs] does not reach keep their value. *)
Definition overwrite4 (old : Z) (bs : list Z) : Z :=
  let byte (i : nat) := default (u32 old / 256 ^ Z.of_nat i mod 256) (bs !! i) in
  byte 0%nat + 256 * byte 1%nat + 65536 * byte 2%nat + 16777216 * byte 3%nat.

(** The [int] with the bits of an [unsigned int]. *)
Definition int_of_u32 (z : Z) : Z := if z <? 2147483648 then z else z - 4294967296.

(** [set_options_message]. [sprintf] copies the text into [message], which
    holds 64 bytes: the bytes of a text of 64 characters or more run on into
    the members that follow in the struct, [maximumFitCellsForRandom] at
    byte 64 and [colorThreshold] at byte 68 of the text, as the compilers lay
    out a struct with [int] of four bytes, with the lowest byte first. In C
    such a write is not defined; the model shows what it does in this
    layout, up to the 76 bytes that end the struct, and is [None] beyond.
    It is [None] too for a text with a per cent sign, which [sprintf] would
    read as a conversion without an argument. *)
Definition set_options_message (gameOptions : options) (msg : string)
    : option options :=
  let bs := text_bytes msg in
  if existsb (Ascii.eqb "%") (list_ascii_of_string msg) then None
  else if 76 <? Z.of_nat (length bs) then None
  else
    let fit :=
      match drop 64 bs with
      | [] => maximumFitCellsForRandom gameOptions
      | tail => int_of_u32 (overwrite4 (maximumFitCellsForRandom gameOptions) tail)
      end in
    let threshold :=
      match drop 68 bs with
      | [] => colorThreshold gameOptions
      | tail => overwrite4 (colorThreshold gameOptions) tail
      end in
    Some (mkOptions true 50 msg fit threshold).

(** ** The target of the seeding *)






(** The fields of [SDL_PixelFormat] and [SDL_Surface] the function reads;
    [pixels] is the buffer seen as an array of [Uint32]. *)
Record SDL_PixelFormat : Type := mkFormat {
  BitsPerPixel : Z;
  Rmask : Z; Gmask : Z; Bmask : Z;
  Rshift : Z; Gshift : Z; Bshift : Z;
  Rloss : Z; Gloss : Z; Bloss : Z
}.

Record SDL_Surface : Type := mkSurface {
  format : SDL_PixelFormat;
  w : Z;
  h : Z;
  pixels : list Z
}.

(** [((pixel & mask) >> shift) << loss] *)
Definition channel (pixel mask shift loss : Z) : Z :=
  u32 (Z.shiftl (Z.shiftr (Z.land pixel mask) shift) loss).

(** [pixelData32bit[off]] as a read. *)
Definition pixel_at (ps : list Z) (off : Z) : option Z :=
  if 0 <=? off then ps !! Z.to_nat off else None.

(** The two nested [for] loops over one block: [j] runs over [js] and, for
    each [j], [i] runs over [is]; [acc] holds [(rValue, gValue, bValue)]. *)
Fixpoint block_rows (img : SDL_Surface) (imgWidth j : Z) (rows : list Z)
    (acc : Z * Z * Z) : option (Z * Z * Z) :=
  match rows with
  | [] => Some acc
  | i :: rows' =>
      let tempOffset := u32 (j + i * imgWidth - i) in
      p ← pixel_at (pixels img) tempOffset;
      let f := format img in
      let '(rValue, gValue, bValue) := acc in
      block_rows img imgWidth j rows'
        (u32 (rValue + channel p (Rmask f) (Rshift f) (Rloss f)),
         u32 (gValue + channel p (Gmask f) (Gshift f) (Gloss f)),
         u32 (bValue + channel p (Bmask f) (Bshift f) (Bloss f)))
  end.

Fixpoint block_sums (img : SDL_Surface) (imgWidth : Z) (cols rows : list Z)
    (acc : Z * Z * Z) : option (Z * Z * Z) :=
  match cols with
  | [] => Some acc
  | j :: cols' =>
      acc' ← block_rows img imgWidth j rows acc;
      block_sums img imgWidth cols' rows acc'
  end.

(** The variables of the process loop that live across its rounds. *)
Record scan : Type := mkScan {
  workingX : Z;
  workingY : Z;
  row : Z;
  s_index : Z;
  s_cells : list cell;
  s_living : Z
}.

(** What one round of the [while (true)] loop does: go on with a new
    state, leave the loop by a [break], or make an undefined access. *)
Inductive round : Type :=
  | Continue (s : scan)
  | Break (cs : list cell) (living : Z)
  | Fault.

(** The constants of the process loop. *)
Record scan_env : Type := mkEnv {
  e_img : SDL_Surface;
  imgWidth : Z;
  limitX : Z;
  limitY : Z;
  xPixelPerCell : Z;
  yPixelPerCell : Z;
  totalPixelPerCell : Z;
  e_threshold : Z;
  e_cellsX : Z;
  e_cellCount : Z
}.

(** The part of a round behind the boundary test: read the block, decide,
    advance the index. *)
Definition scan_block (e : scan_env) (s : scan) : round :=
  match block_sums (e_img e) (imgWidth e)
          (seqZ (u32 (workingX s - xPixelPerCell e)) (xPixelPerCell e))
          (seqZ (u32 (workingY s - yPixelPerCell e)) (yPixelPerCell e))
          (0, 0, 0) with
  | None => Fault
  | Some (rValue, gValue, bValue) =>
      if totalPixelPerCell e =? 0 then Fault
      else
        let rAverage := rValue / totalPixelPerCell e in
        let gAverage := gValue / totalPixelPerCell e in
        let bAverage := bValue / totalPixelPerCell e in
        let written :=
          if u32 (rAverage + gAverage + bAverage) <=? e_threshold e
          then match cell_write (s_cells s) (s_index s) true true with
               | Some cs => Some (cs, u32 (s_living s + 1))
               | None => None
               end
          else Some (s_cells s, s_living s) in
        match written with
        | None => Fault
        | Some (cs, living) =>
            let index' := u32 (s_index s + 1) in
            if u32 (e_cellCount e - 1) <=? index' then Break cs living
            else Continue (mkScan (workingX s) (workingY s) (row s) index' cs living)
        end
  end.

Definition scan_round (e : scan_env) (s : scan) : round :=
  let wx := u32 (workingX s + xPixelPerCell e) in
  if limitX e <? wx then
    let wy := u32 (workingY s + yPixelPerCell e) in
    let row' := row s + 1 in
    let index' := u32 (row' * e_cellsX e - row') in
    if limitY e <? wy then Break (s_cells s) (s_living s)
    else scan_block e (mkScan (xPixelPerCell e) wy row' index' (s_cells s) (s_living s))
  else scan_block e (mkScan wx (workingY s) (row s) (s_index s) (s_cells s) (s_living s)).

Fixpoint scan_loop (fuel : nat) (e : scan_env) (s : scan) : outcome (list cell * Z) :=
  match fuel with
  | O => Running
  | S fuel' =>
      match scan_round e s with
      | Continue s' => scan_loop fuel' e s'
      | Break cs living => Returned (cs, living)
      | Fault => Undefined
      end
  end.

(** A number of rounds after which the loop has ended on every image (see
    [scan_loop_returns]). *)
Definition scan_fuel (imgWidth imgHeight : Z) : nat :=
  Z.to_nat ((imgHeight + 1) * (imgWidth + 1)).

(** [generateCellMapFromImage] from the loaded surface on: the checks of the
    file and of its name and the decoding by [IMG_Load] come before and are
    outside the model. [floor((double) imgWidth / cellsX)] is the quotient of
    the integer division for a positive [cellsX]; for a dimension that is not
    positive the conversion of the quotient to [unsigned int] is not defined.
    The fuel of the process loop is [scan_fuel], which the loop never uses
    up. *)
Definition generateCellMapFromImage (imageSurface : SDL_Surface)
    (gameBoard : playBoard) (gameOptions : options)
    : outcome (bool * playBoard * options) :=
  if BitsPerPixel (format imageSurface) <? 32 then
    match set_options_message gameOptions "Only 32 bit png images are supported." with
    | Some o => Returned (false, gameBoard, o)
    | None => Undefined
    end
  else
    let imgWidth := u32 (w imageSurface) in
    let imgHeight := u32 (h imageSurface) in
    if (cellsX gameBoard <=? 0) || (cellsY gameBoard <=? 0) then Undefined
    else
      let xPixelPerCell := u32 (imgWidth / cellsX gameBoard) in
      let yPixelPerCell := u32 (imgHeight / cellsY gameBoard) in
      let totalPixelPerCell := u32 (xPixelPerCell * yPixelPerCell) in
      if (xPixelPerCell <? 1) || (yPixelPerCell <? 1) then
        match set_options_message gameOptions
                "Image pixel size should be bigger then x and y count of the conway cells."
        with
        | Some o => Returned (false, gameBoard, o)
        | None => Undefined
        end
      else
        let b := resetPlayboard gameBoard in
        let e := mkEnv imageSurface imgWidth imgWidth imgHeight xPixelPerCell
                       yPixelPerCell totalPixelPerCell (colorThreshold gameOptions)
                       (cellsX gameBoard) (cellCount gameBoard) in
        match scan_loop (scan_fuel imgWidth imgHeight) e
                (mkScan 0 yPixelPerCell 0 0 (cells b) (livingCells b)) with
        | Returned (cs, living) =>
            Returned (true, set_livingCells (set_cells b cs) living, gameOptions)
        | Running => Running
        | Undefined => Undefined
        end.

(** ** Boards of the program *)

Definition coords (cs : list cell) : list (Z * Z) :=
  (λ c, (cellX c, cellY c)) <$> cs.

(** The coordinates by array position on a square board of side [n]: the
    cell at position [i] is the cell of column [i mod n] and line [i / n]. *)
Definition grid_coords (n : Z) : list (Z * Z) :=
  (λ i, (i mod n, i / n)) <$> seqZ 0 (n * n).

(** The boards [main] builds: square (the option [-c] sets [cellsX] and
    [cellsY] to one value), [cellCount = cellsX * cellsY] computed in [int],
    the counters in the range of [unsigned int], and the cell of column [x]
    and line [y] stored at [x + y * cellsY]. *)
Record wf_board (b : playBoard) : Prop := mkWf {
  wf_side : 1 ≤ cellsX b;
  wf_int : cellsX b * cellsX b ≤ INT_MAX;
  wf_square : cellsY b = cellsX b;
  wf_count : cellCount b = cellsX b * cellsY b;
  wf_living : 0 ≤ livingCells b ≤ UINT_MAX;
  wf_turns : 0 ≤ turns b ≤ UINT_MAX;
  wf_coords : coords (cells b) = grid_coords (cellsX b)
}.

(** The initialisation loops of [main]: line by line, all cells dead. *)
Definition init_cells (n : Z) : list cell :=
  y ← seqZ 0 n; x ← seqZ 0 n; [mkCell false false x y].

Definition init_board (n : Z) : playBoard :=
  mkBoard true n n (n * n) 0 0 (init_cells n).

(** A board of side [n] whose living cells are those at the positions
    [alive], with a consistent [livingCells]; for examples. *)
Definition board_with (n : Z) (t : Z) (alive : list Z) : playBoard :=
  let cs := imap (λ i c, mkCell (bool_decide (Z.of_nat i ∈ alive)) false
                               (cellX c) (cellY c)) (init_cells n) in
  mkBoard true n n (n * n) (count_alive cs) t cs.

(** ** The rule in the words of the specification *)

(** The eight compass shifts, clockwise from north. *)
Definition compass : list (Z * Z) :=
  [(0, -1); (1, -1); (1, 0); (1, 1); (0, 1); (-1, 1); (-1, 0); (-1, -1)].

(** Is the cell of column [x] and line [y], both taken modulo the side [n],
    alive in [cs]? *)
Definition torus_alive (n : Z) (cs : list cell) (x y : Z) : bool :=
  match cs !! Z.to_nat (x mod n + (y mod n) * n) with
  | Some c => isLiving c
  | None => false
  end.

(** The number of living cells among the eight neighbours on the torus. *)
Definition living_neighbours (n : Z) (cs : list cell) (x y : Z) : Z :=
  foldr (λ '(dx, dy) acc,
           (if torus_alive n cs (x + dx) (y + dy) then 1 else 0) + acc)
        0 compass.

(** Conway's rule: a living cell stays alive with two or three living
    neighbours, a dead cell is born with three. *)
Definition rule (alive : bool) (neighbours : Z) : bool :=
  if alive then (neighbours =? 2) || (neighbours =? 3) else neighbours =? 3.

(** The cell the rule makes of [c] when the neighbours are counted in the
    cell array [cs] of a board of side [n]: alive by the rule, changed when
    the rule flips it. *)
Definition rule_cell (c : cell) (neighbours : Z) : cell :=
  let a := rule (isLiving c) neighbours in
  mkCell a (xorb (isLiving c) a) (cellX c) (cellY c).

Definition next_cell (n : Z) (cs : list cell) (c : cell) : cell :=
  rule_cell c (living_neighbours n cs (cellX c) (cellY c)).

(** Example boards of side 5: a horizontal blinker in the middle line and
    the vertical one it turns into. *)
Definition blinker_h : playBoard := board_with 5 0 [11; 12; 13].
Definition blinker_v : playBoard := board_with 5 0 [7; 12; 17].

(** ** Sessions with a history *)

(** The history [main] starts with: [{0, 0, NULL}]. *)
Definition empty_history : H.gameHistoryGame := H.mkGame 0 0 [].

(** The turn [addHistory] builds from a board. *)
Definition record_of (b : playBoard) : gameHistoryTurn :=
  scan_cells b (cells b) (mkTurn 0 0 0 0 [] []).

(** The entry a cell gets in a turn of the history, on a board of [n]
    columns: [BORN] or [DEAD] for a changed cell, [STABLE] for an unchanged
    living cell, none for an unchanged dead cell. *)
Definition entry_of (n : Z) (c : cell) : option (Z * Z) :=
  let idx := u32 (cellX c + cellY c * n) in
  if cellChanged c then Some (if isLiving c then BORN else DEAD, idx)
  else if isLiving c then Some (STABLE, idx)
  else None.

Definition entries (n : Z) (cs : list cell) : list (Z * Z) := omap (entry_of n) cs.

(** One turn of the live game followed by its recording, as the main loop
    does outside history mode: [applyTurn] then [addHistory]. *)
Definition step_and_record (h : H.gameHistoryGame) (b : playBoard)
    : option (bool * H.gameHistoryGame * playBoard) :=
  b' ← applyTurn b false;
  let '(ok, h') := addHistory h b' in Some (ok, h', b').

(** [n] recorded turns; the boolean tells whether every recording
    succeeded. *)
Fixpoint record_turns (n : nat) (h : H.gameHistoryGame) (b : playBoard)
    : option (bool * H.gameHistoryGame * playBoard) :=
  match n with
  | O => Some (true, h, b)
  | S n' =>
      '(ok, h', b') ← step_and_record h b;
      '(oks, h'', b'') ← record_turns n' h' b';
      Some (ok && oks, h'', b'')
  end.

(** The live sequence: the board after [n] turns. *)
Fixpoint live (n : nat) (b : playBoard) : option playBoard :=
  match n with
  | O => Some b
  | S n' => b' ← applyTurn b false; live n' b'
  end.

(** [n] calls of a navigation function, whatever each call answers. *)
Fixpoint navigate
    (f : H.gameHistoryGame → playBoard → option (bool * H.gameHistoryGame * playBoard))
    (n : nat) (h : H.gameHistoryGame) (b : playBoard)
    : option (H.gameHistoryGame * playBoard) :=
  match n with
  | O => Some (h, b)
  | S n' => '(_, h', b') ← f h b; navigate f n' h' b'
  end.

(** The turn of the live sequence the board shows after [k] calls of
    [historyBackwards] that follow [n] recorded turns, and after [j] calls of
    [historyForwards] that follow these. *)
Definition shown_backwards (n k : nat) : nat :=
  match n with O => O | S _ => Nat.max 1 (n - k) end.

Definition shown_forwards (n j : nat) : nat := Nat.min n (1 + j).

(** The board one turn makes of a board of the program (see
    [applyTurn_wf]), and the board after [n] turns of the live game. *)
Definition turn_of (b : playBoard) (isInHistory : bool) : playBoard :=
  let cs := next_cell (cellsX b) (cells b) <$> cells b in
  mkBoard (existsb cellChanged cs) (cellsX b) (cellsY b) (cellCount b)
          (u32 (livingCells b + (count_alive cs - count_alive (cells b))))
          (next_turns (turns b) isInHistory) cs.

Fixpoint live_board (n : nat) (b : playBoard) : playBoard :=
  match n with
  | O => b
  | S n' => live_board n' (turn_of b false)
  end.

(** The turns recorded for the boards [bs], in their order. *)
Definition recorded (h : H.gameHistoryGame) (bs : list playBoard) : Prop :=
  H.turns h = Z.of_nat (length bs) ∧ H.turnData h = record_of <$> bs.

(** The state of a session that navigates in the history of the [n] turns
    recorded from [b0] on: the cursor is at [c] and the board shows the turn
    recorded there. *)
Record nav_inv (n : nat) (b0 : playBoard) (c : nat)
    (h : H.gameHistoryGame) (b : playBoard) : Prop := mkNav {
  nav_recorded : recorded h ((λ i, live_board i b0) <$> seq 1 n);
  nav_cursor : H.currentTurn h = Z.of_nat c;
  nav_range : (c < n)%nat;
  nav_turns : turns b = turns b0 + Z.of_nat n;
  nav_coords : coords (cells b) = coords (cells b0);
  nav_shown : cells b = cells (live_board (S c) b0)
}.

(** The horizontal blinker after one turn of the live game. *)
Definition blinker_1 : playBoard := turn_of blinker_h false.

(** ** Images *)

(** The surfaces the decoder hands over: non-negative [int] dimensions and a
    buffer of [w * h] pixels of 32 bits, the number of pixels within the
    range of [unsigned int]. *)
Record wf_surface (img : SDL_Surface) : Prop := mkWs {
  ws_w : 0 ≤ w img ≤ INT_MAX;
  ws_h : 0 ≤ h img ≤ INT_MAX;
  ws_size : w img * h img ≤ UINT_MAX;
  ws_pixels : Z.of_nat (length (pixels img)) = w img * h img
}.

(** A 32-bit format with one byte per channel, red in the low byte. *)
Definition rgba32 : SDL_PixelFormat := mkFormat 32 255 65280 16711680 0 8 16 0 0 0.

(** An opaque black pixel of [rgba32]. *)
Definition black : Z := 4278190080.

(** Example images: all black, 5 x 5 and 3 x 3 pixels. *)
Definition black_5x5 : SDL_Surface := mkSurface rgba32 5 5 (replicate 25 black).
Definition black_3x3 : SDL_Surface := mkSurface rgba32 3 3 (replicate 9 black).

(** The options of a session started without arguments on a board of side
    5: the threshold is [(255+255+255) * 0.85] cut to an integer. *)
Definition default_options : options := mkOptions false 50 "" 10 650.

(** The constants of the process loop for an image and a board. *)
Definition env_of (img : SDL_Surface) (b : playBoard) (o : options) : scan_env :=
  let imgWidth := u32 (w img) in
  let imgHeight := u32 (h img) in
  let xPixelPerCell := u32 (imgWidth / cellsX b) in
  let yPixelPerCell := u32 (imgHeight / cellsY b) in
  mkEnv img imgWidth imgWidth imgHeight xPixelPerCell yPixelPerCell
        (u32 (xPixelPerCell * yPixelPerCell)) (colorThreshold o)
        (cellsX b) (cellCount b).

(** The state of the process loop at the head of a round, on a board of
    side [n]: [c] blocks of the current line of blocks are done, and the
    index is [c] cells behind [row * (n - 1)]. *)
Record scan_inv (e : scan_env) (n : Z) (s : scan) : Prop := mkSi {
  si_blocks : ∃ c, 0 ≤ c ∧ workingX s = c * xPixelPerCell e ∧
                   s_index s = row s * (n - 1) + c;
  si_wx : 0 ≤ workingX s ≤ limitX e;
  si_wy : yPixelPerCell e ≤ workingY s ≤ limitY e;
  si_row : 0 ≤ row s;
  si_index : 0 ≤ s_index s < n * n - 1;
  si_coords : coords (s_cells s) = grid_coords n;
  si_last : ∃ c, cell_at (s_cells s) (n * n - 1) = Some c ∧ isLiving c = false
}.

(** What the loop leaves on a cell array when it ends. *)
Definition scan_post (n : Z) (cs : list cell) : Prop :=
  coords cs = grid_coords n ∧
  ∃ c, cell_at cs (n * n - 1) = Some c ∧ isLiving c = false.

(** The measure that every round of the loop lowers. *)
Definition scan_measure (e : scan_env) (s : scan) : Z :=
  (limitY e - workingY s) * (limitX e + 1) + (limitX e - workingX s).

(** What the proofs use of the constants of the loop, for a board of side
    [n] at least 2 and an image that passed the checks. *)
Record wf_env (e : scan_env) (n : Z) : Prop := mkWe {
  we_n : 2 ≤ n;
  we_int : n * n ≤ INT_MAX;
  we_x : 1 ≤ xPixelPerCell e;
  we_y : 1 ≤ yPixelPerCell e;
  we_nx : n * xPixelPerCell e ≤ limitX e;
  we_ny : yPixelPerCell e ≤ limitY e;
  we_w : imgWidth e = limitX e;
  we_wmax : limitX e ≤ INT_MAX;
  we_hmax : limitY e ≤ INT_MAX;
  we_fit : limitX e * limitY e ≤ UINT_MAX;
  we_pixels : Z.of_nat (length (pixels (e_img e))) = limitX e * limitY e;
  we_total : totalPixelPerCell e ≠ 0;
  we_cellsX : e_cellsX e = n;
  we_count : e_cellCount e = n * n
}.

(** A 9 x 9 image, white in the pixel columns 0 to 4 and black in the
    columns 5 to 8, and a white pixel. *)
Definition white : Z := 4294967295.
Definition right_9x9 : SDL_Surface :=
  mkSurface rgba32 9 9 ((λ i, if 5 <=? i mod 9 then black else white) <$> seqZ 0 81).

(** ** Block averaging in the words of the specification *)

(** The sums of the three channels over the block of the cell of column [x]
    and line [y]: the [xP] x [yP] rectangle of pixels at offset
    [(x * xP, y * yP)], the pixel of column [px] and line [py] being the
    element [px + py * w] of the buffer. *)
Definition spec_block_sums (img : SDL_Surface) (xP yP x y : Z) : Z * Z * Z :=
  foldr (λ off '(r, g, b),
           match pixels img !! Z.to_nat off with
           | Some p =>
               let f := format img in
               (r + channel p (Rmask f) (Rshift f) (Rloss f),
                g + channel p (Gmask f) (Gshift f) (Gloss f),
                b + channel p (Bmask f) (Bshift f) (Bloss f))
           | None => (r, g, b)
           end)
        (0, 0, 0)
        (py ← seqZ (y * yP) yP; px ← seqZ (x * xP) xP; [px + py * w img]).

(** Is the cell of column [x] and line [y] alive by the specification: the
    sum of the three channel averages of its block is at most the
    threshold. *)
Definition spec_cell_alive (img : SDL_Surface) (n threshold x y : Z) : bool :=
  let xP := w img / n in
  let yP := h img / n in
  let '(r, g, b) := spec_block_sums img xP yP x y in
  r / (xP * yP) + g / (xP * yP) + b / (xP * yP) <=? threshold.

(** An L of three living cells on a board of side 5; one turn makes it a
    block of four. *)
Definition tromino : playBoard := board_with 5 0 [6; 7; 11].

(** ** Painting: [paintCell] *)

(** The block every branch of [paintCell] runs on an index it has computed:
    an index inside the array whose cell is dead is brought alive and
    counted; [cellChanged] is left as it is. *)
Definition paint_index (gameBoard : playBoard) (index : Z) : option playBoard :=
  if index <? cellCount gameBoard then
    c ← cell_at (cells gameBoard) index;
    if isLiving c then Some gameBoard
    else
      Some (set_livingCells
              (set_cells gameBoard
                 (<[Z.to_nat index := mkCell true (cellChanged c) (cellX c) (cellY c)]>
                    (cells gameBoard)))
              (u32 (livingCells gameBoard + 1)))
  else Some gameBoard.

(** [paintCell] on the indices it computes, one for a button event and one
    per step of a motion event; the floating-point computation of an index
    from the mouse position is not modelled and the [unsigned int] indices
    are inputs. *)
Fixpoint paintCell (gameBoard : playBoard) (indices : list Z) : option playBoard :=
  match indices with
  | [] => Some gameBoard
  | index :: indices' =>
      b ← paint_index gameBoard index;
      paintCell b indices'
  end.

(** ** The board of a session *)

(** The option [-c] of [main]: the value [atoi] returns is clamped to 5 ..
    250 and used for both dimensions. *)
Definition cells_option (v : Z) : Z :=
  if v <? 5 then 5 else if 250 <? v then 250 else v.

(** The board [main] builds for the option value [v]. *)
Definition main_board (v : Z) : playBoard := init_board (cells_option v).

(** ** Counting cells *)

(** The number of cells of the array that satisfy [p]. *)
Fixpoint count_cells (p : cell → bool) (cs : list cell) : Z :=
  match cs with
  | [] => 0
  | c :: cs' => (if p c then 1 else 0) + count_cells p cs'
  end.

(** A history of one recorded turn, and a history at the capacity of the
    counter, with as many stored turns as it counts. *)
Definition one_turn_history : H.gameHistoryGame :=
  H.mkGame 1 0 [record_of blinker_h].

Definition full_history : H.gameHistoryGame :=
  H.mkGame TURN_LIMIT 0 (replicate (Z.to_nat TURN_LIMIT) (record_of blinker_h)).


(** A board of side 7 with five living cells on the diagonal, from (1, 1)
    to (5, 5). *)
Definition diagonal_7 : playBoard := board_with 7 0 [8; 16; 24; 32; 40].

(** ** What the ingestion leaves on the cells *)

(** Every cell is marked changed exactly when it is alive. *)
Definition born_marked (cs : list cell) : Prop :=
  ∀ i c, cs !! i = Some c → cellChanged c = isLiving c.

(** The sum of the three channels of one pixel, as the function forms it for
    a block of one pixel. *)
Definition pixel_sum (img : SDL_Surface) (p : Z) : Z :=
  let f := format img in
  u32 (channel p (Rmask f) (Rshift f) (Rloss f)
       + channel p (Gmask f) (Gshift f) (Gloss f)
       + channel p (Bmask f) (Bshift f) (Bloss f)).

(** A 5 x 5 image with black pixels at the positions 0, 6, 12, 18 and 24
    (the diagonal) and white pixels elsewhere. *)
Definition diagonal_5x5 : SDL_Surface :=
  mkSurface rgba32 5 5 ((λ i, if i mod 6 =? 0 then black else white) <$> seqZ 0 25).

(** Is the pixel at offset [k] of the buffer dark: the sum of its channels
    is at most the threshold. *)
Definition pixel_dark (img : SDL_Surface) (threshold k : Z) : bool :=
  match pixel_at (pixels img) k with
  | Some p => pixel_sum img p <=? threshold
  | None => false
  end.

Fixpoint count_true (l : list bool) : Z :=
  match l with
  | [] => 0
  | x :: l' => (if x then 1 else 0) + count_true l'
  end.

(** The number of dark pixels at the offsets [r * (n - 1)], [r] from 1 to
    [rows]: with one pixel per cell these are the pixels that two blocks
    read, the last of a line of blocks and the first of the next. *)
Definition seam_dark (img : SDL_Surface) (threshold n rows : Z) : Z :=
  count_true ((λ r, pixel_dark img threshold (r * (n - 1))) <$> seqZ 1 rows).

(** The cells up to [idx] follow the pixels, the cells from [idx] on are
    dead. *)
Definition follows_pixels (dark : Z → bool) (idx : Z) (cs : list cell) : Prop :=
  ∀ k c, cs !! k = Some c →
    isLiving c = (Z.of_nat k <? idx) && dark (Z.of_nat k) ∧
    cellChanged c = isLiving c.

(** The state of the process loop at the head of a round when the image has
    one pixel per cell. *)
Record pixel_inv (e : scan_env) (n : Z) (s : scan) : Prop := mkPi {
  pi_scan : scan_inv e n s;
  pi_wy : workingY s = row s + 1;
  pi_cells : follows_pixels (pixel_dark (e_img e) (e_threshold e)) (s_index s)
               (s_cells s);
  pi_living : s_living s
              = count_alive (s_cells s)
                + seam_dark (e_img e) (e_threshold e) n (row s)
}.

Definition pixel_post (e : scan_env) (n : Z) (cs : list cell) (living : Z) : Prop :=
  follows_pixels (pixel_dark (e_img e) (e_threshold e)) (n * n - n + 1) cs ∧
  living = count_alive cs + seam_dark (e_img e) (e_threshold e) n (n - 1).

(** ** The command line: the argument parser of [main] *)

(** [enum COMMANDTYPES]. *)
Definition CELLSXY : Z := 0.
Definition COLORTRESHOLD : Z := 1.
Definition MAXIMUMFITCELLS : Z := 2.
Definition DRAWGRID : Z := 3.
Definition SHOWANIMATIONS : Z := 4.
Definition DOCREATEHISTORY : Z := 5.
Definition DRAWINFOPANEL : Z := 6.
Definition USERANDOM : Z := 7.
Definition USECAIRO : Z := 8.

(** The locals of [main] that the arguments set. The two values read with
    [atof], the colour threshold and the share of cells for the random
    seeding, are floats and are left out. *)
Module Main.

Record settings : Type := mkSettings {
  cellsX : Z;
  cellsY : Z;
  drawGrid : bool;
  showAnimations : bool;
  doCreateHistory : bool;
  drawInfoPanel : bool;
  useCairoPNGs : bool;
  useRandom : bool
}.

End Main.

(** The values the locals are declared with. *)
Definition default_settings : Main.settings :=
  Main.mkSettings 50 50 true true false false false false.

(** What the chain of [strncmp] tests makes of an argument that starts with
    a dash: the help, or a command type ([-1] for none) and the position of
    its value. [strncmp (arg, lit, n) == 0] with [n] the length of [lit]
    holds when [lit] is a prefix of [arg]. *)
Inductive selected : Type :=
  | Help
  | Command (commandType : Z) (dataPos : nat).

Definition select_command (arg : string) : selected :=
  if String.prefix "-ct" arg then Command COLORTRESHOLD 3
  else if String.prefix "-c" arg then Command CELLSXY 2
  else if String.prefix "-mfc" arg then Command MAXIMUMFITCELLS 4
  else if String.prefix "-h" arg || String.prefix "-?" arg || String.prefix "?" arg
  then Help
  else if String.prefix "-g" arg then Command DRAWGRID 2
  else if String.prefix "-a" arg then Command SHOWANIMATIONS 2
  else if String.prefix "-ht" arg then Command DOCREATEHISTORY 3
  else if String.prefix "-i" arg then Command DRAWINFOPANEL 2
  else if String.prefix "-r" arg then Command USERANDOM 0
  else if String.prefix "-cb" arg then Command USECAIRO 0
  else Command (-1) 0.

(** The two [switch] statements of the boolean commands. *)
Definition set_flag (commandType : Z) (v : bool) (s : Main.settings) : Main.settings :=
  let '(Main.mkSettings cx cy grid anim hist info cairo rnd) := s in
  if commandType =? DRAWGRID then Main.mkSettings cx cy v anim hist info cairo rnd
  else if commandType =? SHOWANIMATIONS then Main.mkSettings cx cy grid v hist info cairo rnd
  else if commandType =? DOCREATEHISTORY then Main.mkSettings cx cy grid anim v info cairo rnd
  else if commandType =? DRAWINFOPANEL then Main.mkSettings cx cy grid anim hist v cairo rnd
  else s.

(** The outcome of the parser: the program ends after the help, goes on with
    the settings, or has copied a value of more than 16 characters into
    [char commandValue[17]] with [strcpy]. *)
Inductive parsed : Type :=
  | Exit
  | Go (s : Main.settings)
  | Overrun.

(** One round of the loop over [argv]; [atoi] is the function of the C
    library. *)
Definition parse_arg (atoi : string → Z) (arg : string) (s : Main.settings) : parsed :=
  match String.get 0 arg with
  | Some c0 =>
      if negb (Ascii.eqb c0 "-") then Go s else
      match select_command arg with
      | Help => Exit
      | Command commandType dataPos =>
          if (commandType =? -1) || (String.length arg <? dataPos)%nat then Go s
          else if commandType <=? MAXIMUMFITCELLS then
            let commandValue :=
              String.substring dataPos (String.length arg - dataPos) arg in
            if (16 <? String.length commandValue)%nat then Overrun
            else if commandType =? CELLSXY then
              let '(Main.mkSettings _ _ grid anim hist info cairo rnd) := s in
              let v := cells_option (atoi commandValue) in
              Go (Main.mkSettings v v grid anim hist info cairo rnd)
            else Go s
          else if commandType =? USERANDOM then
            let '(Main.mkSettings cx cy grid anim hist info cairo _) := s in
            Go (Main.mkSettings cx cy grid anim hist info cairo true)
          else if commandType =? USECAIRO then
            let '(Main.mkSettings cx cy grid anim hist info _ rnd) := s in
            Go (Main.mkSettings cx cy grid anim hist info true rnd)
          else
            match String.get dataPos arg with
            | Some c =>
                if Ascii.eqb c "1" || Ascii.eqb c "t" then Go (set_flag commandType true s)
                else if Ascii.eqb c "0" || Ascii.eqb c "f"
                then Go (set_flag commandType false s)
                else Go s
            | None => Go s
            end
      end
  | None => Go s
  end.

(** The loop [for (int i = 0; i < argc; ++i)]. *)
Fixpoint parse_args (atoi : string → Z) (argv : list string) (s : Main.settings)
    : parsed :=
  match argv with
  | [] => Go s
  | arg :: argv' =>
      match parse_arg atoi arg s with
      | Go s' => parse_args atoi argv' s'
      | r => r
      end
  end.

(** The value of the decimal digits a string starts with, which is what
    [atoi] gives for a string that starts with a digit or with no number;
    for examples. *)
Fixpoint decimal_from (acc : Z) (v : string) : Z :=
  match v with
  | String c v' =>
      let d := Z.of_nat (Ascii.nat_of_ascii c) - 48 in
      if (0 <=? d) && (d <=? 9) then decimal_from (acc * 10 + d) v' else acc
  | EmptyString => acc
  end.

Definition decimal (v : string) : Z := decimal_from 0 v.

(** ** A session: the history handling of the main loop *)

(** The variables of [main] the history handling reads and writes: the
    board, the history, [gameOptions.doRecordHistory] and the flags of the
    loop. The messages, the window title and the drawing are left out. *)
Record session : Type := mkSession {
  gameBoard : playBoard;
  gameHistory : H.gameHistoryGame;
  doRecordHistory : bool;
  isInHistory : bool;
  historyCreated : bool;
  doRender : bool;
  doPause : bool
}.

Definition set_turns (b : playBoard) (t : Z) : playBoard :=
  mkBoard (isDirty b) (cellsX b) (cellsY b) (cellCount b) (livingCells b) t
          (cells b).

(** The session [main] enters its loop with, for the settings of the
    command line and without the random seeding. The initializer of
    [gameOptions] lists [doCreateHistory] and [drawInfoPanel] at the
    positions of the fields [hasMessage] and [doRecordHistory]. *)
Definition main_session (st : Main.settings) : session :=
  mkSession (init_board (Main.cellsX st)) empty_history (Main.drawInfoPanel st)
            false false true true.

(** A turn of the game in the main loop: the body of
    [if (doRender && !doPause && gameBoard.livingCells != 0)] once the
    animation has ended and the ticks of a turn have passed. The check
    behind the drawing, which clears [doRender] when [livingCells] is 0, is
    left out: with [livingCells] at 0 this body is not entered, and no event
    of the model makes [livingCells] other than 0 again, so the flag
    [doRender] of the model differs from the program's only in sessions
    where it decides nothing. The drawing itself, [drawGameBoard], is left out too: it
    writes no [isLiving], no counter and nothing of the history, but with
    the animations on it clears [cellChanged] of the cells whose animation
    has ended. The cells of a session of the model are therefore those of
    the program up to [cellChanged]; [applyTurn] writes [cellChanged] of
    every cell, so the turns recorded after it are those of the program. *)
Definition game_turn (s : session) : option session :=
  if doRender s && negb (doPause s) && negb (livingCells (gameBoard s) =? 0) then
    let '(created, h1) :=
      if doRecordHistory s && negb (isInHistory s) && negb (historyCreated s)
      then addHistory (gameHistory s) (gameBoard s)
      else (historyCreated s, gameHistory s) in
    '(inHistory, h2, b2) ←
      (if doRecordHistory s && isInHistory s then
         if H.currentTurn h1 =? u32 (H.turns h1 - 1)
         then Some (false, h1, gameBoard s)
         else '(_, h, b) ← historyForwards h1 (gameBoard s); Some (true, h, b)
       else Some (isInHistory s, h1, gameBoard s));
    '(record, h3, b3) ←
      (if negb inHistory then
         b ← applyTurn b2 inHistory;
         if doRecordHistory s
         then let '(ok, h) := addHistory h2 b in Some (ok, h, b)
         else Some (false, h2, b)
       else Some (doRecordHistory s, h2, b2));
    Some (mkSession b3 h3 record inHistory created
                    (if isDirty b3 then doRender s else false) (doPause s))
  else Some s.

(** [case SDLK_COMMA]. *)
Definition key_comma (s : session) : option session :=
  if historyCreated s then
    '(r, h, b) ← historyBackwards (gameHistory s) (gameBoard s);
    Some (mkSession b h (doRecordHistory s) (r || isInHistory s)
                    (historyCreated s) (doRender s) (doPause s))
  else Some s.

(** [case SDLK_PERIOD]. *)
Definition key_period (s : session) : option session :=
  if historyCreated s then
    '(r, h, b) ← historyForwards (gameHistory s) (gameBoard s);
    let inHistory :=
      if r : bool then true
      else if H.currentTurn h =? u32 (H.turns h - 1) then false
      else isInHistory s in
    Some (mkSession b h (doRecordHistory s) inHistory (historyCreated s)
                    (doRender s) (doPause s))
  else Some s.

(** [case SDLK_h]. *)
Definition key_h (s : session) : session :=
  if negb (doRecordHistory s) then
    mkSession (gameBoard s) (gameHistory s) true (isInHistory s)
              (historyCreated s) (doRender s) (doPause s)
  else
    let h := gameHistory s in
    let b := gameBoard s in
    let b' :=
      if isInHistory s
      then set_turns b (u32 (turns b - u32 (u32 (H.turns h - 1) - H.currentTurn h)))
      else b in
    mkSession b' (clearHistory h).2 false false false (doRender s) (doPause s).

(** [case SDLK_c]. *)
Definition key_c (s : session) : session :=
  let h := if doRecordHistory s then (clearHistory (gameHistory s)).2
           else gameHistory s in
  mkSession (resetPlayboard (gameBoard s)) h (doRecordHistory s) false false
            true true.

(** [case SDLK_SPACE] outside the paint mode. *)
Definition key_space (s : session) : session :=
  if doPause s && (livingCells (gameBoard s) =? 0) then s
  else mkSession (gameBoard s) (gameHistory s) (doRecordHistory s)
                 (isInHistory s) (historyCreated s) (doRender s)
                 (negb (doPause s)).

Inductive event : Type := Turn | Comma | Period | KeyH | KeyC | Space.

Definition handle (ev : event) (s : session) : option session :=
  match ev with
  | Turn => game_turn s
  | Comma => key_comma s
  | Period => key_period s
  | KeyH => Some (key_h s)
  | KeyC => Some (key_c s)
  | Space => Some (key_space s)
  end.

Fixpoint run (evs : list event) (s : session) : option session :=
  match evs with
  | [] => Some s
  | ev :: evs' => s' ← handle ev s; run evs' s'
  end.

(** The state of a session in which the turns of the boards [bs] are
    recorded: the history holds their records, the cursor is at a board
    whose cells the board of the session shows, and outside the history
    mode that board is the last one, the board of the live game. The boards
    are numbered up to the turn counter of the session. *)
Record session_inv (s : session) (bs : list playBoard) : Prop := mkInv {
  inv_wf : wf_board (gameBoard s);
  inv_recorded : recorded (gameHistory s) bs;
  inv_boards : ∀ i b, bs !! i = Some b →
    wf_board b ∧ coords (cells b) = coords (cells (gameBoard s)) ∧
    turns b + Z.of_nat (length bs) = turns (gameBoard s) + Z.of_nat i + 1;
  inv_created : historyCreated s = bool_decide (bs ≠ []);
  inv_record : doRecordHistory s = false → bs = [];
  inv_in : isInHistory s = true → bs ≠ [];
  inv_cursor : bs ≠ [] →
    ∃ c b, H.currentTurn (gameHistory s) = Z.of_nat c ∧ bs !! c = Some b ∧
           cells (gameBoard s) = cells b ∧
           (isInHistory s = false → S c = length bs);
  inv_live : ∀ L, last bs = Some L → L = set_cells (gameBoard s) (cells L)
}.

(** The session with the cursor of the history at [j] and the cells of the
    board [src] shown: what a successful navigation makes of a session. *)
Definition at_cursor (s : session) (j : nat) (src : playBoard) : session :=
  mkSession (set_cells (gameBoard s) (cells src))
            (set_currentTurn (gameHistory s) (Z.of_nat j))
            (doRecordHistory s) true (historyCreated s) (doRender s) (doPause s).

(** A session in which nothing is recorded: the one [main] starts with, and
    the one the keys [c] and [h] (switching off) leave. *)
Definition fresh_session (b : playBoard) (record render pause : bool) : session :=
  mkSession b empty_history record false false render pause.

(** A running session on the horizontal blinker with the recording on and
    nothing recorded yet. *)
Definition blinker_session : session := fresh_session blinker_h true true false.

(** The session after one recorded turn of [blinker_session]: the first
    snapshot and the turn are recorded. *)
Definition recorded_session : session :=
  mkSession blinker_1 (H.mkGame 2 1 [record_of blinker_h; record_of blinker_1])
            true false true true false.

(** * Properties *)

(** ** Arithmetic and array helpers *)

Lemma u32_small z : 0 ≤ z < 4294967296 → u32 z = z.
Proof. intros Hz. unfold u32. apply Z.mod_small. lia. Qed.

Lemma cell_at_Some cs i c :
  cell_at cs i = Some c ↔ 0 ≤ i ∧ cs !! Z.to_nat i = Some c.
Proof.
  unfold cell_at. destruct (Z.leb_spec 0 i); split; intros; try tauto;
    try discriminate. lia.
Qed.

Lemma cell_at_nat cs (i : nat) : cell_at cs (Z.of_nat i) = cs !! i.
Proof.
  unfold cell_at. destruct (Z.leb_spec 0 (Z.of_nat i)); [|lia].
  by rewrite Nat2Z.id.
Qed.

Lemma count_alive_bounds cs : 0 ≤ count_alive cs ≤ Z.of_nat (length cs).
Proof.
  induction cs as [|c cs IH]; simpl; [lia|]. destruct (isLiving c); lia.
Qed.

(** ** Well-formed boards *)

Lemma grid_coords_length n : 0 ≤ n → length (grid_coords n) = Z.to_nat (n * n).
Proof. intros. unfold grid_coords. by rewrite length_fmap, length_seqZ. Qed.

Lemma wf_length b : wf_board b → Z.of_nat (length (cells b)) = cellCount b.
Proof.
  intros [Hn _ HY HC _ _ Hco].
  assert (length (cells b) = length (grid_coords (cellsX b))) as ->.
  { rewrite <- Hco. unfold coords. by rewrite length_fmap. }
  rewrite grid_coords_length by lia. rewrite HC, HY. nia.
Qed.

Lemma wf_lookup b i c :
  wf_board b → cells b !! i = Some c →
  Z.of_nat i < cellsX b * cellsX b ∧
  cellX c = Z.of_nat i mod cellsX b ∧ cellY c = Z.of_nat i / cellsX b.
Proof.
  intros [Hn _ HY HC _ _ Hco] Hi.
  assert (coords (cells b) !! i = Some (cellX c, cellY c)) as Hl.
  { unfold coords. by rewrite list_lookup_fmap, Hi. }
  rewrite Hco in Hl. unfold grid_coords in Hl.
  rewrite list_lookup_fmap in Hl.
  destruct (seqZ 0 (cellsX b * cellsX b) !! i) as [z|] eqn:Hz; [|done].
  apply lookup_seqZ in Hz as [-> Hlt]. simpl in Hl.
  injection Hl as <- <-. rewrite Z.add_0_l. auto.
Qed.

Lemma wf_cell_at b x y :
  wf_board b → 0 ≤ x < cellsX b → 0 ≤ y < cellsX b →
  ∃ c, cell_at (cells b) (x + y * cellsX b) = Some c ∧ cellX c = x ∧ cellY c = y.
Proof.
  intros Hwf Hx Hy.
  assert (0 ≤ x + y * cellsX b < cellsX b * cellsX b) as Hr by nia.
  pose proof (wf_length b Hwf) as Hlen.
  pose proof Hwf as [Hn Hb HY HC _ _ Hco].
  destruct (cells b !! Z.to_nat (x + y * cellsX b)) as [c|] eqn:Hc.
  - exists c. split; [apply cell_at_Some; split; [lia|done]|].
    destruct (wf_lookup b _ c Hwf Hc) as (_ & HX & HYc).
    rewrite Z2Nat.id in HX, HYc by lia.
    rewrite HX, HYc. split.
    + rewrite Z_mod_plus_full. apply Z.mod_small; lia.
    + rewrite Z_div_plus_full by lia. rewrite Z.div_small; lia.
  - apply lookup_ge_None in Hc. rewrite HC, HY in Hlen. lia.
Qed.

(** ** The board [main] builds *)

Lemma bind_singleton {A B} (f : A → B) (l : list A) : (x ← l; [f x]) = f <$> l.
Proof.
  induction l as [|a l IH]; [done|].
  change ([f a] ++ (x ← l; [f x]) = f a :: (f <$> l)). by rewrite IH.
Qed.

(** One line of the initialisation: the cells of line [y] are those of the
    positions [y * n] to [y * n + n - 1]. *)
Lemma init_line_coords n y :
  1 ≤ n → 0 ≤ y →
  coords (x ← seqZ 0 n; [mkCell false false x y])
  = (λ i, (i mod n, i / n)) <$> seqZ (y * n) n.
Proof.
  intros Hn Hy. rewrite bind_singleton. unfold coords.
  rewrite <- list_fmap_compose.
  replace (y * n) with (y * n + 0) by lia.
  rewrite <- fmap_add_seqZ, <- list_fmap_compose.
  apply list_fmap_ext. intros j x [Hx1 Hx2]%lookup_seqZ. simpl. subst x.
  rewrite Z.add_0_l. f_equal.
  - rewrite Z.add_comm, Z_mod_plus_full. symmetry. apply Z.mod_small. lia.
  - rewrite Z.add_comm, Z_div_plus_full by lia. rewrite Z.div_small; lia.
Qed.

Lemma init_lines_coords n (k : nat) : ∀ y0,
  1 ≤ n → 0 ≤ y0 →
  coords (y ← seqZ y0 (Z.of_nat k); x ← seqZ 0 n; [mkCell false false x y])
  = (λ i, (i mod n, i / n)) <$> seqZ (y0 * n) (Z.of_nat k * n).
Proof.
  induction k as [|k IH]; intros y0 Hn Hy0; [done|].
  rewrite (seqZ_cons y0) by lia.
  change ((y ← y0 :: ?l; @?f y)) with (f y0 ++ (y ← l; f y)).
  replace (Z.pred (Z.of_nat (S k))) with (Z.of_nat k) by lia.
  replace (Z.of_nat (S k) * n) with (n + Z.of_nat k * n) by lia.
  rewrite seqZ_app by nia. rewrite fmap_app.
  unfold coords in *. rewrite fmap_app. f_equal.
  - by apply init_line_coords.
  - rewrite IH by lia. do 2 f_equal. lia.
Qed.

(** The initialisation loops of [main] build a board of the program. *)
Lemma init_board_wf n : 1 ≤ n → n * n ≤ INT_MAX → wf_board (init_board n).
Proof.
  intros Hn Hb. constructor; simpl; try done; try (unfold UINT_MAX; lia).
  unfold init_cells, grid_coords.
  pose proof (init_lines_coords n (Z.to_nat n) 0 Hn) as Hl.
  rewrite Z2Nat.id in Hl by lia. by apply Hl.
Qed.

(** Well-formedness of a concrete board, by evaluation. *)
Ltac wf_by_compute :=
  constructor; try (vm_compute; intuition congruence); try (vm_compute; reflexivity).

(** ** Neighbour lookup *)

Lemma limit_of_mod pos dim calc :
  0 ≤ pos < dim → calc = -1 ∨ calc = 0 ∨ calc = 1 →
  limit_of pos dim calc = (pos + calc) mod dim.
Proof.
  intros Hp [->|[->| ->]]; unfold limit_of; simpl.
  - destruct (Z.eqb_spec pos 0) as [->|Hne].
    + change (0 + -1) with (-1). symmetry.
      rewrite <- (Z.mod_unique_pos (-1) dim (-1) (dim - 1)); lia.
    + symmetry. apply Z.mod_small. lia.
  - symmetry. rewrite Z.add_0_r. apply Z.mod_small. lia.
  - destruct (Z.eqb_spec pos (dim - 1)) as [->|Hne].
    + replace (dim - 1 + 1) with dim by lia. symmetry. apply Z.mod_same. lia.
    + symmetry. apply Z.mod_small. lia.
Qed.

Lemma direction_shift_compass (j : nat) :
  (j < 8)%nat → direction_shift (Z.of_nat j) = compass !! j.
Proof.
  intros Hj. do 8 (destruct j as [|j]; [reflexivity|]). lia.
Qed.

Lemma compass_shifts (j : nat) dx dy :
  compass !! j = Some (dx, dy) →
  (j < 8)%nat ∧ (dx = -1 ∨ dx = 0 ∨ dx = 1) ∧ (dy = -1 ∨ dy = 0 ∨ dy = 1).
Proof.
  intros H. do 8 (destruct j as [|j]; [injection H as <- <-; lia|]).
  discriminate.
Qed.

(** On a board of the program, the lookup in a compass direction reads the
    cell whose coordinates are the shifted ones modulo the side. *)
Lemma get_neighbour_living_torus b i c (j : nat) dx dy :
  wf_board b → cells b !! i = Some c → compass !! j = Some (dx, dy) →
  ∃ c', cell_at (cells b)
          ((cellX c + dx) mod cellsX b + (cellY c + dy) mod cellsX b * cellsX b)
        = Some c' ∧
        cellX c' = (cellX c + dx) mod cellsX b ∧
        cellY c' = (cellY c + dy) mod cellsX b ∧
        get_neighbour_living c b (Z.of_nat j) = Some (isLiving c').
Proof.
  intros Hwf Hc Hj.
  destruct (compass_shifts _ _ _ Hj) as (Hj8 & Hdx & Hdy).
  destruct (wf_lookup _ _ _ Hwf Hc) as (Hi & HX & HY).
  pose proof Hwf as [Hn _ HcY _ _ _ _].
  assert (0 ≤ cellX c < cellsX b) by (rewrite HX; apply Z.mod_pos_bound; lia).
  assert (0 ≤ cellY c < cellsX b).
  { rewrite HY. split; [apply Z.div_pos; lia|]. apply Z.div_lt_upper_bound; lia. }
  destruct (wf_cell_at b ((cellX c + dx) mod cellsX b) ((cellY c + dy) mod cellsX b))
    as (c' & Hc' & HX' & HY'); auto; try (apply Z.mod_pos_bound; lia).
  exists c'. repeat split; auto.
  unfold get_neighbour_living, neighbour_limits.
  rewrite direction_shift_compass, Hj by done.
  rewrite HcY, !limit_of_mod by auto. by rewrite Hc'.
Qed.

(** C5. On a board of side N >= 1 the lookup from the top-left cell reads
    the bottom-left cell in direction TOP and the top-right cell in direction
    LEFT; in general the lookup from any cell in any compass direction reads
    the cell at the shifted coordinates taken modulo the side, so a step off
    the low edge lands on [dimension - 1] and a step off the high edge on 0. *)
Theorem neighbour_wraparound (b : playBoard) (topLeft : cell) :
  wf_board b → cells b !! 0%nat = Some topLeft →
  (∃ bottomLeft,
      cell_at (cells b) (0 + (cellsY b - 1) * cellsY b) = Some bottomLeft ∧
      cellX bottomLeft = 0 ∧ cellY bottomLeft = cellsY b - 1 ∧
      neighbour_limits topLeft b TOP = Some (0, cellsY b - 1) ∧
      get_neighbour_living topLeft b TOP = Some (isLiving bottomLeft)) ∧
  (∃ topRight,
      cell_at (cells b) (cellsX b - 1 + 0 * cellsY b) = Some topRight ∧
      cellX topRight = cellsX b - 1 ∧ cellY topRight = 0 ∧
      neighbour_limits topLeft b LEFT = Some (cellsX b - 1, 0) ∧
      get_neighbour_living topLeft b LEFT = Some (isLiving topRight)) ∧
  (∀ pos dim, 0 ≤ pos < dim →
      limit_of 0 dim (-1) = dim - 1 ∧ limit_of (dim - 1) dim 1 = 0 ∧
      (pos ≠ 0 → limit_of pos dim (-1) = pos - 1) ∧
      (pos ≠ dim - 1 → limit_of pos dim 1 = pos + 1)) ∧
  (∀ i c (j : nat) dx dy,
      cells b !! i = Some c → compass !! j = Some (dx, dy) →
      ∃ c', cell_at (cells b)
              ((cellX c + dx) mod cellsX b + (cellY c + dy) mod cellsX b * cellsX b)
            = Some c' ∧
            cellX c' = (cellX c + dx) mod cellsX b ∧
            cellY c' = (cellY c + dy) mod cellsX b ∧
            get_neighbour_living c b (Z.of_nat j) = Some (isLiving c')).
Proof.
  intros Hwf H0.
  destruct (wf_lookup _ _ _ Hwf H0) as (_ & HX & HY).
  pose proof Hwf as [Hn _ HcY _ _ _ _].
  change (Z.of_nat 0) with 0 in HX, HY.
  rewrite Z.mod_0_l in HX by lia. rewrite Z.div_0_l in HY by lia.
  split; [|split; [|split]].
  - destruct (wf_cell_at b 0 (cellsX b - 1)) as (c' & Hc' & HX' & HY');
      auto; try lia.
    exists c'. rewrite HcY. repeat split; auto.
    + unfold neighbour_limits. simpl. rewrite HX, HY, HcY. reflexivity.
    + unfold get_neighbour_living, neighbour_limits. simpl.
      rewrite HX, HY, HcY. unfold limit_of. simpl. by rewrite Hc'.
  - destruct (wf_cell_at b (cellsX b - 1) 0) as (c' & Hc' & HX' & HY');
      auto; try lia.
    exists c'. rewrite HcY. repeat split; auto.
    + unfold neighbour_limits. simpl. rewrite HX, HY. reflexivity.
    + unfold get_neighbour_living, neighbour_limits. simpl.
      rewrite HX, HY, HcY. unfold limit_of. simpl. by rewrite Hc'.
  - intros pos dim Hp. unfold limit_of. simpl. rewrite Z.eqb_refl.
    repeat split.
    + intros Hne. by destruct (Z.eqb_spec pos 0).
    + intros Hne. by destruct (Z.eqb_spec pos (dim - 1)).
  - intros i c j dx dy Hc Hj. by eapply get_neighbour_living_torus.
Qed.

(** The top-left cell of the blinker board: its TOP neighbour is the cell of
    line 4, its LEFT neighbour the cell of column 4. *)
Lemma neighbour_wraparound_witness :
  wf_board blinker_h ∧
  get_neighbour_living (mkCell false false 0 0) blinker_h TOP = Some false ∧
  neighbour_limits (mkCell false false 0 0) blinker_h TOP = Some (0, 4) ∧
  neighbour_limits (mkCell false false 0 0) blinker_h LEFT = Some (4, 0).
Proof.
  assert (wf_board blinker_h) as Hwf by wf_by_compute.
  split; [exact Hwf|].
  destruct (neighbour_wraparound blinker_h (mkCell false false 0 0) Hwf eq_refl)
    as ((bl & Hbl & _ & _ & Hl1 & Hg1) & (tr & _ & _ & _ & Hl2 & _) & _).
  vm_compute in Hbl. injection Hbl as <-.
  split; [exact Hg1|]. split; [exact Hl1|exact Hl2].
Defined.

(** ** One turn *)

Lemma get_neighbour_living_alive b i c (j : nat) dx dy :
  wf_board b → cells b !! i = Some c → compass !! j = Some (dx, dy) →
  get_neighbour_living c b (Z.of_nat j)
  = Some (torus_alive (cellsX b) (cells b) (cellX c + dx) (cellY c + dy)).
Proof.
  intros Hwf Hc Hj.
  destruct (get_neighbour_living_torus b i c j dx dy Hwf Hc Hj)
    as (c' & Hc' & _ & _ & ->).
  unfold torus_alive. apply cell_at_Some in Hc' as [_ ->]. done.
Qed.

Lemma count_neighbours_shifts b i c (js : list nat) (shifts : list (Z * Z)) :
  wf_board b → cells b !! i = Some c →
  Forall2 (λ j s, compass !! j = Some s) js shifts →
  count_neighbours b c (Z.of_nat <$> js)
  = Some (foldr (λ '(dx, dy) acc,
                   (if torus_alive (cellsX b) (cells b) (cellX c + dx) (cellY c + dy)
                    then 1 else 0) + acc) 0 shifts).
Proof.
  intros Hwf Hc HF. induction HF as [|j [dx dy] js shifts Hj HF IH]; [done|].
  rewrite fmap_cons. cbn [count_neighbours foldr].
  rewrite (get_neighbour_living_alive b i c j dx dy) by done.
  rewrite IH. done.
Qed.

Lemma count_neighbours_torus b i c :
  wf_board b → cells b !! i = Some c →
  count_neighbours b c (seqZ 0 8)
  = Some (living_neighbours (cellsX b) (cells b) (cellX c) (cellY c)).
Proof.
  intros Hwf Hc.
  change (seqZ 0 8) with (Z.of_nat <$> [0; 1; 2; 3; 4; 5; 6; 7]%nat).
  unfold living_neighbours.
  apply (count_neighbours_shifts b i c _ compass Hwf Hc).
  repeat constructor.
Qed.

Lemma turn_tags_wf b i c :
  wf_board b → cells b !! i = Some c →
  turn_tags b c
  = Some (tag_of (isLiving c)
            (living_neighbours (cellsX b) (cells b) (cellX c) (cellY c))).
Proof.
  intros Hwf Hc. unfold turn_tags.
  by rewrite (count_neighbours_torus b i c Hwf Hc).
Qed.

Lemma mapM_total {A B} (f : A → option B) (g : A → B) (l : list A) :
  (∀ i x, l !! i = Some x → f x = Some (g x)) → mapM f l = Some (g <$> l).
Proof.
  intros Hf. apply mapM_Some_2, Forall2_fmap_r, Forall_Forall2_diag.
  apply Forall_lookup. intros i x Hx. by apply Hf with i.
Qed.

Lemma u32_range z : 0 ≤ u32 z < 4294967296.
Proof. unfold u32. apply Z.mod_pos_bound. lia. Qed.

Lemma u32_add_idem a k : u32 (u32 a + k) = u32 (a + k).
Proof. unfold u32. apply Zplus_mod_idemp_l. Qed.

Lemma tag_of_rule alive n d bo :
  tag_of alive n = (d, bo) →
  rule alive n = (if d then false else if bo then true else alive) ∧
  xorb alive (rule alive n) = d || bo ∧
  (d = true → alive = true ∧ bo = false) ∧ (bo = true → alive = false).
Proof.
  unfold tag_of, rule. destruct alive; intros [= <- <-];
    destruct (Z.ltb_spec n 2), (Z.ltb_spec 3 n), (Z.eqb_spec n 2),
      (Z.eqb_spec n 3); try lia; simpl; auto.
Qed.

(** The commit loop run on the tags of the rule makes [rule_cell] of every
    cell and moves [livingCells] by the difference of the numbers of living
    cells. *)
Lemma applyTurn_pass2_rule (nb : cell → Z) (cs : list cell) (living : Z) (dirty : bool) :
  0 ≤ living < 4294967296 →
  applyTurn_pass2 cs ((λ c, tag_of (isLiving c) (nb c)) <$> cs) living dirty
  = ((λ c, rule_cell c (nb c)) <$> cs,
     u32 (living
          + (count_alive ((λ c, rule_cell c (nb c)) <$> cs) - count_alive cs)),
     dirty || existsb cellChanged ((λ c, rule_cell c (nb c)) <$> cs)).
Proof.
  revert living dirty.
  induction cs as [|c cs IH]; intros living dirty Hl.
  - simpl. rewrite u32_small by lia. f_equal; [f_equal; lia|].
    by rewrite orb_false_r.
  - rewrite !fmap_cons. cbn [applyTurn_pass2 count_alive existsb].
    destruct (tag_of (isLiving c) (nb c)) as [d bo] eqn:Ht.
    apply tag_of_rule in Ht as (Hr & Hx & Hd & Hb).
    unfold rule_cell at 1 3 5. cbn [isLiving cellChanged]. rewrite Hx, Hr.
    destruct d; [|destruct bo].
    + destruct Hd as [-> ->]; [done|]. rewrite IH by apply u32_range.
      rewrite u32_add_idem. f_equal; [f_equal; f_equal; lia|].
      by destruct dirty.
    + rewrite Hb by done. rewrite IH by apply u32_range.
      rewrite u32_add_idem. f_equal; [f_equal; f_equal; lia|].
      by destruct dirty.
    + rewrite IH by done. simpl. f_equal. f_equal. f_equal.
      destruct (isLiving c); lia.
Qed.

(** What one turn does to a board of the program. *)
Lemma applyTurn_wf b isInHistory :
  wf_board b →
  applyTurn b isInHistory = Some (turn_of b isInHistory).
Proof.
  intros Hwf. unfold applyTurn, applyTurn_pass1.
  rewrite (mapM_total _ _ _ (λ i c, turn_tags_wf b i c Hwf)). simpl.
  rewrite (applyTurn_pass2_rule
             (λ c, living_neighbours (cellsX b) (cells b) (cellX c) (cellY c)))
    by (destruct Hwf; unfold UINT_MAX in *; lia).
  reflexivity.
Qed.

Lemma coords_next_cell n cs0 cs : coords (next_cell n cs0 <$> cs) = coords cs.
Proof.
  unfold coords. rewrite <- list_fmap_compose. by apply list_fmap_ext.
Qed.

Lemma next_turns_range t isInHistory :
  0 ≤ t ≤ UINT_MAX → 0 ≤ next_turns t isInHistory ≤ UINT_MAX.
Proof.
  intros Ht. unfold next_turns. destruct isInHistory; [done|].
  pose proof (u32_range (t + 1)). unfold TURN_LIMIT, UINT_MAX in *.
  destruct (Z.ltb_spec 4294967295 (u32 (t + 1))); lia.
Qed.

Lemma applyTurn_preserves_wf b isInHistory b' :
  wf_board b → applyTurn b isInHistory = Some b' → wf_board b'.
Proof.
  intros Hwf. rewrite applyTurn_wf by done. intros [= <-].
  pose proof Hwf as [? ? ? ? ? ? ?].
  constructor; simpl; auto.
  - pose proof (u32_range (livingCells b
      + (count_alive (next_cell (cellsX b) (cells b) <$> cells b)
         - count_alive (cells b)))). unfold UINT_MAX. lia.
  - by apply next_turns_range.
  - by rewrite coords_next_cell.
Qed.

(** A turn keeps [livingCells] equal to the number of living cells. *)
Lemma applyTurn_livingCells b isInHistory b' :
  wf_board b → livingCells b = count_alive (cells b) →
  applyTurn b isInHistory = Some b' →
  livingCells b' = count_alive (cells b').
Proof.
  intros Hwf Hinv. rewrite applyTurn_wf by done. intros [= <-]. simpl.
  rewrite Hinv.
  replace (count_alive (cells b) +
           (count_alive (next_cell (cellsX b) (cells b) <$> cells b) -
            count_alive (cells b)))
    with (count_alive (next_cell (cellsX b) (cells b) <$> cells b)) by lia.
  apply u32_small.
  pose proof (count_alive_bounds (next_cell (cellsX b) (cells b) <$> cells b)) as Hb.
  rewrite length_fmap in Hb. rewrite (wf_length b Hwf) in Hb.
  destruct Hwf as [? ? HY HC ? ? ?]. rewrite HC, HY in Hb.
  unfold INT_MAX in *. lia.
Qed.

(** C2. One turn on a board of the program returns, and in the board it
    returns every cell is alive exactly when, with the neighbours counted in
    the board before the turn, it was alive with two or three living
    neighbours or dead with three; [cellChanged] is set exactly on the cells
    whose [isLiving] differs from before. *)
Theorem applyTurn_rule (b : playBoard) (isInHistory : bool) :
  wf_board b →
  ∃ b', applyTurn b isInHistory = Some b' ∧
        length (cells b') = length (cells b) ∧
        ∀ i c, cells b !! i = Some c →
          ∃ c', cells b' !! i = Some c' ∧
                cellX c' = cellX c ∧ cellY c' = cellY c ∧
                (let n := living_neighbours (cellsX b) (cells b) (cellX c) (cellY c) in
                 isLiving c' = true ↔
                   (isLiving c = true ∧ (n = 2 ∨ n = 3)) ∨
                   (isLiving c = false ∧ n = 3)) ∧
                (cellChanged c' = true ↔ isLiving c' ≠ isLiving c).
Proof.
  intros Hwf. eexists. split; [by apply applyTurn_wf|]. simpl.
  split; [by rewrite length_fmap|].
  intros i c Hc. exists (next_cell (cellsX b) (cells b) c).
  split; [by rewrite list_lookup_fmap, Hc|].
  unfold next_cell, rule_cell. simpl. split; [done|]. split; [done|].
  split; [|by destruct (isLiving c), (rule _ _); simpl; split; congruence].
  unfold rule. split.
  - destruct (isLiving c);
      [intros [H|H]%orb_true_iff; left | intros H; right];
      split; auto; rewrite Z.eqb_eq in H; auto.
  - intros [[Ha [H|H]]|[Ha H]]; rewrite Ha, H; auto.
Qed.

(** The horizontal blinker turns into the vertical one. *)
Lemma applyTurn_rule_witness :
  wf_board blinker_h ∧
  ∃ b', applyTurn blinker_h false = Some b' ∧ alive_map b' = alive_map blinker_v.
Proof.
  assert (wf_board blinker_h) as Hwf by wf_by_compute.
  split; [exact Hwf|].
  destruct (applyTurn_rule blinker_h false Hwf) as (b' & Hb' & _).
  exists b'. split; [exact Hb'|].
  vm_compute in Hb'. injection Hb' as <-. reflexivity.
Defined.

(** ** The turn history: recording *)

Lemma entries_cons n c cs :
  entries n (c :: cs)
  = match entry_of n c with
    | Some e => e :: entries n cs
    | None => entries n cs
    end.
Proof. reflexivity. Qed.

(** The scan appends to the arrays the entries of the cells, one for every
    changed cell and every unchanged living cell, in the order of the cells. *)
Lemma scan_cells_entries b cs t :
  0 ≤ records t < 4294967296 →
  state (scan_cells b cs t) = state t ++ (entries (cellsX b) cs).*1 ∧
  index (scan_cells b cs t) = index t ++ (entries (cellsX b) cs).*2 ∧
  records (scan_cells b cs t)
  = u32 (records t + Z.of_nat (length (entries (cellsX b) cs))).
Proof.
  revert t. induction cs as [|c cs IH]; intros t Ht.
  - simpl. rewrite !app_nil_r, Z.add_0_r, u32_small by lia. done.
  - rewrite entries_cons. destruct c as [l ch x y].
    destruct ch, l;
      cbn [scan_cells entry_of cellChanged isLiving cellX cellY];
      match goal with
      | |- context [scan_cells b cs ?t'] =>
          destruct (IH t') as (-> & -> & ->);
          [first [exact Ht | apply u32_range]|]
      end;
      cbn [records state index fmap list_fmap fst snd length];
      rewrite <- ?app_assoc, ?u32_add_idem;
      (split; [done|split; [done|f_equal; lia]]).
Qed.

Lemma entries_length_le n cs : (length (entries n cs) ≤ length cs)%nat.
Proof.
  induction cs as [|c cs IH]; [done|].
  rewrite entries_cons. destruct (entry_of n c); simpl; lia.
Qed.

Lemma record_of_entries b :
  wf_board b →
  state (record_of b) = (entries (cellsX b) (cells b)).*1 ∧
  index (record_of b) = (entries (cellsX b) (cells b)).*2 ∧
  records (record_of b) = Z.of_nat (length (entries (cellsX b) (cells b))).
Proof.
  intros Hwf. unfold record_of.
  destruct (scan_cells_entries b (cells b) (mkTurn 0 0 0 0 [] []))
    as (-> & -> & ->); [simpl; lia|].
  simpl. repeat split; try done. apply u32_small.
  pose proof (entries_length_le (cellsX b) (cells b)).
  pose proof (wf_length b Hwf). destruct Hwf as [? ? HY HC ? ? ?].
  rewrite HC, HY in *. unfold INT_MAX in *. lia.
Qed.

(** ** The turn history: replay *)

Lemma cell_write_middle pre c rest l ch :
  cell_write (pre ++ c :: rest) (Z.of_nat (length pre)) l ch
  = Some (pre ++ mkCell l ch (cellX c) (cellY c) :: rest).
Proof.
  unfold cell_write. rewrite cell_at_nat, list_lookup_middle by done. simpl.
  rewrite Nat2Z.id. f_equal.
  rewrite <- (Nat.add_0_r (length pre)) at 1. by rewrite insert_app_r.
Qed.

(** Replaying the entries of the cells [src] over cleared cells restores
    [src]; [pre] is the part of the array in front of them. *)
Lemma replay_restore n pre src :
  (∀ i c, (pre ++ src) !! i = Some c →
          u32 (cellX c + cellY c * n) = Z.of_nat i) →
  replay_entries (length (entries n src)) (entries n src).*1 (entries n src).*2
                 (pre ++ (clear_cell <$> src))
  = Some (pre ++ src).
Proof.
  revert pre. induction src as [|s src IH]; intros pre Hpos; [done|].
  assert (u32 (cellX s + cellY s * n) = Z.of_nat (length pre)) as Hs.
  { apply Hpos. by rewrite list_lookup_middle. }
  assert (∀ i c, ((pre ++ [s]) ++ src) !! i = Some c →
                 u32 (cellX c + cellY c * n) = Z.of_nat i) as Hpos'.
  { intros i c. rewrite <- app_assoc. apply Hpos. }
  specialize (IH (pre ++ [s]) Hpos'). rewrite <- !app_assoc in IH. simpl in IH.
  rewrite fmap_cons, entries_cons. unfold entry_of. rewrite Hs.
  destruct s as [l ch x y].
  destruct ch, l;
    cbn [cellChanged isLiving fmap list_fmap fst snd length replay_entries
         clear_cell cellX cellY];
    unfold replay_entry; simpl; rewrite ?cell_write_middle; simpl; apply IH.
Qed.

Lemma grid_position n (i : nat) :
  1 ≤ n → Z.of_nat i < n * n → n * n ≤ INT_MAX →
  u32 (Z.of_nat i mod n + Z.of_nat i / n * n) = Z.of_nat i.
Proof.
  intros Hn Hi Hb.
  replace (Z.of_nat i mod n + Z.of_nat i / n * n) with (Z.of_nat i)
    by (rewrite (Z.div_mod (Z.of_nat i) n) at 1; lia).
  apply u32_small. unfold INT_MAX in *. lia.
Qed.

Lemma wf_position b i c :
  wf_board b → cells b !! i = Some c →
  u32 (cellX c + cellY c * cellsX b) = Z.of_nat i.
Proof.
  intros Hwf Hc. destruct (wf_lookup b i c Hwf Hc) as (Hi & -> & ->).
  destruct Hwf. by apply grid_position.
Qed.

Lemma clear_cell_coords cs1 cs2 :
  coords cs1 = coords cs2 → clear_cell <$> cs1 = clear_cell <$> cs2.
Proof.
  intros Hc.
  assert (∀ cs, clear_cell <$> cs
                = (λ p : Z * Z, mkCell false false p.1 p.2) <$> coords cs) as Hcl.
  { intros cs. unfold coords. rewrite <- list_fmap_compose. done. }
  by rewrite !Hcl, Hc.
Qed.

(** Showing a turn recorded from the board [src] puts the cells of [src] on
    the board, whatever the board held. *)
Lemma historyDisplayTurn_record h b src :
  wf_board src → coords (cells b) = coords (cells src) →
  turn_at (H.turnData h) (H.currentTurn h) = Some (record_of src) →
  historyDisplayTurn h b = Some (true, set_cells b (cells src)).
Proof.
  intros Hsrc Hco Ht. unfold historyDisplayTurn. rewrite Ht. simpl.
  destruct (record_of_entries src Hsrc) as (-> & -> & ->).
  rewrite Nat2Z.id, (clear_cell_coords _ _ Hco).
  pose proof (replay_restore (cellsX src) [] (cells src)) as Hr.
  simpl in Hr. rewrite Hr; [done|].
  intros i c Hc. by apply wf_position.
Qed.

(** ** Recording: the guard and the size of a turn *)

Lemma addHistory_refused h b :
  turns b < H.turns h → addHistory h b = (false, h).
Proof.
  intros Hlt. unfold addHistory. by destruct (Z.ltb_spec (turns b) (H.turns h)); [|lia].
Qed.

Lemma addHistory_appended h b :
  H.turns h ≤ turns b → 0 ≤ H.turns h < TURN_LIMIT →
  addHistory h b
  = (true, H.mkGame (H.turns h + 1) (H.turns h)
                    (take (Z.to_nat (H.turns h)) (H.turnData h) ++ [record_of b])).
Proof.
  intros Hle Hr. unfold addHistory.
  destruct (Z.ltb_spec (turns b) (H.turns h)); [lia|].
  destruct (Z.eqb_spec (H.turns h) TURN_LIMIT); [lia|].
  rewrite u32_small by (unfold TURN_LIMIT, UINT_MAX in *; lia). done.
Qed.

(** C7, amended. [addHistory] returns false and leaves the history as it is
    (the board is only read) whenever the history's count of turns exceeds
    the board's turn counter. For a history whose count is below the capacity
    [TURN_LIMIT]: of two calls without a turn in between, the first succeeds
    and the second fails when the history's count equals the board's turn
    counter before the first call; when the count is lower, both calls
    succeed. *)
Theorem addHistory_guard (h : H.gameHistoryGame) (b : playBoard) :
  (turns b < H.turns h → addHistory h b = (false, h)) ∧
  (0 ≤ H.turns h < TURN_LIMIT →
   (H.turns h = turns b →
      (addHistory h b).1 = true ∧
      addHistory (addHistory h b).2 b = (false, (addHistory h b).2)) ∧
   (H.turns h < turns b →
      (addHistory h b).1 = true ∧ (addHistory (addHistory h b).2 b).1 = true)).
Proof.
  split; [apply addHistory_refused|]. intros Hr. split; intros Ht.
  - rewrite addHistory_appended by lia. simpl. split; [done|].
    apply addHistory_refused. simpl. lia.
  - rewrite addHistory_appended by lia. simpl. split; [done|].
    unfold addHistory. simpl.
    destruct (Z.ltb_spec (turns b) (H.turns h + 1)); [lia|]. done.
Qed.

Lemma addHistory_guard_witness :
  0 ≤ H.turns empty_history < TURN_LIMIT ∧
  H.turns empty_history = turns blinker_h ∧
  (addHistory empty_history blinker_h).1 = true ∧
  (addHistory (addHistory empty_history blinker_h).2 blinker_h).1 = false.
Proof.
  assert (0 ≤ H.turns empty_history < TURN_LIMIT) as Hr by (vm_compute; intuition congruence).
  split; [exact Hr|]. split; [reflexivity|].
  destruct (addHistory_guard empty_history blinker_h) as (_ & Hbelow).
  destruct (Hbelow Hr) as (Heq & _).
  destruct (Heq eq_refl) as [H1 H2]. split; [exact H1|]. by rewrite H2.
Defined.

(** C7 as stated fails: after one turn of the live game on a fresh session
    (turn counter 1, empty history) both of two calls in a row succeed. *)
Lemma addHistory_twice_counterexample :
  wf_board blinker_1 ∧ turns blinker_1 = 1 ∧
  applyTurn blinker_h false = Some blinker_1 ∧
  (addHistory empty_history blinker_1).1 = true ∧
  (addHistory (addHistory empty_history blinker_1).2 blinker_1).1 = true.
Proof.
  split; [wf_by_compute|]. repeat split; vm_compute; reflexivity.
Qed.

Lemma entry_of_Some n c st idx :
  entry_of n c = Some (st, idx) →
  idx = u32 (cellX c + cellY c * n) ∧ (cellChanged c = true ∨ isLiving c = true).
Proof.
  unfold entry_of. destruct (cellChanged c), (isLiving c); intros [= <- <-]; auto.
Qed.

(** The positions stored in a recorded turn are those of the changed cells
    and of the living cells. *)
Lemma record_index_interesting b i c :
  wf_board b → cells b !! i = Some c →
  Z.of_nat i ∈ index (record_of b) ↔ cellChanged c = true ∨ isLiving c = true.
Proof.
  intros Hwf Hc. destruct (record_of_entries b Hwf) as (_ & -> & _).
  unfold entries. rewrite list_elem_of_fmap. split.
  - intros ([st idx] & Hi & (c' & [j Hj]%list_elem_of_lookup & He)%list_elem_of_omap).
    simpl in Hi. apply entry_of_Some in He as [Hidx Hint].
    rewrite (wf_position b j c' Hwf Hj) in Hidx.
    assert (i = j) as -> by lia. by replace c with c' by congruence.
  - intros Hint.
    assert (∃ st, entry_of (cellsX b) c = Some (st, Z.of_nat i)) as [st Hst].
    { unfold entry_of. rewrite (wf_position b i c Hwf Hc).
      destruct (cellChanged c), (isLiving c); eauto. by destruct Hint. }
    exists (st, Z.of_nat i). split; [done|]. apply list_elem_of_omap.
    exists c. split; [by apply list_elem_of_lookup_2 with i|done].
Qed.

Lemma entries_bound n (f : cell → cell) cs :
  (∀ c, cellChanged (f c) = xorb (isLiving c) (isLiving (f c))) →
  Z.of_nat (length (entries n (f <$> cs)))
  ≤ count_alive cs + count_alive (f <$> cs).
Proof.
  intros Hf. induction cs as [|c cs IH]; [done|].
  rewrite fmap_cons, entries_cons. unfold entry_of. rewrite Hf.
  cbn [count_alive].
  destruct (isLiving c), (isLiving (f c)); simpl; lia.
Qed.

(** X22. The turn [addHistory] appends for the board a turn has made holds
    exactly the entries of the changed cells and of the unchanged living
    cells (the positions it stores are those of the changed and of the living
    cells), and their number is at most the number of living cells before the
    turn plus the number after it; with [livingCells] in step with the cells
    before the turn, at most [livingCells] before plus [livingCells] after. *)
Theorem record_size_bound (h h' : H.gameHistoryGame) (b b' : playBoard)
    (isInHistory : bool) :
  wf_board b → applyTurn b isInHistory = Some b' → addHistory h b' = (true, h') →
  ∃ t, last (H.turnData h') = Some t ∧
       state t = (entries (cellsX b') (cells b')).*1 ∧
       index t = (entries (cellsX b') (cells b')).*2 ∧
       records t = Z.of_nat (length (state t)) ∧
       records t = Z.of_nat (length (index t)) ∧
       (∀ i c, cells b' !! i = Some c →
          Z.of_nat i ∈ index t ↔ cellChanged c = true ∨ isLiving c = true) ∧
       records t ≤ count_alive (cells b) + count_alive (cells b') ∧
       (livingCells b = count_alive (cells b) →
        records t ≤ livingCells b + livingCells b').
Proof.
  intros Hwf Hturn Hadd.
  pose proof (applyTurn_preserves_wf _ _ _ Hwf Hturn) as Hwf'.
  exists (record_of b'). split.
  - unfold addHistory in Hadd.
    destruct (turns b' <? H.turns h); [discriminate|].
    injection Hadd as <-. simpl. apply last_snoc.
  - destruct (record_of_entries b' Hwf') as (Hst & Hix & Hrec).
    assert (records (record_of b')
            ≤ count_alive (cells b) + count_alive (cells b')) as Hbound.
    { rewrite Hrec. rewrite applyTurn_wf in Hturn by done. injection Hturn as <-.
      apply entries_bound. intros c. reflexivity. }
    split_and!; try done.
    + by rewrite Hrec, Hst, length_fmap.
    + by rewrite Hrec, Hix, length_fmap.
    + intros i c Hc. by apply record_index_interesting.
    + intros Hinv.
      by rewrite (applyTurn_livingCells b isInHistory b' Hwf Hinv Hturn), Hinv.
Qed.

Lemma record_size_bound_witness :
  wf_board blinker_h ∧ applyTurn blinker_h false = Some blinker_1 ∧
  ∃ h', addHistory empty_history blinker_1 = (true, h') ∧
        ∃ t, last (H.turnData h') = Some t ∧ records t = 5 ∧
             livingCells blinker_h + livingCells blinker_1 = 6.
Proof.
  assert (wf_board blinker_h) as Hwf by wf_by_compute.
  assert (applyTurn blinker_h false = Some blinker_1) as Hturn
    by (vm_compute; reflexivity).
  split; [exact Hwf|]. split; [exact Hturn|].
  eexists. split; [vm_compute; reflexivity|].
  destruct (record_size_bound empty_history _ blinker_h blinker_1 false Hwf Hturn
              eq_refl) as (t & Hlast & _).
  exists t. split; [exact Hlast|].
  vm_compute in Hlast. injection Hlast as <-. split; reflexivity.
Defined.

(** ** The live sequence *)

Lemma turn_of_wf b isInHistory : wf_board b → wf_board (turn_of b isInHistory).
Proof.
  intros Hwf. apply (applyTurn_preserves_wf b isInHistory); [done|].
  by apply applyTurn_wf.
Qed.

Lemma turn_of_coords b isInHistory :
  coords (cells (turn_of b isInHistory)) = coords (cells b).
Proof. apply coords_next_cell. Qed.

Lemma turn_of_turns b :
  0 ≤ turns b → turns b + 1 ≤ UINT_MAX → turns (turn_of b false) = turns b + 1.
Proof.
  intros H0 Hb. simpl. unfold next_turns, TURN_LIMIT, UINT_MAX in *.
  rewrite u32_small by lia. by destruct (Z.ltb_spec 4294967295 (turns b + 1)); [lia|].
Qed.

Lemma live_board_wf n b : wf_board b → wf_board (live_board n b).
Proof.
  revert b. induction n as [|n IH]; intros b Hwf; [done|].
  simpl. by apply IH, turn_of_wf.
Qed.

Lemma live_board_coords n b : coords (cells (live_board n b)) = coords (cells b).
Proof.
  revert b. induction n as [|n IH]; intros b; [done|].
  simpl. by rewrite IH, turn_of_coords.
Qed.

Lemma live_board_turns n b :
  0 ≤ turns b → turns b + Z.of_nat n ≤ UINT_MAX →
  turns (live_board n b) = turns b + Z.of_nat n.
Proof.
  revert b. induction n as [|n IH]; intros b H0 Hb; [simpl; lia|].
  cbn [live_board]. rewrite IH; rewrite turn_of_turns; lia.
Qed.

Lemma live_total n b : wf_board b → live n b = Some (live_board n b).
Proof.
  revert b. induction n as [|n IH]; intros b Hwf; [done|].
  simpl. rewrite applyTurn_wf by done. simpl. by apply IH, turn_of_wf.
Qed.

(** ** Recording the live sequence *)

Lemma step_and_record_appends h b bs :
  wf_board b → recorded h bs →
  Z.of_nat (length bs) ≤ turns b → turns b + 1 ≤ UINT_MAX →
  ∃ h', step_and_record h b = Some (true, h', turn_of b false) ∧
        recorded h' (bs ++ [turn_of b false]) ∧
        H.currentTurn h' = Z.of_nat (length bs).
Proof.
  intros Hwf [Hn Hd] Hle Hb. unfold step_and_record.
  rewrite applyTurn_wf by done. cbn [mbind option_bind].
  pose proof (wf_turns b Hwf) as Ht.
  rewrite addHistory_appended;
    [|rewrite turn_of_turns; lia | unfold TURN_LIMIT; lia].
  eexists. split; [reflexivity|]. unfold recorded. simpl.
  rewrite Hn, Hd, Nat2Z.id, length_app, fmap_app. simpl.
  rewrite take_ge by (rewrite length_fmap; lia).
  repeat split; try done. lia.
Qed.

Lemma record_turns_live n : ∀ h b bs,
  wf_board b → recorded h bs →
  Z.of_nat (length bs) ≤ turns b → turns b + Z.of_nat n ≤ UINT_MAX →
  ∃ h', record_turns n h b = Some (true, h', live_board n b) ∧
        recorded h' (bs ++ ((λ i, live_board i b) <$> seq 1 n)) ∧
        (n ≠ 0%nat → H.currentTurn h' = Z.of_nat (length bs + n - 1)).
Proof.
  induction n as [|n IH]; intros h b bs Hwf Hrec Hle Hb.
  - exists h. simpl. rewrite app_nil_r. done.
  - pose proof (wf_turns b Hwf) as Ht.
    destruct (step_and_record_appends h b bs Hwf Hrec Hle) as (h1 & Hs & Hrec1 & Hc1);
      [lia|].
    destruct (IH h1 (turn_of b false) (bs ++ [turn_of b false]))
      as (h' & Hr & Hrec' & Hc'); auto using turn_of_wf.
    { rewrite length_app, turn_of_turns; simpl; lia. }
    { rewrite turn_of_turns; lia. }
    exists h'. cbn [record_turns]. rewrite Hs. cbn [mbind option_bind].
    rewrite Hr. cbn [mbind option_bind]. split; [done|]. split.
    + cbn [seq fmap list_fmap]. rewrite <- fmap_S_seq, <- list_fmap_compose.
      rewrite <- app_assoc in Hrec'. exact Hrec'.
    + intros _. destruct n as [|n].
      * simpl in Hr. injection Hr as <-. rewrite Hc1. f_equal. lia.
      * rewrite Hc' by done. rewrite length_app. simpl. f_equal. lia.
Qed.

(** ** Navigation *)

Lemma nav_turn_at n b0 c h b :
  nav_inv n b0 c h b → ∀ j, (j < n)%nat →
  turn_at (H.turnData h) (Z.of_nat j) = Some (record_of (live_board (S j) b0)).
Proof.
  intros [[_ Hd] _ _ _ _ _] j Hj. unfold turn_at.
  destruct (Z.leb_spec 0 (Z.of_nat j)); [|lia].
  rewrite Nat2Z.id, Hd, !list_lookup_fmap, lookup_seq_lt by done. done.
Qed.

Lemma nav_count n b0 c h b : nav_inv n b0 c h b → H.turns h = Z.of_nat n.
Proof. intros [[Ht _] _ _ _ _ _]. by rewrite Ht, length_fmap, length_seq. Qed.

Lemma nav_show n b0 c h b j :
  wf_board b0 → nav_inv n b0 c h b → (j < n)%nat →
  historyDisplayTurn (set_currentTurn h (Z.of_nat j)) b
  = Some (true, set_cells b (cells (live_board (S j) b0))) ∧
  nav_inv n b0 j (set_currentTurn h (Z.of_nat j))
          (set_cells b (cells (live_board (S j) b0))).
Proof.
  intros Hwf Hnav Hj. split.
  - apply historyDisplayTurn_record.
    + by apply live_board_wf.
    + rewrite live_board_coords. apply Hnav.
    + apply (nav_turn_at n b0 c h b Hnav j Hj).
  - destruct Hnav as [Hrec Hcur Hr Ht Hco Hsh].
    constructor; auto.
    unfold set_cells. cbn [cells]. apply (live_board_coords (S j)).
Qed.

Lemma historyBackwards_nav n b0 c h b :
  wf_board b0 → Z.of_nat n ≤ UINT_MAX → nav_inv n b0 c h b →
  ∃ r h' b', historyBackwards h b = Some (r, h', b') ∧
             nav_inv n b0 (c - 1) h' b'.
Proof.
  intros Hwf Hn Hnav. pose proof Hnav as [_ Hcur Hr _ _ _].
  pose proof (nav_count _ _ _ _ _ Hnav) as Ht.
  unfold historyBackwards. rewrite Hcur, Ht.
  destruct c as [|c].
  - simpl. exists false, h, b. done.
  - destruct (Z.eqb_spec (Z.of_nat (S c)) 0); [lia|].
    destruct (Z.eqb_spec (Z.of_nat n) 0); [lia|]. cbn [orb].
    replace (u32 (Z.of_nat (S c) - 1)) with (Z.of_nat c)
      by (rewrite u32_small; unfold UINT_MAX in *; lia).
    destruct (nav_show n b0 (S c) h b c Hwf Hnav) as [-> Hnav']; [lia|].
    cbn [mbind option_bind]. do 3 eexists. split; [reflexivity|].
    replace (S c - 1)%nat with c by lia. exact Hnav'.
Qed.

Lemma historyForwards_nav n b0 c h b :
  wf_board b0 → turns b0 + Z.of_nat n ≤ UINT_MAX → nav_inv n b0 c h b →
  ∃ r h' b', historyForwards h b = Some (r, h', b') ∧
             nav_inv n b0 (Nat.min (n - 1) (c + 1)) h' b'.
Proof.
  intros Hwf Hn Hnav. pose proof Hnav as [_ Hcur Hr Htb _ _].
  pose proof (nav_count _ _ _ _ _ Hnav) as Ht.
  pose proof (wf_turns b0 Hwf) as H0.
  unfold historyForwards. rewrite Hcur, Ht, Htb.
  destruct (Z.eqb_spec (Z.of_nat c) (turns b0 + Z.of_nat n)); [lia|].
  destruct (Z.eqb_spec (Z.of_nat n) 0); [lia|]. cbn [orb].
  rewrite (u32_small (Z.of_nat n - 1)) by (unfold UINT_MAX in *; lia).
  destruct (Z.eqb_spec (Z.of_nat c) (Z.of_nat n - 1)) as [Hlast|Hnot].
  - exists false, h, b. split; [done|].
    replace (Nat.min (n - 1) (c + 1)) with c by lia. exact Hnav.
  - replace (u32 (Z.of_nat c + 1)) with (Z.of_nat (S c))
      by (rewrite u32_small; unfold UINT_MAX in *; lia).
    destruct (nav_show n b0 c h b (S c) Hwf Hnav) as [-> Hnav']; [lia|].
    cbn [mbind option_bind]. do 3 eexists. split; [reflexivity|].
    replace (Nat.min (n - 1) (c + 1)) with (S c) by lia. exact Hnav'.
Qed.

Lemma navigate_backwards n b0 k : ∀ c h b,
  wf_board b0 → Z.of_nat n ≤ UINT_MAX → nav_inv n b0 c h b →
  ∃ h' b', navigate historyBackwards k h b = Some (h', b') ∧
           nav_inv n b0 (c - k) h' b'.
Proof.
  induction k as [|k IH]; intros c h b Hwf Hn Hnav.
  - exists h, b. replace (c - 0)%nat with c by lia. done.
  - destruct (historyBackwards_nav n b0 c h b Hwf Hn Hnav) as (r & h1 & b1 & Hb & Hnav1).
    destruct (IH _ h1 b1 Hwf Hn Hnav1) as (h' & b' & Hk & Hnav').
    exists h', b'. cbn [navigate]. rewrite Hb. cbn [mbind option_bind].
    split; [exact Hk|]. replace (c - S k)%nat with (c - 1 - k)%nat by lia.
    exact Hnav'.
Qed.

Lemma navigate_forwards n b0 j : ∀ c h b,
  wf_board b0 → turns b0 + Z.of_nat n ≤ UINT_MAX → nav_inv n b0 c h b →
  ∃ h' b', navigate historyForwards j h b = Some (h', b') ∧
           nav_inv n b0 (Nat.min (n - 1) (c + j)) h' b'.
Proof.
  induction j as [|j IH]; intros c h b Hwf Hn Hnav.
  - exists h, b. pose proof (nav_range _ _ _ _ _ Hnav).
    replace (Nat.min (n - 1) (c + 0)) with c by lia. done.
  - destruct (historyForwards_nav n b0 c h b Hwf Hn Hnav) as (r & h1 & b1 & Hb & Hnav1).
    destruct (IH _ h1 b1 Hwf Hn Hnav1) as (h' & b' & Hk & Hnav').
    exists h', b'. cbn [navigate]. rewrite Hb. cbn [mbind option_bind].
    split; [exact Hk|].
    replace (Nat.min (n - 1) (c + S j))
      with (Nat.min (n - 1) (Nat.min (n - 1) (c + 1) + j)) by lia.
    exact Hnav'.
Qed.

(** With nothing recorded every navigation call fails and changes nothing. *)
Lemma historyBackwards_empty b :
  historyBackwards empty_history b = Some (false, empty_history, b).
Proof. reflexivity. Qed.

Lemma historyForwards_empty b :
  historyForwards empty_history b = Some (false, empty_history, b).
Proof.
  unfold historyForwards. change (H.turns empty_history =? 0) with true.
  by rewrite orb_true_r.
Qed.

Lemma navigate_empty k b :
  navigate historyBackwards k empty_history b = Some (empty_history, b) ∧
  navigate historyForwards k empty_history b = Some (empty_history, b).
Proof.
  induction k as [|k [IHb IHf]]; [done|]. split; cbn [navigate].
  - rewrite historyBackwards_empty. exact IHb.
  - rewrite historyForwards_empty. exact IHf.
Qed.

Lemma nav_alive n b0 c h b :
  nav_inv n b0 c h b → alive_map b = alive_map (live_board (S c) b0).
Proof. intros Hnav. unfold alive_map. by rewrite (nav_shown _ _ _ _ _ Hnav). Qed.

(** C6. After N turns of the live game, each recorded by [addHistory], the
    recordings have all succeeded; N calls of [historyBackwards] followed by
    N calls of [historyForwards] all return, after each of them the board
    holds, cell for cell, the [isLiving] values the live game had at the turn
    shown, and in the end those of the board the live game ended on. *)
Theorem history_round_trip (N : nat) (b0 : playBoard) :
  wf_board b0 → turns b0 + Z.of_nat N ≤ UINT_MAX →
  ∃ h b,
    record_turns N empty_history b0 = Some (true, h, b) ∧ live N b0 = Some b ∧
    (∀ k, (k ≤ N)%nat →
       ∃ hk bk lb, navigate historyBackwards k h b = Some (hk, bk) ∧
                   live (shown_backwards N k) b0 = Some lb ∧
                   alive_map bk = alive_map lb) ∧
    ∃ h1 b1,
      navigate historyBackwards N h b = Some (h1, b1) ∧
      (∀ j, (j ≤ N)%nat →
         ∃ hj bj lb, navigate historyForwards j h1 b1 = Some (hj, bj) ∧
                     live (shown_forwards N j) b0 = Some lb ∧
                     alive_map bj = alive_map lb) ∧
      ∃ h2 b2,
        navigate historyForwards N h1 b1 = Some (h2, b2) ∧
        alive_map b2 = alive_map b.
Proof.
  intros Hwf Hb. pose proof (wf_turns b0 Hwf) as Ht0.
  destruct N as [|m].
  - exists empty_history, b0. split; [done|]. split; [done|].
    split; [|exists empty_history, b0; split; [done|split]].
    + intros k _. exists empty_history, b0, b0.
      by rewrite (proj1 (navigate_empty k b0)).
    + intros j _. exists empty_history, b0, b0.
      rewrite (proj2 (navigate_empty j b0)).
      replace (shown_forwards 0 j) with 0%nat by (unfold shown_forwards; lia).
      done.
    + by exists empty_history, b0.
  - destruct (record_turns_live (S m) empty_history b0 []) as (h & Hr & Hrec & Hcur);
      auto; [done|simpl; lia|].
    assert (nav_inv (S m) b0 m h (live_board (S m) b0)) as Hnav.
    { constructor; auto.
      - rewrite Hcur by lia. f_equal. simpl. lia.
      - apply live_board_turns; lia.
      - apply live_board_coords. }
    assert (Z.of_nat (S m) ≤ UINT_MAX) as Hn by lia.
    exists h, (live_board (S m) b0). split; [exact Hr|].
    split; [by apply live_total|]. split.
    + intros k Hk.
      destruct (navigate_backwards (S m) b0 k m h _ Hwf Hn Hnav) as (hk & bk & Hnk & Hik).
      exists hk, bk, (live_board (shown_backwards (S m) k) b0).
      split; [exact Hnk|]. split; [by apply live_total|].
      rewrite (nav_alive _ _ _ _ _ Hik). do 2 f_equal.
      unfold shown_backwards. lia.
    + destruct (navigate_backwards (S m) b0 (S m) m h _ Hwf Hn Hnav)
        as (h1 & b1 & Hn1 & Hi1).
      replace (m - S m)%nat with 0%nat in Hi1 by lia.
      exists h1, b1. split; [exact Hn1|]. split.
      * intros j Hj.
        destruct (navigate_forwards (S m) b0 j 0 h1 b1 Hwf Hb Hi1) as (hj & bj & Hnj & Hij).
        exists hj, bj, (live_board (shown_forwards (S m) j) b0).
        split; [exact Hnj|]. split; [by apply live_total|].
        rewrite (nav_alive _ _ _ _ _ Hij). do 2 f_equal.
        unfold shown_forwards. lia.
      * destruct (navigate_forwards (S m) b0 (S m) 0 h1 b1 Hwf Hb Hi1)
          as (h2 & b2 & Hn2 & Hi2).
        exists h2, b2. split; [exact Hn2|].
        rewrite (nav_alive _ _ _ _ _ Hi2). do 2 f_equal. lia.
Qed.

(** Two recorded turns of the blinker, two steps back and two forward. *)
Lemma history_round_trip_witness :
  wf_board blinker_h ∧ turns blinker_h + Z.of_nat 2 ≤ UINT_MAX ∧
  ∃ h b h1 b1 h2 b2,
    record_turns 2 empty_history blinker_h = Some (true, h, b) ∧
    navigate historyBackwards 2 h b = Some (h1, b1) ∧
    navigate historyForwards 2 h1 b1 = Some (h2, b2) ∧
    alive_map b1 = alive_map blinker_v ∧
    alive_map b2 = alive_map blinker_h ∧ alive_map b2 = alive_map b.
Proof.
  assert (wf_board blinker_h) as Hwf by wf_by_compute.
  assert (turns blinker_h + Z.of_nat 2 ≤ UINT_MAX) as Hb by (vm_compute; congruence).
  split; [exact Hwf|]. split; [exact Hb|].
  destruct (history_round_trip 2 blinker_h Hwf Hb)
    as (h & b & Hr & _ & _ & h1 & b1 & Hn1 & _ & h2 & b2 & Hn2 & Ha).
  exists h, b, h1, b1, h2, b2.
  split; [exact Hr|]. split; [exact Hn1|]. split; [exact Hn2|].
  vm_compute in Hr. injection Hr as <- <-.
  vm_compute in Hn1. injection Hn1 as <- <-.
  vm_compute in Hn2. injection Hn2 as <- <-.
  repeat split; vm_compute; reflexivity.
Defined.

(** ** Writes into the cell array *)

Lemma cell_write_Some cs i l ch c :
  cell_at cs i = Some c →
  cell_write cs i l ch = Some (<[Z.to_nat i := mkCell l ch (cellX c) (cellY c)]> cs).
Proof. intros Hc. unfold cell_write. by rewrite Hc. Qed.

Lemma coords_insert cs (i : nat) c l ch :
  cs !! i = Some c →
  coords (<[i := mkCell l ch (cellX c) (cellY c)]> cs) = coords cs.
Proof.
  intros Hc. unfold coords. rewrite list_fmap_insert. simpl.
  apply list_insert_id. by rewrite list_lookup_fmap, Hc.
Qed.

Lemma count_alive_insert cs (i : nat) c ch x y :
  cs !! i = Some c → isLiving c = false →
  count_alive (<[i := mkCell true ch x y]> cs) = count_alive cs + 1.
Proof.
  revert i. induction cs as [|c' cs IH]; intros i Hc Hd; [done|].
  destruct i as [|i]; simpl in *.
  - injection Hc as ->. rewrite Hd. lia.
  - rewrite (IH i) by done. lia.
Qed.

Lemma resetPlayboard_wf b : wf_board b → wf_board (resetPlayboard b).
Proof.
  intros [? ? ? ? ? ? Hco]. constructor; simpl; auto; try (unfold UINT_MAX; lia).
  rewrite <- Hco. unfold coords. rewrite <- list_fmap_compose. done.
Qed.

Lemma count_alive_clear cs : count_alive (clear_cell <$> cs) = 0.
Proof. induction cs as [|c cs IH]; [done|]. rewrite fmap_cons. simpl. by rewrite IH. Qed.

(** [resetPlayboard] leaves no living cell and sets [livingCells] to 0. *)
Lemma resetPlayboard_livingCells b :
  livingCells (resetPlayboard b) = count_alive (cells (resetPlayboard b)) ∧
  livingCells (resetPlayboard b) = 0.
Proof. simpl. by rewrite count_alive_clear. Qed.

Lemma resetPlayboard_dead b i c :
  cells (resetPlayboard b) !! i = Some c → isLiving c = false.
Proof.
  simpl. rewrite list_lookup_fmap. destruct (cells b !! i); [|done].
  by intros [= <-].
Qed.

(** ** Random seeding *)

(** One successful draw: the board with the cell at [i] born. *)
Lemma seed_write_wf b (i : nat) c :
  wf_board b → cells b !! i = Some c →
  livingCells b + 1 ≤ UINT_MAX →
  wf_board (set_livingCells
              (set_cells b (<[i := mkCell true true (cellX c) (cellY c)]> (cells b)))
              (u32 (livingCells b + 1))).
Proof.
  intros [? ? ? ? ? ? Hco] Hc Hl. constructor; simpl; auto.
  - rewrite u32_small; unfold UINT_MAX in *; lia.
  - by rewrite coords_insert.
Qed.

Lemma seed_index_range b r :
  wf_board b → 2 ≤ cellsX b →
  u32 (cellCount b - 1) = cellCount b - 1 ∧
  0 ≤ r mod (cellCount b - 1) < cellCount b - 1.
Proof.
  intros [? ? HY HC ? ? ?] H2. rewrite HC, HY.
  assert (4 ≤ cellsX b * cellsX b) by nia.
  split; [apply u32_small; unfold INT_MAX in *; lia|].
  apply Z.mod_pos_bound. lia.
Qed.

(** The loop invariant of the seeding, as a statement on its result: with
    [livingCells] in step with the cells and the last cell dead before the
    loop, a run that returns has brought exactly [m] more cells alive, keeps
    [livingCells] in step and leaves the last cell dead; no run makes an
    undefined access. *)
Lemma seed_loop_spec draws : ∀ b m,
  wf_board b → 2 ≤ cellsX b → 0 ≤ m ≤ UINT_MAX →
  livingCells b = count_alive (cells b) →
  (∃ c, cell_at (cells b) (cellCount b - 1) = Some c ∧ isLiving c = false) →
  match seed_loop draws b m with
  | Returned b' =>
      wf_board b' ∧ cellsX b' = cellsX b ∧ cellCount b' = cellCount b ∧
      count_alive (cells b') = count_alive (cells b) + m ∧
      livingCells b' = count_alive (cells b') ∧
      (∃ c, cell_at (cells b') (cellCount b' - 1) = Some c ∧ isLiving c = false)
  | Running => True
  | Undefined => False
  end.
Proof.
  induction draws as [|r draws IH]; intros b m Hwf H2 Hm Hinv Hlast; simpl.
  - destruct (Z.ltb_spec 0 m); [done|]. split_and!; auto. lia.
  - destruct (Z.ltb_spec 0 m); [|split_and!; auto; lia].
    destruct (seed_index_range b r Hwf H2) as [Hu Hr]. rewrite Hu.
    destruct (Z.eqb_spec (cellCount b - 1) 0); [lia|].
    pose proof (wf_length b Hwf) as Hlen.
    destruct (cells b !! Z.to_nat (r mod (cellCount b - 1))) as [c|] eqn:Hc;
      [|apply lookup_ge_None in Hc; lia].
    assert (cell_at (cells b) (r mod (cellCount b - 1)) = Some c) as Hat
      by (apply cell_at_Some; split; [lia|done]).
    rewrite Hat.
    destruct (isLiving c) eqn:Hliv; [by apply IH|].
    rewrite (cell_write_Some _ _ _ _ c Hat).
    pose proof (count_alive_bounds (cells b)) as Hcb.
    assert (livingCells b + 1 ≤ UINT_MAX) as Hl1.
    { destruct Hwf as [? ? HY HC ? ? ?]. rewrite HC, HY in Hlen.
      unfold INT_MAX, UINT_MAX in *. lia. }
    rewrite (u32_small (m - 1)) by (unfold UINT_MAX in *; lia).
    set (cs1 := <[Z.to_nat (r mod (cellCount b - 1)) :=
                   mkCell true true (cellX c) (cellY c)]> (cells b)).
    set (b1 := set_livingCells (set_cells b cs1) (u32 (livingCells b + 1))).
    assert (count_alive cs1 = count_alive (cells b) + 1) as Hcount
      by (by apply (count_alive_insert _ _ c)).
    specialize (IH b1 (m - 1)).
    destruct (seed_loop draws b1 (m - 1)) as [b'| |]; [|done|].
    + destruct IH as (Hwf' & HX & HC & Hca & Hli & Hla).
      * by apply seed_write_wf.
      * done.
      * lia.
      * simpl. rewrite u32_small by (unfold UINT_MAX in *; lia). lia.
      * destruct Hlast as (c0 & Hc0 & Hd0). exists c0. split; [|done].
        apply cell_at_Some in Hc0 as [H0 Hc0]. apply cell_at_Some.
        split; [done|]. simpl. unfold cs1.
        rewrite list_lookup_insert_ne by lia. done.
      * split_and!; auto. simpl in Hca. lia.
    + apply IH.
      * by apply seed_write_wf.
      * done.
      * lia.
      * simpl. rewrite u32_small by (unfold UINT_MAX in *; lia). lia.
      * destruct Hlast as (c0 & Hc0 & Hd0). exists c0. split; [|done].
        apply cell_at_Some in Hc0 as [H0 Hc0]. apply cell_at_Some.
        split; [done|]. simpl. unfold cs1.
        rewrite list_lookup_insert_ne by lia. done.
Qed.

(** Draws that end the loop: the positions [j], [j + 1], ... in a board
    whose cells from [j] on are dead. *)
Lemma seed_loop_returns (m : nat) : ∀ j b,
  wf_board b → 2 ≤ cellsX b → 0 ≤ j → j + Z.of_nat m ≤ cellCount b - 1 →
  (∀ (i : nat) c, j ≤ Z.of_nat i → cells b !! i = Some c → isLiving c = false) →
  livingCells b = count_alive (cells b) →
  ∃ b', seed_loop (seqZ j (Z.of_nat m)) b (Z.of_nat m) = Returned b'.
Proof.
  induction m as [|m IH]; intros j b Hwf H2 Hj Hjm Hdead Hinv.
  - exists b. reflexivity.
  - rewrite seqZ_cons by lia. cbn [seed_loop].
    destruct (Z.ltb_spec 0 (Z.of_nat (S m))); [|lia].
    destruct (seed_index_range b j Hwf H2) as [Hu _]. rewrite Hu.
    destruct (Z.eqb_spec (cellCount b - 1) 0); [lia|].
    rewrite Z.mod_small by lia.
    pose proof (wf_length b Hwf) as Hlen.
    destruct (cells b !! Z.to_nat j) as [c|] eqn:Hc;
      [|apply lookup_ge_None in Hc; lia].
    assert (cell_at (cells b) j = Some c) as Hat
      by (apply cell_at_Some; split; [lia|done]).
    rewrite Hat, (Hdead (Z.to_nat j) c) by (done || lia).
    rewrite (cell_write_Some _ _ _ _ c Hat).
    replace (u32 (Z.of_nat (S m) - 1)) with (Z.of_nat m)
      by (rewrite u32_small; [lia|]; destruct Hwf as [? ? HY HC ? ? ?];
          rewrite HC, HY in *; unfold INT_MAX in *; lia).
    replace (Z.pred (Z.of_nat (S m))) with (Z.of_nat m) by lia.
    pose proof (count_alive_bounds (cells b)) as Hcb.
    assert (livingCells b + 1 ≤ UINT_MAX) as Hl1.
    { destruct Hwf as [? ? HY HC ? ? ?]. rewrite HC, HY in Hlen.
      unfold INT_MAX, UINT_MAX in *. lia. }
    apply (IH (Z.succ j)).
    + by apply seed_write_wf.
    + done.
    + lia.
    + simpl. lia.
    + intros i c' Hi. simpl. rewrite list_lookup_insert_ne by lia.
      apply Hdead. lia.
    + simpl. rewrite u32_small by (unfold UINT_MAX in *; lia).
      rewrite (count_alive_insert _ _ c); [lia|done|].
      apply (Hdead (Z.to_nat j)); [lia|done].
Qed.

Lemma wf_last_cell b :
  wf_board b → ∃ c, cell_at (cells b) (cellCount b - 1) = Some c.
Proof.
  intros Hwf. pose proof (wf_length b Hwf) as Hlen.
  pose proof Hwf as [? ? HY HC ? ? ?].
  assert (1 ≤ cellCount b) by (rewrite HC, HY; nia).
  destruct (cells b !! Z.to_nat (cellCount b - 1)) as [c|] eqn:Hc;
    [|apply lookup_ge_None in Hc; lia].
  exists c. apply cell_at_Some. split; [lia|done].
Qed.

Lemma resetPlayboard_last_dead b :
  wf_board b →
  ∃ c, cell_at (cells (resetPlayboard b)) (cellCount (resetPlayboard b) - 1) = Some c
       ∧ isLiving c = false.
Proof.
  intros Hwf. destruct (wf_last_cell _ (resetPlayboard_wf b Hwf)) as [c Hc].
  exists c. split; [done|]. apply cell_at_Some in Hc as [_ Hc].
  by apply (resetPlayboard_dead b _ c Hc).
Qed.


(** ** The seeding with the scaling of the option *)







(** ** Image ingestion: the checks *)

(** The two messages of the checks: the first fits the buffer, the second,
    of 73 characters, runs over it into the two members behind it. *)
Lemma set_options_message_bits o :
  set_options_message o "Only 32 bit png images are supported."
  = Some (mkOptions true 50 "Only 32 bit png images are supported."
                    (maximumFitCellsForRandom o) (colorThreshold o)).
Proof. reflexivity. Qed.

Lemma set_options_message_size o :
  set_options_message o
    "Image pixel size should be bigger then x and y count of the conway cells."
  = Some (mkOptions true 50
            "Image pixel size should be bigger then x and y count of the conway cells."
            1663072609 1936485477).
Proof. reflexivity. Qed.

(** An image that fails a check is refused before the board is touched. *)
Lemma generateCellMapFromImage_refused img b o :
  wf_board b → 0 ≤ w img ≤ INT_MAX → 0 ≤ h img ≤ INT_MAX →
  BitsPerPixel (format img) < 32 ∨ w img / cellsX b < 1 ∨ h img / cellsY b < 1 →
  ∃ o', generateCellMapFromImage img b o = Returned (false, b, o') ∧
        hasMessage o' = true ∧ messageTicks o' = 50 ∧
        (BitsPerPixel (format img) < 32 →
         message o' = "Only 32 bit png images are supported."%string ∧
         maximumFitCellsForRandom o' = maximumFitCellsForRandom o ∧
         colorThreshold o' = colorThreshold o) ∧
        (32 ≤ BitsPerPixel (format img) →
         message o'
         = "Image pixel size should be bigger then x and y count of the conway cells."%string ∧
         maximumFitCellsForRandom o' = 1663072609 ∧
         colorThreshold o' = 1936485477).
Proof.
  intros Hwf Hw Hh Hbad. unfold generateCellMapFromImage.
  destruct (Z.ltb_spec (BitsPerPixel (format img)) 32) as [Hb|Hb].
  { rewrite set_options_message_bits. eexists. split; [reflexivity|].
    split_and!; try done. lia. }
  destruct Hbad as [?|Hbad]; [lia|].
  pose proof Hwf as [Hn _ HY _ _ _ _].
  destruct (Z.leb_spec (cellsX b) 0); [lia|].
  destruct (Z.leb_spec (cellsY b) 0); [lia|]. cbn [orb].
  rewrite (u32_small (w img)), (u32_small (h img)) by (unfold INT_MAX in *; lia).
  assert (0 ≤ w img / cellsX b ≤ w img).
  { split; [apply Z.div_pos; lia|]. apply Z.div_le_upper_bound; nia. }
  assert (0 ≤ h img / cellsY b ≤ h img).
  { split; [apply Z.div_pos; lia|]. apply Z.div_le_upper_bound; nia. }
  rewrite (u32_small (w img / cellsX b)), (u32_small (h img / cellsY b))
    by (unfold INT_MAX in *; lia).
  assert ((w img / cellsX b <? 1) || (h img / cellsY b <? 1) = true) as ->.
  { apply orb_true_iff. rewrite !Z.ltb_lt. tauto. }
  rewrite set_options_message_size. eexists. split; [reflexivity|].
  split_and!; try done. lia.
Qed.

(** C8. When the image declares fewer than 32 bits per pixel, or has fewer
    pixel columns than the board has cell columns, or fewer pixel lines than
    cell lines (a floored ratio below 1), [generateCellMapFromImage] returns
    false with the message of the check set, and the board is the board of
    before the call: cells, [livingCells] and [turns] included. The message
    of the first check leaves the other options as they were; the message of
    the second, longer than its buffer, leaves its last bytes in
    [maximumFitCellsForRandom] and [colorThreshold]. *)
Theorem generateCellMapFromImage_rejects (img : SDL_Surface) (b : playBoard)
    (o : options) :
  wf_board b → 0 ≤ w img ≤ INT_MAX → 0 ≤ h img ≤ INT_MAX →
  BitsPerPixel (format img) < 32 ∨ w img / cellsX b < 1 ∨ h img / cellsY b < 1 →
  ∃ o', generateCellMapFromImage img b o = Returned (false, b, o') ∧
        hasMessage o' = true ∧ messageTicks o' = 50 ∧
        (BitsPerPixel (format img) < 32 →
         message o' = "Only 32 bit png images are supported."%string ∧
         maximumFitCellsForRandom o' = maximumFitCellsForRandom o ∧
         colorThreshold o' = colorThreshold o) ∧
        (32 ≤ BitsPerPixel (format img) →
         message o'
         = "Image pixel size should be bigger then x and y count of the conway cells."%string ∧
         maximumFitCellsForRandom o' = 1663072609 ∧
         colorThreshold o' = 1936485477).
Proof. apply generateCellMapFromImage_refused. Qed.

Lemma generateCellMapFromImage_rejects_witness :
  wf_board blinker_h ∧ 0 ≤ w black_3x3 ≤ INT_MAX ∧ 0 ≤ h black_3x3 ≤ INT_MAX ∧
  (BitsPerPixel (format black_3x3) < 32 ∨ w black_3x3 / cellsX blinker_h < 1 ∨
   h black_3x3 / cellsY blinker_h < 1) ∧
  ∃ o', generateCellMapFromImage black_3x3 blinker_h default_options
        = Returned (false, blinker_h, o') ∧
        maximumFitCellsForRandom default_options = 10 ∧
        maximumFitCellsForRandom o' = 1663072609.
Proof.
  assert (wf_board blinker_h) as Hwf by wf_by_compute.
  assert (0 ≤ w black_3x3 ≤ INT_MAX) as Hw by (vm_compute; intuition congruence).
  assert (0 ≤ h black_3x3 ≤ INT_MAX) as Hh by (vm_compute; intuition congruence).
  assert (BitsPerPixel (format black_3x3) < 32 ∨ w black_3x3 / cellsX blinker_h < 1 ∨
          h black_3x3 / cellsY blinker_h < 1) as Hbad
    by (right; left; vm_compute; reflexivity).
  split_and!; try done.
  destruct (generateCellMapFromImage_rejects black_3x3 blinker_h default_options
              Hwf Hw Hh Hbad) as (o' & Hr & _ & _ & _ & Hsize).
  exists o'. split; [exact Hr|]. split; [reflexivity|].
  apply Hsize. vm_compute. congruence.
Defined.

(** ** Image ingestion: the process loop *)

Lemma block_rows_Some img W j rows : ∀ acc,
  Forall (λ i, 0 ≤ u32 (j + i * W - i) < Z.of_nat (length (pixels img))) rows →
  is_Some (block_rows img W j rows acc).
Proof.
  induction rows as [|i rows IH]; intros acc Hr; [by eexists|].
  apply Forall_cons in Hr as [Hi Hr]. cbn [block_rows].
  unfold pixel_at. destruct (Z.leb_spec 0 (u32 (j + i * W - i))); [|lia].
  destruct (pixels img !! Z.to_nat (u32 (j + i * W - i))) as [p|] eqn:Hp;
    [|apply lookup_ge_None in Hp; lia].
  cbn [mbind option_bind]. destruct acc as [[r g] bl]. apply IH, Hr.
Qed.

Lemma block_sums_Some img W cols rows : ∀ acc,
  Forall (λ j, Forall (λ i, 0 ≤ u32 (j + i * W - i)
                            < Z.of_nat (length (pixels img))) rows) cols →
  is_Some (block_sums img W cols rows acc).
Proof.
  induction cols as [|j cols IH]; intros acc Hc; [by eexists|].
  apply Forall_cons in Hc as [Hj Hc]. cbn [block_sums].
  destruct (block_rows_Some img W j rows acc Hj) as [acc' ->].
  cbn [mbind option_bind]. apply IH, Hc.
Qed.

(** The pixels of a block inside the image are inside the buffer. *)
Lemma block_in_buffer e n wx wy :
  wf_env e n →
  xPixelPerCell e ≤ wx ≤ limitX e → yPixelPerCell e ≤ wy ≤ limitY e →
  is_Some (block_sums (e_img e) (imgWidth e)
             (seqZ (u32 (wx - xPixelPerCell e)) (xPixelPerCell e))
             (seqZ (u32 (wy - yPixelPerCell e)) (yPixelPerCell e)) (0, 0, 0)).
Proof.
  intros He Hx Hy. pose proof He as [? ? ? ? ? ? HW ? ? Hfit Hpix ? ? ?].
  apply block_sums_Some. unfold UINT_MAX in *.
  rewrite !u32_small by nia.
  apply Forall_forall. intros j [Hj1 Hj2]%elem_of_seqZ.
  apply Forall_forall. intros i [Hi1 Hi2]%elem_of_seqZ.
  rewrite HW, Hpix.
  assert (0 ≤ j + i * limitX e - i < limitX e * limitY e) by nia.
  rewrite u32_small by lia. done.
Qed.

Lemma scan_post_length n cs :
  2 ≤ n → coords cs = grid_coords n → Z.of_nat (length cs) = n * n.
Proof.
  intros Hn Hco.
  assert (length cs = length (grid_coords n)) as ->
    by (rewrite <- Hco; unfold coords; by rewrite length_fmap).
  rewrite grid_coords_length by lia. nia.
Qed.

(** A cell born in front of the last cell keeps the array in shape and the
    last cell dead. *)
Lemma scan_post_write n cs i :
  2 ≤ n → 0 ≤ i < n * n - 1 → scan_post n cs →
  ∃ cs', cell_write cs i true true = Some cs' ∧ scan_post n cs'.
Proof.
  intros Hn Hi [Hco (c0 & Hc0 & Hd0)].
  pose proof (scan_post_length n cs Hn Hco) as Hlen.
  destruct (cs !! Z.to_nat i) as [c|] eqn:Hc; [|apply lookup_ge_None in Hc; lia].
  assert (cell_at cs i = Some c) as Hat by (apply cell_at_Some; split; [lia|done]).
  rewrite (cell_write_Some _ _ _ _ c Hat). eexists. split; [reflexivity|].
  split; [by rewrite coords_insert|].
  exists c0. split; [|done]. apply cell_at_Some in Hc0 as [? Hc0].
  apply cell_at_Some. split; [done|]. by rewrite list_lookup_insert_ne by lia.
Qed.

(** The second half of a round, from a state whose block lies inside the
    image and whose index is in front of the last cell. *)
Lemma scan_block_spec e n s :
  wf_env e n →
  xPixelPerCell e ≤ workingX s ≤ limitX e →
  yPixelPerCell e ≤ workingY s ≤ limitY e →
  0 ≤ s_index s < n * n - 1 → scan_post n (s_cells s) →
  match scan_block e s with
  | Continue s' =>
      workingX s' = workingX s ∧ workingY s' = workingY s ∧ row s' = row s ∧
      s_index s' = s_index s + 1 ∧ s_index s' < n * n - 1 ∧
      scan_post n (s_cells s')
  | Break cs _ => scan_post n cs
  | Fault => False
  end.
Proof.
  intros He Hx Hy Hi Hpost. unfold scan_block.
  destruct (block_in_buffer e n _ _ He Hx Hy) as [[[r g] bl] ->].
  pose proof He as [Hn Hint _ _ _ _ _ _ _ _ _ Htot _ Hcount].
  destruct (Z.eqb_spec (totalPixelPerCell e) 0); [done|].
  destruct (scan_post_write n (s_cells s) (s_index s) Hn Hi Hpost)
    as (cs' & Hw & Hpost').
  rewrite Hw, Hcount.
  rewrite (u32_small (s_index s + 1)), (u32_small (n * n - 1))
    by (unfold INT_MAX in *; lia).
  destruct (u32 _ <=? e_threshold e);
    destruct (Z.leb_spec (n * n - 1) (s_index s + 1)); simpl;
    try done; split_and!; try done; lia.
Qed.

(** One round keeps the invariant and lowers the measure, or ends the loop
    with the array in shape and the last cell dead; it makes no undefined
    access. *)
Lemma scan_round_spec e n s :
  wf_env e n → scan_inv e n s →
  match scan_round e s with
  | Continue s' => scan_inv e n s' ∧ scan_measure e s' < scan_measure e s
  | Break cs _ => scan_post n cs
  | Fault => False
  end.
Proof.
  intros He [(c & Hc0 & Hwx & Hidx) Hx Hy Hrow Hi Hco Hlast].
  pose proof He as [Hn Hint HxP HyP Hnx Hny HW HWb HH Hfit _ _ HcX _].
  unfold scan_round.
  assert (u32 (workingX s + xPixelPerCell e) = workingX s + xPixelPerCell e) as ->
    by (apply u32_small; unfold INT_MAX in *; nia).
  destruct (Z.ltb_spec (limitX e) (workingX s + xPixelPerCell e)) as [Hwrap|Hin].
  - assert (u32 (workingY s + yPixelPerCell e) = workingY s + yPixelPerCell e) as ->
      by (apply u32_small; unfold INT_MAX in *; nia).
    destruct (Z.ltb_spec (limitY e) (workingY s + yPixelPerCell e)) as [Hend|Hgo];
      [by split|].
    assert (n ≤ c) as Hcn by nia.
    rewrite HcX.
    assert (u32 ((row s + 1) * n - (row s + 1)) = (row s + 1) * (n - 1)) as ->
      by (rewrite u32_small; unfold INT_MAX in *; nia).
    pose proof (scan_block_spec e n
      (mkScan (xPixelPerCell e) (workingY s + yPixelPerCell e) (row s + 1)
              ((row s + 1) * (n - 1)) (s_cells s) (s_living s)) He) as Hb.
    cbn [workingX workingY row s_index s_cells] in Hb.
    destruct (scan_block e _) as [s'|cs l|].
    + destruct Hb as (HX' & HY' & HR' & HI' & HIb & [Hco' Hlast']);
        [nia|nia|nia|by split|].
      split.
      * constructor; try (rewrite ?HX', ?HY', ?HR'; done || nia); try done.
        exists 1. rewrite HX', HR', HI'. split_and!; lia.
      * unfold scan_measure. rewrite HX', HY'. nia.
    + apply Hb; [nia|nia|nia|by split].
    + apply Hb; [nia|nia|nia|by split].
  - pose proof (scan_block_spec e n
      (mkScan (workingX s + xPixelPerCell e) (workingY s) (row s) (s_index s)
              (s_cells s) (s_living s)) He) as Hb.
    cbn [workingX workingY row s_index s_cells] in Hb.
    destruct (scan_block e _) as [s'|cs l|].
    + destruct Hb as (HX' & HY' & HR' & HI' & HIb & [Hco' Hlast']);
        [nia|nia|nia|by split|].
      split.
      * constructor; try (rewrite ?HX', ?HY', ?HR'; done || nia); try done.
        exists (c + 1). rewrite HX', HR', HI'. split_and!; nia.
      * unfold scan_measure. rewrite HX', HY'. nia.
    + apply Hb; [nia|nia|nia|by split].
    + apply Hb; [nia|nia|nia|by split].
Qed.

(** With fuel above the measure the loop ends, by one of its two breaks. *)
Lemma scan_loop_returns e n (fuel : nat) : ∀ s,
  wf_env e n → scan_inv e n s → scan_measure e s < Z.of_nat fuel →
  ∃ cs living, scan_loop fuel e s = Returned (cs, living) ∧ scan_post n cs.
Proof.
  induction fuel as [|fuel IH]; intros s He Hinv Hm.
  - destruct Hinv as [_ Hx Hy _ _ _ _]. unfold scan_measure in Hm. nia.
  - cbn [scan_loop]. pose proof (scan_round_spec e n s He Hinv) as Hr.
    destruct (scan_round e s) as [s'|cs l|]; [|by exists cs, l|done].
    destruct Hr as [Hinv' Hlt]. apply IH; auto. lia.
Qed.

Lemma env_of_wf img b o :
  wf_board b → 2 ≤ cellsX b → wf_surface img →
  1 ≤ w img / cellsX b → 1 ≤ h img / cellsY b →
  wf_env (env_of img b o) (cellsX b) ∧
  xPixelPerCell (env_of img b o) = w img / cellsX b ∧
  yPixelPerCell (env_of img b o) = h img / cellsY b ∧
  limitX (env_of img b o) = w img ∧ limitY (env_of img b o) = h img.
Proof.
  intros [Hn Hint HY HC _ _ _] H2 [Hw Hh Hsize Hpix] Hx Hy.
  rewrite HY in *. unfold env_of. cbn [xPixelPerCell yPixelPerCell limitX limitY].
  rewrite HY.
  rewrite (u32_small (w img)), (u32_small (h img)) by (unfold INT_MAX in *; lia).
  assert (cellsX b * (w img / cellsX b) ≤ w img) by (apply Z.mul_div_le; lia).
  assert (cellsX b * (h img / cellsX b) ≤ h img) by (apply Z.mul_div_le; lia).
  rewrite (u32_small (w img / cellsX b)), (u32_small (h img / cellsX b))
    by (unfold INT_MAX in *; nia).
  split; [|done].
  constructor; cbn; try done; try nia.
  rewrite u32_small; unfold UINT_MAX in *; nia.
Qed.

(** On a board of side at least 2 and an image that passes the checks the
    function returns true; the cells keep their places and the last cell of
    the array is dead. *)
Lemma generateCellMapFromImage_returns img b o :
  wf_board b → 2 ≤ cellsX b → wf_surface img →
  32 ≤ BitsPerPixel (format img) →
  1 ≤ w img / cellsX b → 1 ≤ h img / cellsY b →
  ∃ b', generateCellMapFromImage img b o = Returned (true, b', o) ∧
        cellsX b' = cellsX b ∧ cellCount b' = cellCount b ∧ turns b' = 0 ∧
        scan_post (cellsX b) (cells b').
Proof.
  intros Hwf H2 Hs Hbpp Hx Hy.
  destruct (env_of_wf img b o Hwf H2 Hs Hx Hy) as (He & HxP & HyP & HlX & HlY).
  pose proof Hwf as [Hn Hint HY HC _ _ Hco]. pose proof Hs as [Hw Hh _ _].
  unfold generateCellMapFromImage.
  destruct (Z.ltb_spec (BitsPerPixel (format img)) 32); [lia|].
  destruct (Z.leb_spec (cellsX b) 0); [lia|].
  destruct (Z.leb_spec (cellsY b) 0); [lia|]. cbn [orb].
  fold (env_of img b o).
  change (u32 (u32 (w img) / cellsX b)) with (xPixelPerCell (env_of img b o)).
  change (u32 (u32 (h img) / cellsY b)) with (yPixelPerCell (env_of img b o)).
  rewrite HxP, HyP.
  destruct (Z.ltb_spec (w img / cellsX b) 1); [lia|].
  destruct (Z.ltb_spec (h img / cellsY b) 1); [lia|]. cbn [orb].
  rewrite (u32_small (w img)), (u32_small (h img)) by (unfold INT_MAX in *; lia).
  destruct (scan_loop_returns (env_of img b o) (cellsX b)
              (scan_fuel (w img) (h img))
              (mkScan 0 (h img / cellsY b) 0 0 (cells (resetPlayboard b))
                      (livingCells (resetPlayboard b))) He)
    as (cs & living & -> & Hpost).
  - constructor; cbn [workingX workingY row s_index s_cells]; try lia.
    + exists 0. lia.
    + rewrite HyP, HlY. split; [lia|]. rewrite HY in *.
      apply Z.div_le_upper_bound; nia.
    + apply (wf_coords _ (resetPlayboard_wf b Hwf)).
    + destruct (resetPlayboard_last_dead b Hwf) as (c & Hc & Hd).
      exists c. split; [|done]. simpl in Hc. rewrite HC, HY in Hc. exact Hc.
  - unfold scan_measure, scan_fuel. cbn [workingX workingY].
    rewrite HlX, HlY. rewrite Z2Nat.id by nia. nia.
  - exists (set_livingCells (set_cells (resetPlayboard b) cs) living).
    split; [reflexivity|]. by simpl.
Qed.

(** ** The last cell of the array *)

(** C10. On a board of the program (side at least 2) the cell at the
    highest position, [cellCount - 1], is dead after [initRandomBoard] and
    after every successful [generateCellMapFromImage]: a draw is reduced
    modulo [cellCount - 1] and so stays below that position, and the process
    loop only writes at positions below it. Both calls do return: the
    seeding on suitable draws, the ingestion on every image that passes the
    checks. *)
Theorem last_cell_stays_dead (b : playBoard) :
  wf_board b → 2 ≤ cellsX b →
  (∀ r, 0 ≤ r mod u32 (cellCount b - 1) < cellCount b - 1) ∧
  (∀ k draws b', 0 ≤ k ≤ UINT_MAX →
     initRandomBoard b k draws = Returned b' →
     ∃ c, cell_at (cells b') (cellCount b' - 1) = Some c ∧ isLiving c = false) ∧
  (∀ k, 0 ≤ k < cellCount b →
     ∃ draws b', initRandomBoard b k draws = Returned b') ∧
  (∀ img o b' o', wf_surface img →
     generateCellMapFromImage img b o = Returned (true, b', o') →
     ∃ c, cell_at (cells b') (cellCount b' - 1) = Some c ∧ isLiving c = false) ∧
  (∀ img o, wf_surface img → 32 ≤ BitsPerPixel (format img) →
     1 ≤ w img / cellsX b → 1 ≤ h img / cellsY b →
     ∃ b', generateCellMapFromImage img b o = Returned (true, b', o)).
Proof.
  intros Hwf H2. pose proof (resetPlayboard_wf b Hwf) as Hwfr.
  destruct (resetPlayboard_livingCells b) as [Hinv H0].
  split_and!.
  - intros r. destruct (seed_index_range b r Hwf H2) as [-> Hr]. exact Hr.
  - intros k draws b' Hk Hr.
    pose proof (seed_loop_spec draws (resetPlayboard b) k Hwfr H2 Hk Hinv
                  (resetPlayboard_last_dead b Hwf)) as Hs.
    unfold initRandomBoard in Hr. rewrite Hr in Hs. apply Hs.
  - intros k Hk. exists (seqZ 0 k).
    destruct (seed_loop_returns (Z.to_nat k) 0 (resetPlayboard b)) as [b' Hb'];
      auto; try lia.
    + simpl. lia.
    + intros i c _ Hc. by apply (resetPlayboard_dead b i).
    + rewrite Z2Nat.id in Hb' by lia. by exists b'.
  - intros img o b' o' Hs Hr. pose proof Hs as [Hw Hh _ _].
    destruct (Z.lt_ge_cases (BitsPerPixel (format img)) 32) as [Hbpp|Hbpp].
    { destruct (generateCellMapFromImage_refused img b o Hwf Hw Hh) as (? & Hrej & _);
        [by left|]. rewrite Hrej in Hr. discriminate. }
    destruct (Z.lt_ge_cases (w img / cellsX b) 1) as [Hx|Hx].
    { destruct (generateCellMapFromImage_refused img b o Hwf Hw Hh) as (? & Hrej & _);
        [by right; left|]. rewrite Hrej in Hr. discriminate. }
    destruct (Z.lt_ge_cases (h img / cellsY b) 1) as [Hy|Hy].
    { destruct (generateCellMapFromImage_refused img b o Hwf Hw Hh) as (? & Hrej & _);
        [by right; right|]. rewrite Hrej in Hr. discriminate. }
    destruct (generateCellMapFromImage_returns img b o Hwf H2 Hs)
      as (b'' & Hret & _ & HC & _ & _ & Hlast); try lia.
    rewrite Hret in Hr. injection Hr as <- <-.
    destruct Hwf as [_ _ HY HCb _ _ _]. rewrite HC, HCb, HY. exact Hlast.
  - intros img o Hs Hbpp Hx Hy.
    destruct (generateCellMapFromImage_returns img b o Hwf H2 Hs Hbpp Hx Hy)
      as (b' & Hret & _). by exists b'.
Qed.

Lemma last_cell_stays_dead_witness :
  wf_board blinker_h ∧ 2 ≤ cellsX blinker_h ∧
  ∃ b' c, generateCellMapFromImage black_5x5 blinker_h default_options
          = Returned (true, b', default_options) ∧
          cell_at (cells b') 24 = Some c ∧ isLiving c = false.
Proof.
  assert (wf_board blinker_h) as Hwf by wf_by_compute.
  assert (2 ≤ cellsX blinker_h) as H2 by (vm_compute; congruence).
  split; [exact Hwf|]. split; [exact H2|].
  destruct (last_cell_stays_dead blinker_h Hwf H2) as (_ & _ & _ & Hdead & _).
  assert (wf_surface black_5x5) as Hs
    by (constructor; try (vm_compute; intuition congruence); reflexivity).
  assert (∃ b', generateCellMapFromImage black_5x5 blinker_h default_options
                = Returned (true, b', default_options)) as [b' Hb']
    by (eexists; vm_compute; reflexivity).
  destruct (Hdead black_5x5 default_options b' default_options Hs Hb') as (c & Hc & Hd).
  exists b', c. split; [exact Hb'|]. split; [|exact Hd].
  vm_compute in Hb'. injection Hb' as <-. exact Hc.
Defined.


(** ** Where the code leaves the specification *)

(** C3, evaluated. On a board of side 5 and an all-black image of 5 x 5
    pixels every cell is alive by the specification; the function returns
    true with the last four cells of the array dead. On the 9 x 9 image that
    is white in the pixel columns 0 to 4, the only ones the blocks of the
    specification cover, no cell is alive by the specification; the function
    brings 17 cells alive from the pixels of the black columns 5 to 8. *)
Theorem ingestion_leaves_specification :
  (∃ b', generateCellMapFromImage black_5x5 (init_board 5) default_options
         = Returned (true, b', default_options) ∧
         alive_map b' = replicate 21 true ++ replicate 4 false) ∧
  (λ i, spec_cell_alive black_5x5 5 650 (i mod 5) (i / 5)) <$> seqZ 0 25
  = replicate 25 true ∧
  (∃ b', generateCellMapFromImage right_9x9 (init_board 5) default_options
         = Returned (true, b', default_options) ∧
         count_alive (cells b') = 17) ∧
  (λ i, spec_cell_alive right_9x9 5 650 (i mod 5) (i / 5)) <$> seqZ 0 25
  = replicate 25 false.
Proof.
  split_and!.
  - eexists. split; vm_compute; reflexivity.
  - vm_compute. reflexivity.
  - eexists. split; vm_compute; reflexivity.
  - vm_compute. reflexivity.
Qed.

(** C1, evaluated. After the ingestion of the all-black 5 x 5 image
    [livingCells] is 25 with 21 living cells; and after a recorded session
    (the tromino, one turn, both states recorded) one step back in the
    history shows the three cells of the tromino with [livingCells] left at
    the 4 of the live board. *)
Theorem livingCells_out_of_step :
  (∃ b', generateCellMapFromImage black_5x5 (init_board 5) default_options
         = Returned (true, b', default_options) ∧
         livingCells b' = 25 ∧ count_alive (cells b') = 21) ∧
  (∃ h1 b1 h2 h3 b3,
     addHistory empty_history tromino = (true, h1) ∧
     applyTurn tromino false = Some b1 ∧
     livingCells b1 = 4 ∧ count_alive (cells b1) = 4 ∧
     addHistory h1 b1 = (true, h2) ∧
     historyBackwards h2 b1 = Some (true, h3, b3) ∧
     alive_map b3 = alive_map tromino ∧
     livingCells b3 = 4 ∧ count_alive (cells b3) = 3).
Proof.
  split.
  - eexists. split_and!; vm_compute; reflexivity.
  - do 5 eexists.
    repeat (split; [vm_compute; reflexivity|]). vm_compute; reflexivity.
Qed.

(** * Further properties of the code *)

(** ** Neighbour lookup *)

(** X1. A direction outside the enumeration takes the [default] branch: the
    lookup answers false and reads no cell, whatever the board. *)
Theorem get_neighbour_living_default (c : cell) (b : playBoard) (direction : Z) :
  direction < 0 ∨ 7 < direction →
  neighbour_limits c b direction = None ∧
  get_neighbour_living c b direction = Some false.
Proof.
  intros Hd.
  assert (direction_shift direction = None) as Hs.
  { unfold direction_shift, TOP, TOP_RIGHT, RIGHT, BOTTOM_RIGHT, BOTTOM,
      BOTTOM_LEFT, LEFT, TOP_LEFT.
    destruct (Z.eqb_spec direction 0); [lia|].
    destruct (Z.eqb_spec direction 1); [lia|].
    destruct (Z.eqb_spec direction 2); [lia|].
    destruct (Z.eqb_spec direction 3); [lia|].
    destruct (Z.eqb_spec direction 4); [lia|].
    destruct (Z.eqb_spec direction 5); [lia|].
    destruct (Z.eqb_spec direction 6); [lia|].
    destruct (Z.eqb_spec direction 7); [lia|]. done. }
  unfold get_neighbour_living, neighbour_limits. by rewrite Hs.
Qed.

Lemma get_neighbour_living_default_witness :
  (8 < 0 ∨ 7 < 8) ∧
  get_neighbour_living (mkCell true true 0 0) (mkBoard true 0 0 0 0 0 []) 8
  = Some false.
Proof.
  assert (8 < 0 ∨ 7 < 8) as Hd by (right; lia).
  split; [exact Hd|].
  exact (proj2 (get_neighbour_living_default _ _ 8 Hd)).
Defined.

Lemma limit_of_back pos dim calc :
  0 ≤ pos < dim → calc = -1 ∨ calc = 0 ∨ calc = 1 →
  0 ≤ limit_of pos dim calc < dim ∧
  limit_of (limit_of pos dim calc) dim (- calc) = pos.
Proof.
  intros Hp [->|[->| ->]]; unfold limit_of; simpl.
  - destruct (Z.eqb_spec pos 0).
    + destruct (Z.eqb_spec (dim - 1) (dim - 1)); lia.
    + destruct (Z.eqb_spec (pos - 1) (dim - 1)); lia.
  - lia.
  - destruct (Z.eqb_spec pos (dim - 1)).
    + destruct (Z.eqb_spec 0 0); lia.
    + destruct (Z.eqb_spec (pos + 1) 0); lia.
Qed.

Lemma direction_shift_opposite (j : nat) dx dy :
  compass !! j = Some (dx, dy) →
  direction_shift ((Z.of_nat j + 4) mod 8) = Some (- dx, - dy).
Proof.
  intros H. do 8 (destruct j as [|j]; [injection H as <- <-; reflexivity|]).
  discriminate.
Qed.

(** X2. The neighbourhood is symmetric: from the cell the lookup reads in a
    compass direction, the lookup in the opposite direction (four places on
    in the enumeration) reads the cell one started from. *)
Theorem neighbour_opposite (b : playBoard) (i : nat) (c : cell) (j : nat) :
  wf_board b → cells b !! i = Some c → (j < 8)%nat →
  ∃ limitX limitY c',
    neighbour_limits c b (Z.of_nat j) = Some (limitX, limitY) ∧
    cell_at (cells b) (limitX + limitY * cellsY b) = Some c' ∧
    neighbour_limits c' b ((Z.of_nat j + 4) mod 8) = Some (cellX c, cellY c) ∧
    cell_at (cells b) (cellX c + cellY c * cellsY b) = Some c.
Proof.
  intros Hwf Hc Hj.
  destruct (compass !! j) as [[dx dy]|] eqn:Hs;
    [|apply lookup_ge_None in Hs; simpl in Hs; lia].
  destruct (compass_shifts _ _ _ Hs) as (_ & Hdx & Hdy).
  destruct (wf_lookup _ _ _ Hwf Hc) as (Hi & HX & HY).
  pose proof Hwf as [Hn _ HcY _ _ _ _].
  assert (0 ≤ cellX c < cellsX b) as HxR
    by (rewrite HX; apply Z.mod_pos_bound; lia).
  assert (0 ≤ cellY c < cellsX b) as HyR.
  { rewrite HY. split; [apply Z.div_pos; lia|]. apply Z.div_lt_upper_bound; lia. }
  destruct (limit_of_back (cellX c) (cellsX b) dx HxR Hdx) as [HlxR Hlx].
  destruct (limit_of_back (cellY c) (cellsX b) dy HyR Hdy) as [HlyR Hly].
  destruct (wf_cell_at b _ _ Hwf HlxR HlyR) as (c' & Hc' & HX' & HY').
  exists (limit_of (cellX c) (cellsX b) dx), (limit_of (cellY c) (cellsX b) dy), c'.
  split_and!.
  - unfold neighbour_limits. rewrite direction_shift_compass, Hs, HcY by done. done.
  - by rewrite HcY.
  - unfold neighbour_limits. rewrite (direction_shift_opposite j dx dy Hs).
    by rewrite HcY, HX', HY', Hlx, Hly.
  - rewrite HcY. apply cell_at_Some. split; [nia|].
    rewrite HX, HY. rewrite Z.mul_comm, Z.add_comm, <- Z.div_mod by lia.
    by rewrite Nat2Z.id.
Qed.

Lemma neighbour_opposite_witness :
  wf_board blinker_h ∧
  ∃ c', cell_at (cells blinker_h) 20 = Some c' ∧
        neighbour_limits c' blinker_h BOTTOM = Some (0, 0).
Proof.
  assert (wf_board blinker_h) as Hwf by wf_by_compute.
  split; [exact Hwf|].
  destruct (neighbour_opposite blinker_h 0 (mkCell false false 0 0) 0 Hwf eq_refl)
    as (lx & ly & c' & Hl & Hc' & Hback & _); [lia|].
  vm_compute in Hl. injection Hl as <- <-.
  exists c'. split; [exact Hc'|exact Hback].
Defined.

(** ** One turn *)

Lemma existsb_changed_alive (f : cell → cell) cs :
  (∀ c, cellChanged (f c) = xorb (isLiving c) (isLiving (f c))) →
  existsb cellChanged (f <$> cs) = false ↔ isLiving <$> (f <$> cs) = isLiving <$> cs.
Proof.
  intros Hf. induction cs as [|c cs IH]; [done|].
  rewrite !fmap_cons. cbn [existsb]. rewrite orb_false_iff, IH, Hf. split.
  - intros [Hx ->]. f_equal. by destruct (isLiving c), (isLiving (f c)).
  - intros [= -> ->]. split; [by destruct (isLiving c)|done].
Qed.

(** X3. [isDirty] after a turn tells whether the turn changed anything: it is
    false exactly when every cell has the [isLiving] value of before. *)
Theorem applyTurn_dirty (b b' : playBoard) (isInHistory : bool) :
  wf_board b → applyTurn b isInHistory = Some b' →
  (isDirty b' = false ↔ alive_map b' = alive_map b) ∧
  (isDirty b' = true ↔ ∃ i c, cells b' !! i = Some c ∧ cellChanged c = true).
Proof.
  intros Hwf. rewrite applyTurn_wf by done. intros [= <-]. split.
  - apply existsb_changed_alive. intros c. reflexivity.
  - cbn [isDirty cells turn_of]. rewrite existsb_exists. split.
    + intros (c & [i Hi]%list_elem_of_In%list_elem_of_lookup & Hch). by exists i, c.
    + intros (i & c & Hi & Hch). exists c. split; [|done].
      apply list_elem_of_In. by apply list_elem_of_lookup_2 with i.
Qed.

Lemma applyTurn_dirty_witness :
  wf_board blinker_h ∧ applyTurn blinker_h false = Some blinker_1 ∧
  isDirty blinker_1 = true ∧ alive_map blinker_1 ≠ alive_map blinker_h.
Proof.
  assert (wf_board blinker_h) as Hwf by wf_by_compute.
  assert (applyTurn blinker_h false = Some blinker_1) as Hturn
    by (vm_compute; reflexivity).
  split; [exact Hwf|]. split; [exact Hturn|].
  destruct (applyTurn_dirty blinker_h blinker_1 false Hwf Hturn) as [Hd _].
  assert (isDirty blinker_1 = true) as Hdirty by (vm_compute; reflexivity).
  split; [exact Hdirty|]. intros Heq. apply Hd in Heq. congruence.
Defined.

(** X4. The turn counter: a live turn adds one modulo [2^32], so the counter
    after [UINT_MAX] is 0 by the wrap of [unsigned int] alone (the test
    against [TURN_LIMIT] never holds); a turn in history mode leaves the
    counter. Dimensions and coordinates are kept by both. *)
Theorem applyTurn_turns (b b' : playBoard) (isInHistory : bool) :
  wf_board b → applyTurn b isInHistory = Some b' →
  turns b' = (if isInHistory then turns b else (turns b + 1) mod 4294967296) ∧
  (isInHistory = false → turns b < UINT_MAX → turns b' = turns b + 1) ∧
  (isInHistory = false → turns b = UINT_MAX → turns b' = 0) ∧
  cellsX b' = cellsX b ∧ cellsY b' = cellsY b ∧ cellCount b' = cellCount b ∧
  coords (cells b') = coords (cells b).
Proof.
  intros Hwf. rewrite applyTurn_wf by done. intros [= <-].
  pose proof (wf_turns b Hwf) as Ht. unfold UINT_MAX in *.
  assert (next_turns (turns b) false = (turns b + 1) mod 4294967296) as Hn.
  { unfold next_turns, TURN_LIMIT, UINT_MAX.
    pose proof (u32_range (turns b + 1)).
    by destruct (Z.ltb_spec 4294967295 (u32 (turns b + 1))); [lia|]. }
  cbn [turns cellsX cellsY cellCount cells turn_of]. split_and!; try done.
  - by destruct isInHistory.
  - intros -> Hlt. rewrite Hn. apply Z.mod_small. lia.
  - intros -> Hmax. rewrite Hn, Hmax. reflexivity.
  - apply coords_next_cell.
Qed.

Lemma applyTurn_turns_witness :
  wf_board (board_with 5 4294967295 [11; 12; 13]) ∧
  ∃ b', applyTurn (board_with 5 4294967295 [11; 12; 13]) false = Some b' ∧
        turns b' = 0.
Proof.
  assert (wf_board (board_with 5 4294967295 [11; 12; 13])) as Hwf by wf_by_compute.
  split; [exact Hwf|]. eexists. split; [vm_compute; reflexivity|].
  eapply (applyTurn_turns (board_with 5 4294967295 [11; 12; 13]) _ false Hwf).
  - vm_compute. reflexivity.
  - reflexivity.
  - reflexivity.
Defined.

Lemma count_alive_zero cs :
  count_alive cs = 0 → ∀ i c, cs !! i = Some c → isLiving c = false.
Proof.
  induction cs as [|c0 cs IH]; intros H0 i c Hc; [done|].
  pose proof (count_alive_bounds cs). simpl in H0.
  destruct i as [|i]; simpl in Hc.
  - injection Hc as <-. destruct (isLiving c0); [lia|done].
  - apply (IH ltac:(destruct (isLiving c0); lia) i c Hc).
Qed.

Lemma living_neighbours_dead n cs x y :
  (∀ i c, cs !! i = Some c → isLiving c = false) →
  living_neighbours n cs x y = 0.
Proof.
  intros Hdead.
  assert (∀ x y, torus_alive n cs x y = false) as Ht.
  { intros x0 y0. unfold torus_alive.
    destruct (cs !! _) as [c|] eqn:Hc; [by apply Hdead in Hc|done]. }
  unfold living_neighbours, compass. simpl. by rewrite !Ht.
Qed.

(** X5. A board without living cells is a fixed point of the turn: no cell is
    born, nothing is marked changed, [isDirty] is false and [livingCells]
    keeps its value. *)
Theorem applyTurn_no_life (b : playBoard) (isInHistory : bool) :
  wf_board b → count_alive (cells b) = 0 →
  ∃ b', applyTurn b isInHistory = Some b' ∧
        cells b' = clear_cell <$> cells b ∧ count_alive (cells b') = 0 ∧
        isDirty b' = false ∧ livingCells b' = livingCells b.
Proof.
  intros Hwf H0. pose proof (count_alive_zero _ H0) as Hdead.
  exists (turn_of b isInHistory). split; [by apply applyTurn_wf|].
  assert (next_cell (cellsX b) (cells b) <$> cells b = clear_cell <$> cells b) as Hc.
  { apply list_fmap_ext. intros i c Hi. unfold next_cell, rule_cell, rule, clear_cell.
    rewrite (Hdead i c Hi), living_neighbours_dead by done. reflexivity. }
  cbn [cells isDirty livingCells turn_of]. rewrite Hc, count_alive_clear, H0.
  split_and!; try done.
  - clear. induction (cells b) as [|c cs IH]; [done|]. rewrite fmap_cons. simpl. exact IH.
  - replace (livingCells b + (0 - 0)) with (livingCells b) by lia.
    apply u32_small. pose proof (wf_living b Hwf). unfold UINT_MAX in *. lia.
Qed.

Lemma applyTurn_no_life_witness :
  wf_board (init_board 5) ∧ count_alive (cells (init_board 5)) = 0 ∧
  ∃ b', applyTurn (init_board 5) false = Some b' ∧ isDirty b' = false.
Proof.
  assert (wf_board (init_board 5)) as Hwf by wf_by_compute.
  assert (count_alive (cells (init_board 5)) = 0) as H0 by reflexivity.
  split; [exact Hwf|]. split; [exact H0|].
  destruct (applyTurn_no_life (init_board 5) false Hwf H0) as (b' & Hb' & _ & _ & Hd & _).
  by exists b'.
Defined.

(** X6. A turn keeps the board well-formed and keeps [livingCells] equal to
    the number of living cells. *)
Theorem applyTurn_keeps_count (b b' : playBoard) (isInHistory : bool) :
  wf_board b → livingCells b = count_alive (cells b) →
  applyTurn b isInHistory = Some b' →
  wf_board b' ∧ livingCells b' = count_alive (cells b').
Proof.
  intros Hwf Hinv Hturn. split.
  - by apply (applyTurn_preserves_wf b isInHistory).
  - by apply (applyTurn_livingCells b isInHistory).
Qed.

Lemma applyTurn_keeps_count_witness :
  wf_board tromino ∧ livingCells tromino = count_alive (cells tromino) ∧
  ∃ b', applyTurn tromino false = Some b' ∧ livingCells b' = 4 ∧
        count_alive (cells b') = 4.
Proof.
  assert (wf_board tromino) as Hwf by wf_by_compute.
  assert (livingCells tromino = count_alive (cells tromino)) as Hinv by reflexivity.
  split; [exact Hwf|]. split; [exact Hinv|].
  assert (applyTurn tromino false = Some (turn_of tromino false)) as Hturn
    by (vm_compute; reflexivity).
  exists (turn_of tromino false). split; [exact Hturn|].
  destruct (applyTurn_keeps_count tromino _ false Hwf Hinv Hturn) as [_ Hc].
  split; [vm_compute; reflexivity|]. rewrite <- Hc. vm_compute. reflexivity.
Defined.

(** ** Reset *)

(** X7. [resetPlayboard] on any board: every cell is dead and unchanged at its
    old coordinates, both counters are 0, [livingCells] agrees with the
    cells, the dimensions and [isDirty] are kept, and a second reset changes
    nothing more. *)
Theorem resetPlayboard_clears (b : playBoard) :
  (∀ i c, cells (resetPlayboard b) !! i = Some c →
          isLiving c = false ∧ cellChanged c = false) ∧
  coords (cells (resetPlayboard b)) = coords (cells b) ∧
  length (cells (resetPlayboard b)) = length (cells b) ∧
  livingCells (resetPlayboard b) = 0 ∧ count_alive (cells (resetPlayboard b)) = 0 ∧
  turns (resetPlayboard b) = 0 ∧
  cellsX (resetPlayboard b) = cellsX b ∧ cellsY (resetPlayboard b) = cellsY b ∧
  cellCount (resetPlayboard b) = cellCount b ∧
  isDirty (resetPlayboard b) = isDirty b ∧
  resetPlayboard (resetPlayboard b) = resetPlayboard b.
Proof.
  split_and!; try done.
  - intros i c. simpl. rewrite list_lookup_fmap.
    destruct (cells b !! i); [|done]. by intros [= <-].
  - simpl. unfold coords. rewrite <- list_fmap_compose. by apply list_fmap_ext.
  - simpl. by rewrite length_fmap.
  - simpl. apply count_alive_clear.
  - unfold resetPlayboard. simpl. f_equal.
    rewrite <- list_fmap_compose. by apply list_fmap_ext.
Qed.

(** ** Random seeding *)

Lemma count_alive_dead_cell cs (i : nat) c :
  cs !! i = Some c → isLiving c = false →
  count_alive cs ≤ Z.of_nat (length cs) - 1.
Proof.
  revert i. induction cs as [|c0 cs IH]; intros i Hc Hd; [done|].
  pose proof (count_alive_bounds cs). destruct i as [|i]; simpl in *.
  - injection Hc as ->. rewrite Hd. lia.
  - specialize (IH i Hc Hd). destruct (isLiving c0); lia.
Qed.

(** X8. A target of [cellCount] or more can never be met, because the draws
    leave out the last cell: the loop is still running at the end of every
    sequence of draws. A target of 0 returns the reset board at once. *)
Theorem initRandomBoard_never_full (b : playBoard) (k : Z) (draws : list Z) :
  wf_board b → 2 ≤ cellsX b → cellCount b ≤ k ≤ UINT_MAX →
  initRandomBoard b k draws = Running ∧
  initRandomBoard b 0 draws = Returned (resetPlayboard b).
Proof.
  intros Hwf H2 Hk. split; [|by destruct draws].
  pose proof (resetPlayboard_wf b Hwf) as Hwfr.
  destruct (resetPlayboard_livingCells b) as [Hinv H0].
  assert (0 ≤ k ≤ UINT_MAX) as Hku.
  { pose proof (wf_length b Hwf). lia. }
  pose proof (seed_loop_spec draws (resetPlayboard b) k Hwfr H2 Hku Hinv
                (resetPlayboard_last_dead b Hwf)) as Hs.
  unfold initRandomBoard.
  destruct (seed_loop draws (resetPlayboard b) k) as [b'| |]; [|done|done].
  destruct Hs as (Hwf' & _ & HC & Hc & _ & (c & Hat & Hd)).
  apply cell_at_Some in Hat as [_ Hat].
  pose proof (count_alive_dead_cell _ _ _ Hat Hd) as Hle.
  rewrite (wf_length b' Hwf'), HC in Hle. rewrite <- Hinv, H0 in Hc.
  simpl in Hle. lia.
Qed.

Lemma initRandomBoard_never_full_witness :
  wf_board blinker_h ∧ 2 ≤ cellsX blinker_h ∧
  cellCount blinker_h ≤ 25 ≤ UINT_MAX ∧
  initRandomBoard blinker_h 25 (seqZ 0 100) = Running.
Proof.
  assert (wf_board blinker_h) as Hwf by wf_by_compute.
  assert (2 ≤ cellsX blinker_h) as H2 by (vm_compute; congruence).
  assert (cellCount blinker_h ≤ 25 ≤ UINT_MAX) as Hk by (vm_compute; intuition congruence).
  split; [exact Hwf|]. split; [exact H2|]. split; [exact Hk|].
  exact (proj1 (initRandomBoard_never_full blinker_h 25 (seqZ 0 100) Hwf H2 Hk)).
Defined.

(** ** Painting *)

Lemma paint_index_spec b idx :
  wf_board b → livingCells b = count_alive (cells b) → 0 ≤ idx →
  ∃ b', paint_index b idx = Some b' ∧ wf_board b' ∧
        livingCells b' = count_alive (cells b') ∧ turns b' = turns b ∧
        cellsX b' = cellsX b ∧
        ∀ (i : nat) c, cells b !! i = Some c →
          cells b' !! i
          = Some (mkCell (isLiving c || bool_decide (Z.of_nat i = idx))
                         (cellChanged c) (cellX c) (cellY c)).
Proof.
  intros Hwf Hinv H0. unfold paint_index.
  pose proof (wf_length b Hwf) as Hlen.
  assert (∀ (i : nat) c, cells b !! i = Some c → Z.of_nat i ≠ idx →
            cells b !! i
            = Some (mkCell (isLiving c || bool_decide (Z.of_nat i = idx))
                           (cellChanged c) (cellX c) (cellY c))) as Hsame.
  { intros i c Hc Hne. rewrite bool_decide_eq_false_2, orb_false_r by done.
    by destruct c. }
  destruct (Z.ltb_spec idx (cellCount b)) as [Hlt|Hge].
  - destruct (cells b !! Z.to_nat idx) as [c0|] eqn:Hc0;
      [|apply lookup_ge_None in Hc0; lia].
    assert (cell_at (cells b) idx = Some c0) as ->
      by (apply cell_at_Some; split; [lia|done]).
    cbn [mbind option_bind]. destruct (isLiving c0) eqn:Hl0.
    + exists b. split_and!; try done. intros i c Hc.
      destruct (decide (Z.of_nat i = idx)) as [Heq|Hne]; [|by apply Hsame].
      rewrite bool_decide_eq_true_2, orb_true_r by done.
      assert (c = c0) as -> by (subst idx; rewrite Nat2Z.id in Hc0; congruence).
      rewrite Hc. f_equal. destruct c0. simpl in *. by subst.
    + pose proof (count_alive_dead_cell _ _ _ Hc0 Hl0) as Hle.
      assert (livingCells b + 1 ≤ UINT_MAX) as Hl1.
      { destruct Hwf as [? ? HY HC ? ? ?]. rewrite HC, HY in Hlen.
        unfold INT_MAX, UINT_MAX in *. lia. }
      pose proof (wf_living b Hwf) as Hliv.
      eexists. split; [reflexivity|]. split_and!; try done.
      * destruct Hwf as [? ? ? ? ? ? Hco]. constructor; simpl; auto.
        -- rewrite u32_small; unfold UINT_MAX in *; lia.
        -- by rewrite coords_insert.
      * simpl. rewrite u32_small by (unfold UINT_MAX in *; lia).
        by rewrite (count_alive_insert _ _ c0), Hinv.
      * intros i c Hc. simpl.
        destruct (decide (Z.of_nat i = idx)) as [Heq|Hne].
        -- rewrite bool_decide_eq_true_2, orb_true_r by done.
           subst idx. rewrite Nat2Z.id in *.
           rewrite list_lookup_insert_eq by (by apply lookup_lt_Some in Hc).
           by replace c with c0 by congruence.
        -- rewrite list_lookup_insert_ne by lia. by apply Hsame.
  - exists b. split_and!; try done. intros i c Hc. apply Hsame; [done|].
    apply lookup_lt_Some in Hc. lia.
Qed.

(** X9. Painting brings alive exactly the cells at the painted indices that lie
    inside the array and changes nothing else: an index outside is ignored,
    a living cell stays as it is, no cell is killed, [cellChanged] and the
    turn counter are kept, and [livingCells] stays equal to the number of
    living cells. *)
Theorem paintCell_paints (b : playBoard) (indices : list Z) :
  wf_board b → livingCells b = count_alive (cells b) →
  Forall (λ idx, 0 ≤ idx) indices →
  ∃ b', paintCell b indices = Some b' ∧ wf_board b' ∧
        livingCells b' = count_alive (cells b') ∧ turns b' = turns b ∧
        ∀ (i : nat) c, cells b !! i = Some c →
          cells b' !! i
          = Some (mkCell (isLiving c || bool_decide (Z.of_nat i ∈ indices))
                         (cellChanged c) (cellX c) (cellY c)).
Proof.
  revert b. induction indices as [|idx indices IH]; intros b Hwf Hinv Hpos.
  - exists b. split_and!; try done. intros i c Hc.
    rewrite bool_decide_eq_false_2, orb_false_r by (by intros ?%elem_of_nil).
    by destruct c.
  - apply Forall_cons in Hpos as [H0 Hpos].
    destruct (paint_index_spec b idx Hwf Hinv H0)
      as (b1 & Hp & Hwf1 & Hinv1 & Ht1 & _ & Hc1).
    destruct (IH b1 Hwf1 Hinv1 Hpos) as (b' & Hp' & Hwf' & Hinv' & Ht' & Hc').
    exists b'. cbn [paintCell]. rewrite Hp. cbn [mbind option_bind].
    split_and!; try done; [congruence|].
    intros i c Hc. rewrite (Hc' i _ (Hc1 i c Hc)). simpl. f_equal. f_equal.
    rewrite <- orb_assoc. f_equal.
    destruct (decide (Z.of_nat i = idx)) as [Heq|Hne].
    + rewrite bool_decide_eq_true_2 by done. simpl. symmetry.
      apply bool_decide_eq_true_2. subst. by left.
    + rewrite (bool_decide_eq_false_2 (Z.of_nat i = idx)) by done. simpl.
      apply bool_decide_ext. rewrite elem_of_cons. tauto.
Qed.

Lemma paintCell_paints_witness :
  wf_board blinker_h ∧ livingCells blinker_h = count_alive (cells blinker_h) ∧
  Forall (λ idx, 0 ≤ idx) [12; 7; 99] ∧
  ∃ b', paintCell blinker_h [12; 7; 99] = Some b' ∧ livingCells b' = 4 ∧
        count_alive (cells b') = 4.
Proof.
  assert (wf_board blinker_h) as Hwf by wf_by_compute.
  assert (livingCells blinker_h = count_alive (cells blinker_h)) as Hinv by reflexivity.
  assert (Forall (λ idx, 0 ≤ idx) [12; 7; 99]) as Hpos
    by (repeat constructor; vm_compute; congruence).
  split; [exact Hwf|]. split; [exact Hinv|]. split; [exact Hpos|].
  destruct (paintCell_paints blinker_h [12; 7; 99] Hwf Hinv Hpos)
    as (b' & Hp & _ & Hc & _).
  exists b'. split; [exact Hp|]. rewrite Hc.
  vm_compute in Hp. injection Hp as <-. split; reflexivity.
Defined.

(** ** The board of a session *)

Lemma count_alive_all_dead cs :
  (∀ i c, cs !! i = Some c → isLiving c = false) → count_alive cs = 0.
Proof.
  induction cs as [|c0 cs IH]; intros Hd; [done|]. simpl.
  rewrite (Hd 0%nat c0 eq_refl), IH; [done|]. intros i c Hc. apply (Hd (S i) c Hc).
Qed.

(** X10. Whatever number the option [-c] carries, the board [main] builds is a
    square board of side 5 to 250 (the number itself inside this range, the
    nearer bound outside), well-formed, with 25 to 62500 cells, all dead. *)
Theorem main_board_wf (v : Z) :
  wf_board (main_board v) ∧
  cellsX (main_board v) = Z.max 5 (Z.min 250 v) ∧
  cellsY (main_board v) = cellsX (main_board v) ∧
  25 ≤ cellCount (main_board v) ≤ 62500 ∧
  Z.of_nat (length (cells (main_board v))) = cellCount (main_board v) ∧
  count_alive (cells (main_board v)) = 0 ∧ livingCells (main_board v) = 0.
Proof.
  assert (5 ≤ cells_option v ≤ 250 ∧ cells_option v = Z.max 5 (Z.min 250 v))
    as [Hr Hc].
  { unfold cells_option. destruct (Z.ltb_spec v 5), (Z.ltb_spec 250 v); lia. }
  assert (wf_board (main_board v)) as Hwf
    by (apply init_board_wf; unfold INT_MAX; nia).
  split_and!; try done.
  - simpl. nia.
  - simpl. nia.
  - by apply wf_length.
  - apply count_alive_all_dead. intros i c Hin%list_elem_of_lookup_2.
    simpl in Hin. unfold init_cells in Hin.
    apply list_elem_of_bind in Hin as (y & Hy & _).
    apply list_elem_of_bind in Hy as (x & Hx & _).
    apply list_elem_of_singleton in Hx. by subst c.
Qed.

(** ** The turn history: statistics, capacity, round trip *)

Lemma count_cells_bounds p cs : 0 ≤ count_cells p cs ≤ Z.of_nat (length cs).
Proof. induction cs as [|c cs IH]; simpl; [lia|]. destruct (p c); lia. Qed.

Lemma scan_cells_stats b cs : ∀ t,
  0 ≤ countBorn t < 4294967296 → 0 ≤ countDeath t < 4294967296 →
  0 ≤ countStable t < 4294967296 →
  countBorn (scan_cells b cs t)
  = u32 (countBorn t + count_cells (λ c, cellChanged c && isLiving c) cs) ∧
  countDeath (scan_cells b cs t)
  = u32 (countDeath t + count_cells (λ c, cellChanged c && negb (isLiving c)) cs) ∧
  countStable (scan_cells b cs t)
  = u32 (countStable t + count_cells (λ c, negb (cellChanged c) && isLiving c) cs).
Proof.
  induction cs as [|c cs IH]; intros t HB HD HS.
  - simpl. rewrite !Z.add_0_r, !u32_small by lia. done.
  - destruct c as [l ch x y].
    destruct ch, l;
      cbn [scan_cells count_cells cellChanged isLiving cellX cellY andb negb];
      match goal with
      | |- context [scan_cells b cs ?t'] =>
          destruct (IH t') as (-> & -> & ->);
          cbn [countBorn countDeath countStable];
          [first [apply u32_range | done] ..|]
      end;
      rewrite ?u32_add_idem; (split; [|split]); f_equal; lia.
Qed.

Lemma count_cells_entries n cs :
  count_cells (λ c, cellChanged c && isLiving c) cs
  + count_cells (λ c, cellChanged c && negb (isLiving c)) cs
  + count_cells (λ c, negb (cellChanged c) && isLiving c) cs
  = Z.of_nat (length (entries n cs)) ∧
  count_cells (λ c, cellChanged c && isLiving c) cs
  + count_cells (λ c, negb (cellChanged c) && isLiving c) cs
  = count_alive cs.
Proof.
  induction cs as [|c cs [IH1 IH2]]; [done|].
  rewrite entries_cons. unfold entry_of. cbn [count_cells count_alive].
  destruct (cellChanged c), (isLiving c); simpl; lia.
Qed.

Lemma count_cells_before (f : cell → cell) cs :
  (∀ c, cellChanged (f c) = xorb (isLiving c) (isLiving (f c))) →
  count_cells (λ c, cellChanged c && negb (isLiving c)) (f <$> cs)
  + count_cells (λ c, negb (cellChanged c) && isLiving c) (f <$> cs)
  = count_alive cs.
Proof.
  intros Hf. induction cs as [|c cs IH]; [done|].
  rewrite fmap_cons. cbn [count_cells count_alive]. rewrite Hf.
  destruct (isLiving c), (isLiving (f c)); simpl; lia.
Qed.

(** X11. The statistics of a recorded turn: the three counters add up to the
    number of entries, born and stable cells together are the living cells
    of the board; for a board a turn has just made, stable and dead cells
    together are the cells that lived before the turn. *)
Theorem addHistory_statistics (h h' : H.gameHistoryGame) (b b' : playBoard)
    (isInHistory : bool) :
  wf_board b → applyTurn b isInHistory = Some b' → addHistory h b' = (true, h') →
  ∃ t, last (H.turnData h') = Some t ∧
       countBorn t = count_cells (λ c, cellChanged c && isLiving c) (cells b') ∧
       countDeath t = count_cells (λ c, cellChanged c && negb (isLiving c)) (cells b') ∧
       countStable t = count_cells (λ c, negb (cellChanged c) && isLiving c) (cells b') ∧
       countBorn t + countDeath t + countStable t = records t ∧
       countBorn t + countStable t = count_alive (cells b') ∧
       countDeath t + countStable t = count_alive (cells b).
Proof.
  intros Hwf Hturn Hadd.
  pose proof (applyTurn_preserves_wf _ _ _ Hwf Hturn) as Hwf'.
  exists (record_of b'). split.
  { unfold addHistory in Hadd. destruct (turns b' <? H.turns h); [discriminate|].
    injection Hadd as <-. simpl. apply last_snoc. }
  destruct (scan_cells_stats b' (cells b') (mkTurn 0 0 0 0 [] []))
    as (HB & HD & HS); simpl; try lia.
  destruct (record_of_entries b' Hwf') as (_ & _ & Hrec).
  pose proof (wf_length b' Hwf') as Hlen.
  assert (cellCount b' ≤ INT_MAX) as Hmax
    by (destruct Hwf' as [? ? HY HC ? ? ?]; rewrite HC, HY; done).
  unfold record_of in *. rewrite HB, HD, HS, Hrec. simpl.
  pose proof (count_cells_bounds (λ c, cellChanged c && isLiving c) (cells b')).
  pose proof (count_cells_bounds (λ c, cellChanged c && negb (isLiving c)) (cells b')).
  pose proof (count_cells_bounds (λ c, negb (cellChanged c) && isLiving c) (cells b')).
  rewrite !u32_small by (unfold INT_MAX in *; lia).
  destruct (count_cells_entries (cellsX b') (cells b')) as [He Ha].
  split_and!; try done.
  rewrite applyTurn_wf in Hturn by done. injection Hturn as <-.
  apply count_cells_before. intros c. reflexivity.
Qed.

Lemma addHistory_statistics_witness :
  wf_board blinker_h ∧ applyTurn blinker_h false = Some blinker_1 ∧
  ∃ h' t, addHistory empty_history blinker_1 = (true, h') ∧
          last (H.turnData h') = Some t ∧
          countBorn t = 2 ∧ countDeath t = 2 ∧ countStable t = 1.
Proof.
  assert (wf_board blinker_h) as Hwf by wf_by_compute.
  assert (applyTurn blinker_h false = Some blinker_1) as Hturn
    by (vm_compute; reflexivity).
  split; [exact Hwf|]. split; [exact Hturn|].
  destruct (addHistory_statistics empty_history _ blinker_h blinker_1 false Hwf Hturn
              eq_refl) as (t & Hlast & HB & HD & HS & _).
  eexists _, t. split; [reflexivity|]. split; [exact Hlast|].
  rewrite HB, HD, HS. split_and!; vm_compute; reflexivity.
Defined.

(** X12. At the capacity of the counter, in a history that stores as many
    turns as it counts, [addHistory] discards the recorded turns and starts
    again: the history then holds the new turn alone, with the cursor on
    it. *)
Theorem addHistory_at_limit (h : H.gameHistoryGame) (b : playBoard) :
  H.turns h = Z.of_nat (length (H.turnData h)) →
  H.turns h = TURN_LIMIT → turns b = TURN_LIMIT →
  addHistory h b = (true, H.mkGame 1 0 [record_of b]).
Proof.
  intros Hc Hh Hb. unfold addHistory. rewrite Hh, Hb.
  rewrite Z.ltb_irrefl, Z.eqb_refl. unfold clearHistory.
  destruct (H.turnData h) as [|t ts]; [|reflexivity].
  rewrite Hh in Hc. discriminate Hc.
Qed.

Lemma addHistory_at_limit_witness :
  H.turns full_history = Z.of_nat (length (H.turnData full_history)) ∧
  H.turns full_history = TURN_LIMIT ∧
  turns (board_with 5 4294967295 [11; 12; 13]) = TURN_LIMIT ∧
  H.turns (addHistory full_history (board_with 5 4294967295 [11; 12; 13])).2 = 1.
Proof.
  assert (H.turns full_history = Z.of_nat (length (H.turnData full_history))) as Hc.
  { unfold full_history. cbn [H.turns H.turnData].
    rewrite length_replicate, Z2Nat.id; [reflexivity|].
    unfold TURN_LIMIT, UINT_MAX. lia. }
  assert (H.turns full_history = TURN_LIMIT) as Hh by reflexivity.
  assert (turns (board_with 5 4294967295 [11; 12; 13]) = TURN_LIMIT) as Hb
    by reflexivity.
  split; [exact Hc|]. split; [exact Hh|]. split; [exact Hb|].
  rewrite (addHistory_at_limit full_history _ Hc Hh Hb). reflexivity.
Defined.

(** X13. Clearing a history that holds turns, as many as it counts, empties
    it; clearing again reports that there was nothing to clear; on the
    cleared history both navigation calls are refused and leave the board,
    and any board can be recorded anew as the first turn. *)
Theorem clearHistory_fresh (h : H.gameHistoryGame) (b : playBoard) :
  H.turns h = Z.of_nat (length (H.turnData h)) →
  H.turnData h ≠ [] → 0 ≤ turns b →
  clearHistory h = (true, empty_history) ∧
  clearHistory (clearHistory h).2 = (false, empty_history) ∧
  historyBackwards (clearHistory h).2 b = Some (false, empty_history, b) ∧
  historyForwards (clearHistory h).2 b = Some (false, empty_history, b) ∧
  addHistory (clearHistory h).2 b = (true, H.mkGame 1 0 [record_of b]).
Proof.
  intros _ Hd Ht.
  assert (clearHistory h = (true, empty_history)) as ->.
  { unfold clearHistory. by destruct (H.turnData h). }
  cbn [snd]. split_and!; try done.
  - apply historyForwards_empty.
  - unfold addHistory. simpl. by destruct (Z.ltb_spec (turns b) 0); [lia|].
Qed.

Lemma clearHistory_fresh_witness :
  H.turns one_turn_history = Z.of_nat (length (H.turnData one_turn_history)) ∧
  H.turnData one_turn_history ≠ [] ∧ 0 ≤ turns blinker_h ∧
  addHistory empty_history blinker_h = (true, one_turn_history) ∧
  clearHistory (clearHistory one_turn_history).2 = (false, empty_history).
Proof.
  assert (H.turns one_turn_history
          = Z.of_nat (length (H.turnData one_turn_history))) as Hc by reflexivity.
  assert (H.turnData one_turn_history ≠ []) as Hd by discriminate.
  assert (0 ≤ turns blinker_h) as Ht by (vm_compute; congruence).
  split; [exact Hc|]. split; [exact Hd|]. split; [exact Ht|].
  split; [vm_compute; reflexivity|].
  exact (proj1 (proj2 (clearHistory_fresh one_turn_history blinker_h Hc Hd Ht))).
Defined.

(** X14. Recording a board and showing the recorded turn is a round trip:
    whatever the board shows in between, the turn [addHistory] has just
    appended puts back every cell of the recorded board, [isLiving] and
    [cellChanged] alike. *)
Theorem record_display_round_trip (h h' : H.gameHistoryGame) (b shown : playBoard) :
  wf_board b → coords (cells shown) = coords (cells b) →
  H.turns h = Z.of_nat (length (H.turnData h)) → H.turns h < TURN_LIMIT →
  addHistory h b = (true, h') →
  historyDisplayTurn h' shown = Some (true, set_cells shown (cells b)).
Proof.
  intros Hwf Hco Hlen Hlim Hadd.
  assert (H.turns h ≤ turns b) as Hle.
  { unfold addHistory in Hadd.
    destruct (Z.ltb_spec (turns b) (H.turns h)); [discriminate|done]. }
  rewrite addHistory_appended in Hadd by lia. injection Hadd as <-.
  apply historyDisplayTurn_record; [done|done|].
  unfold turn_at. cbn [H.turnData H.currentTurn].
  destruct (Z.leb_spec 0 (H.turns h)); [|lia].
  rewrite Hlen, Nat2Z.id, take_ge by done.
  by rewrite list_lookup_middle.
Qed.

Lemma record_display_round_trip_witness :
  wf_board blinker_h ∧ coords (cells tromino) = coords (cells blinker_h) ∧
  H.turns empty_history = Z.of_nat (length (H.turnData empty_history)) ∧
  H.turns empty_history < TURN_LIMIT ∧
  ∃ h' b', addHistory empty_history blinker_h = (true, h') ∧
           historyDisplayTurn h' tromino = Some (true, b') ∧
           alive_map b' = alive_map blinker_h.
Proof.
  assert (wf_board blinker_h) as Hwf by wf_by_compute.
  assert (coords (cells tromino) = coords (cells blinker_h)) as Hco by reflexivity.
  assert (H.turns empty_history = Z.of_nat (length (H.turnData empty_history))) as Hl
    by reflexivity.
  assert (H.turns empty_history < TURN_LIMIT) as Hlim by reflexivity.
  split; [exact Hwf|]. split; [exact Hco|]. split; [exact Hl|]. split; [exact Hlim|].
  eexists _, _. split; [reflexivity|]. split; [|reflexivity].
  exact (record_display_round_trip empty_history _ blinker_h tromino Hwf Hco Hl Hlim
           eq_refl).
Defined.

(** ** Navigation leaves everything but the cells *)

Lemma cell_write_coords cs i l ch cs' :
  cell_write cs i l ch = Some cs' → coords cs' = coords cs.
Proof.
  unfold cell_write. destruct (cell_at cs i) as [c|] eqn:Hc; [|done].
  intros [= <-]. apply cell_at_Some in Hc as [_ Hc]. by apply coords_insert.
Qed.

Lemma replay_entries_coords n : ∀ sts idxs cs cs',
  replay_entries n sts idxs cs = Some cs' → coords cs' = coords cs.
Proof.
  induction n as [|n IH]; intros sts idxs cs cs'; [by intros [= <-]|].
  cbn [replay_entries]. destruct sts as [|st sts], idxs as [|idx idxs]; try done.
  destruct (replay_entry st idx cs) as [cs1|] eqn:Hr; [|done].
  cbn [mbind option_bind]. intros Hn. rewrite (IH _ _ _ _ Hn).
  unfold replay_entry in Hr.
  destruct (st =? STABLE); [by eapply cell_write_coords|].
  destruct (st =? DEAD); [by eapply cell_write_coords|].
  destruct (st =? BORN); [by eapply cell_write_coords|]. by injection Hr as <-.
Qed.

Lemma historyDisplayTurn_frame h b r b' :
  historyDisplayTurn h b = Some (r, b') →
  r = true ∧ turns b' = turns b ∧ livingCells b' = livingCells b ∧
  isDirty b' = isDirty b ∧ cellsX b' = cellsX b ∧ cellsY b' = cellsY b ∧
  cellCount b' = cellCount b ∧ coords (cells b') = coords (cells b).
Proof.
  unfold historyDisplayTurn.
  destruct (turn_at _ _) as [t|]; [|done]. cbn [mbind option_bind].
  destruct (replay_entries _ _ _ _) as [cs|] eqn:Hr; [|done].
  intros [= <- <-]. split_and!; try done. simpl.
  rewrite (replay_entries_coords _ _ _ _ _ Hr).
  unfold coords. rewrite <- list_fmap_compose. by apply list_fmap_ext.
Qed.

(** X15. A navigation call that returns, in either direction and on any history
    and board, leaves the recorded turns and their count, and on the board
    the turn counter, [livingCells], [isDirty], the dimensions and the place
    of every cell; only the cursor and the flags of the cells can differ, and
    a refused call changes nothing at all. *)
Theorem navigation_frame (h h' : H.gameHistoryGame) (b b' : playBoard) (r : bool) :
  historyBackwards h b = Some (r, h', b') ∨ historyForwards h b = Some (r, h', b') →
  H.turns h' = H.turns h ∧ H.turnData h' = H.turnData h ∧
  turns b' = turns b ∧ livingCells b' = livingCells b ∧ isDirty b' = isDirty b ∧
  cellsX b' = cellsX b ∧ cellsY b' = cellsY b ∧ cellCount b' = cellCount b ∧
  coords (cells b') = coords (cells b) ∧
  (r = false → h' = h ∧ b' = b).
Proof.
  assert (∀ c, match historyDisplayTurn (set_currentTurn h c) b with
               | Some (shown, b0) => Some (shown, set_currentTurn h c, b0)
               | None => None
               end = Some (r, h', b') →
          H.turns h' = H.turns h ∧ H.turnData h' = H.turnData h ∧
          turns b' = turns b ∧ livingCells b' = livingCells b ∧
          isDirty b' = isDirty b ∧ cellsX b' = cellsX b ∧ cellsY b' = cellsY b ∧
          cellCount b' = cellCount b ∧ coords (cells b') = coords (cells b) ∧
          (r = false → h' = h ∧ b' = b)) as Hshow.
  { intros c. destruct (historyDisplayTurn _ b) as [[shown b0]|] eqn:Hd; [|done].
    intros [= <- <- <-].
    destruct (historyDisplayTurn_frame _ _ _ _ Hd) as (-> & ? & ? & ? & ? & ? & ? & ?).
    split_and!; try done. }
  intros [Hn|Hn].
  - unfold historyBackwards in Hn.
    destruct ((H.currentTurn h =? 0) || (H.turns h =? 0)).
    + injection Hn as <- <- <-. by split_and!.
    + by apply Hshow in Hn.
  - unfold historyForwards in Hn.
    destruct ((H.currentTurn h =? turns b) || (H.turns h =? 0)
              || (H.currentTurn h =? u32 (H.turns h - 1))).
    + injection Hn as <- <- <-. by split_and!.
    + by apply Hshow in Hn.
Qed.

Lemma navigation_frame_witness :
  ∃ h1 b1 h2 h3 b3,
    addHistory empty_history tromino = (true, h1) ∧
    applyTurn tromino false = Some b1 ∧ addHistory h1 b1 = (true, h2) ∧
    (historyBackwards h2 b1 = Some (true, h3, b3) ∨
     historyForwards h2 b1 = Some (true, h3, b3)) ∧
    livingCells b3 = 4 ∧ turns b3 = 1.
Proof.
  do 5 eexists.
  split; [vm_compute; reflexivity|]. split; [vm_compute; reflexivity|].
  split; [vm_compute; reflexivity|].
  assert (∃ h3 b3, historyBackwards
            (addHistory (addHistory empty_history tromino).2 (turn_of tromino false)).2
            (turn_of tromino false) = Some (true, h3, b3)) as (h3 & b3 & Hn)
    by (do 2 eexists; vm_compute; reflexivity).
  pose proof (navigation_frame _ _ _ _ _ (or_introl Hn)) as (_ & _ & Ht & Hl & _).
  vm_compute in Hn. injection Hn as <- <-.
  split; [left; reflexivity|]. split; [exact Hl|exact Ht].
Defined.

(** ** Image ingestion: what it leaves on the cells *)

(** Invariants of the process loop: what every round keeps and every break
    establishes holds for the result of the loop. *)
Lemma scan_loop_invariant e (I : scan → Prop) (Q : list cell → Z → Prop) :
  (∀ s, I s → match scan_round e s with
              | Continue s' => I s'
              | Break cs living => Q cs living
              | Fault => True
              end) →
  ∀ fuel s cs living,
    I s → scan_loop fuel e s = Returned (cs, living) → Q cs living.
Proof.
  intros Hstep. induction fuel as [|fuel IH]; intros s cs living Hs; [done|].
  cbn [scan_loop]. specialize (Hstep s Hs).
  destruct (scan_round e s) as [s'|cs' l'|]; [|by intros [= <- <-]|done].
  by apply IH.
Qed.

Lemma count_alive_write cs i cs' :
  cell_write cs i true true = Some cs' →
  count_alive cs ≤ count_alive cs' ≤ count_alive cs + 1.
Proof.
  unfold cell_write. destruct (cell_at cs i) as [c|] eqn:Hc; [|done].
  intros [= <-]. apply cell_at_Some in Hc as [_ Hc].
  revert Hc. generalize (Z.to_nat i). intros k. revert k.
  induction cs as [|c0 cs IH]; intros k Hc; [done|].
  destruct k as [|k]; simpl in *.
  - injection Hc as ->. destruct (isLiving c); lia.
  - specialize (IH k Hc). lia.
Qed.

Lemma born_marked_write cs i cs' :
  born_marked cs → cell_write cs i true true = Some cs' → born_marked cs'.
Proof.
  intros Hm. unfold cell_write. destruct (cell_at cs i) as [c|] eqn:Hc; [|done].
  intros [= <-] k c' Hk.
  destruct (decide (Z.to_nat i = k)) as [<-|Hne].
  - apply cell_at_Some in Hc as [_ Hc].
    rewrite list_lookup_insert_eq in Hk by (by apply lookup_lt_Some in Hc).
    by injection Hk as <-.
  - rewrite list_lookup_insert_ne in Hk by done. by apply (Hm k).
Qed.

(** One round moves [livingCells] and the number of living cells by at most
    one, the counter at least as far as the number. *)
Lemma scan_round_counts e s :
  born_marked (s_cells s) → count_alive (s_cells s) ≤ s_living s →
  0 ≤ s_living s → s_living s + 1 ≤ UINT_MAX →
  match scan_round e s with
  | Continue s' =>
      born_marked (s_cells s') ∧
      count_alive (s_cells s') ≤ s_living s' ≤ s_living s + 1
  | Break cs living =>
      born_marked cs ∧ count_alive cs ≤ living ≤ s_living s + 1
  | Fault => True
  end.
Proof.
  intros Hm Hc H0 Hl.
  assert (∀ s1, s_cells s1 = s_cells s → s_living s1 = s_living s →
    match scan_block e s1 with
    | Continue s' =>
        born_marked (s_cells s') ∧
        count_alive (s_cells s') ≤ s_living s' ≤ s_living s + 1
    | Break cs living =>
        born_marked cs ∧ count_alive cs ≤ living ≤ s_living s + 1
    | Fault => True
    end) as Hblock.
  { intros s1 Hcs Hls. unfold scan_block. rewrite Hcs, Hls.
    destruct (block_sums _ _ _ _ _) as [[[r g] bl]|]; [|done].
    destruct (totalPixelPerCell e =? 0); [done|].
    destruct (u32 _ <=? e_threshold e).
    - destruct (cell_write (s_cells s) (s_index s1) true true) as [cs'|] eqn:Hw;
        [|done].
      pose proof (count_alive_write _ _ _ Hw).
      pose proof (born_marked_write _ _ _ Hm Hw).
      rewrite (u32_small (s_living s + 1)) by (unfold UINT_MAX in *; lia).
      destruct (u32 (e_cellCount e - 1) <=? u32 (s_index s1 + 1)); simpl;
        (split; [done|lia]).
    - destruct (u32 (e_cellCount e - 1) <=? u32 (s_index s1 + 1)); simpl;
        (split; [done|lia]). }
  unfold scan_round.
  destruct (limitX e <? u32 (workingX s + xPixelPerCell e)).
  - destruct (limitY e <? u32 (workingY s + yPixelPerCell e)).
    + split; [done|lia].
    + by apply Hblock.
  - by apply Hblock.
Qed.

(** X16. A successful ingestion leaves the turn counter at 0, marks as changed
    exactly the living cells, and counts in [livingCells] at least the
    living cells: the counter is never below their number. The bound on the
    size of the image keeps the number of rounds of the loop, and with it
    the counter, within the range of [unsigned int]. *)
Theorem generateCellMapFromImage_counts (img : SDL_Surface) (b b' : playBoard)
    (o o' : options) :
  wf_board b → 2 ≤ cellsX b → wf_surface img → (w img + 1) * h img ≤ UINT_MAX →
  generateCellMapFromImage img b o = Returned (true, b', o') →
  o' = o ∧ turns b' = 0 ∧ born_marked (cells b') ∧
  count_alive (cells b') ≤ livingCells b' ≤ UINT_MAX ∧
  coords (cells b') = coords (cells b).
Proof.
  intros Hwf H2 Hs Hsmall Hret. pose proof Hs as [Hw Hh _ _].
  destruct (Z.lt_ge_cases (BitsPerPixel (format img)) 32) as [Hbpp|Hbpp].
  { destruct (generateCellMapFromImage_refused img b o Hwf Hw Hh) as (? & Hrej & _);
      [by left|]. rewrite Hrej in Hret. discriminate. }
  destruct (Z.lt_ge_cases (w img / cellsX b) 1) as [Hx|Hx].
  { destruct (generateCellMapFromImage_refused img b o Hwf Hw Hh) as (? & Hrej & _);
      [by right; left|]. rewrite Hrej in Hret. discriminate. }
  destruct (Z.lt_ge_cases (h img / cellsY b) 1) as [Hy|Hy].
  { destruct (generateCellMapFromImage_refused img b o Hwf Hw Hh) as (? & Hrej & _);
      [by right; right|]. rewrite Hrej in Hret. discriminate. }
  destruct (env_of_wf img b o Hwf H2 Hs) as (He & HxP & HyP & HlX & HlY); [lia..|].
  pose proof Hwf as [Hn Hint HY HC _ _ Hco].
  unfold generateCellMapFromImage in Hret.
  destruct (Z.ltb_spec (BitsPerPixel (format img)) 32); [lia|].
  destruct (Z.leb_spec (cellsX b) 0); [lia|].
  destruct (Z.leb_spec (cellsY b) 0); [lia|]. cbn [orb] in Hret.
  fold (env_of img b o) in Hret.
  change (u32 (u32 (w img) / cellsX b)) with (xPixelPerCell (env_of img b o)) in Hret.
  change (u32 (u32 (h img) / cellsY b)) with (yPixelPerCell (env_of img b o)) in Hret.
  rewrite HxP, HyP in Hret.
  destruct (Z.ltb_spec (w img / cellsX b) 1); [lia|].
  destruct (Z.ltb_spec (h img / cellsY b) 1); [lia|]. cbn [orb] in Hret.
  destruct (scan_loop _ _ _) as [[cs living]| |] eqn:Hloop; try discriminate.
  injection Hret as <- <-. cbn [turns cells livingCells set_livingCells set_cells].
  set (e := env_of img b o) in *.
  set (s0 := mkScan 0 (h img / cellsY b) 0 0 (cells (resetPlayboard b))
                    (livingCells (resetPlayboard b))) in *.
  pose proof (scan_loop_invariant e
    (λ s, scan_inv e (cellsX b) s ∧ born_marked (s_cells s) ∧
          count_alive (s_cells s) ≤ s_living s ∧ 0 ≤ s_living s ∧
          s_living s + scan_measure e s ≤ scan_measure e s0)
    (λ cs living, born_marked cs ∧ count_alive cs ≤ living ≤ UINT_MAX ∧
                  coords cs = grid_coords (cellsX b))) as Hinv.
  assert (scan_measure e s0 + 1 ≤ UINT_MAX) as Hm0.
  { unfold scan_measure, s0. cbn [workingX workingY]. rewrite HlX, HlY. nia. }
  destruct (Hinv) with (fuel := scan_fuel (u32 (w img)) (u32 (h img))) (s := s0)
    (cs := cs) (living := living) as (Hmk & Hcount & Hco').
  - intros s (Hsi & Hmk & Hcnt & Hl0 & Hbud).
    assert (0 ≤ scan_measure e s) as Hmpos.
    { destruct Hsi as [_ Hxr Hyr _ _ _ _]. unfold scan_measure. nia. }
    pose proof (scan_round_spec e (cellsX b) s He Hsi) as Hr1.
    pose proof (scan_round_counts e s Hmk Hcnt Hl0 ltac:(lia)) as Hr2.
    destruct (scan_round e s) as [s'|cs' l'|]; [| |done].
    + destruct Hr1 as [Hsi' Hlt]. destruct Hr2 as [Hmk' Hcnt'].
      pose proof (count_alive_bounds (s_cells s')).
      split_and!; try done; lia.
    + destruct Hr1 as [Hco1 _]. destruct Hr2 as [Hmk' Hcnt'].
      split_and!; try done; lia.
  - split_and!.
    + unfold s0.
      constructor; cbn [workingX workingY row s_index s_cells]; try lia.
      * exists 0. lia.
      * rewrite HyP, HlY. split; [lia|]. rewrite HY in *.
        apply Z.div_le_upper_bound; nia.
      * apply (wf_coords _ (resetPlayboard_wf b Hwf)).
      * destruct (resetPlayboard_last_dead b Hwf) as (c & Hc & Hd).
        exists c. split; [|done]. simpl in Hc. rewrite HC, HY in Hc. exact Hc.
    + intros i c. simpl. rewrite list_lookup_fmap.
      destruct (cells b !! i); [|done]. by intros [= <-].
    + simpl. by rewrite count_alive_clear.
    + done.
    + simpl. lia.
  - exact Hloop.
  - destruct Hcount. split_and!; try done. by rewrite Hco', Hco.
Qed.

Lemma generateCellMapFromImage_counts_witness :
  wf_board blinker_h ∧ 2 ≤ cellsX blinker_h ∧ wf_surface black_5x5 ∧
  (w black_5x5 + 1) * h black_5x5 ≤ UINT_MAX ∧
  ∃ b', generateCellMapFromImage black_5x5 blinker_h default_options
        = Returned (true, b', default_options) ∧
        count_alive (cells b') ≤ livingCells b' ∧ livingCells b' = 25.
Proof.
  assert (wf_board blinker_h) as Hwf by wf_by_compute.
  assert (2 ≤ cellsX blinker_h) as H2 by (vm_compute; congruence).
  assert (wf_surface black_5x5) as Hs
    by (constructor; try (vm_compute; intuition congruence); reflexivity).
  assert ((w black_5x5 + 1) * h black_5x5 ≤ UINT_MAX) as Hsm by (vm_compute; congruence).
  split; [exact Hwf|]. split; [exact H2|]. split; [exact Hs|]. split; [exact Hsm|].
  assert (∃ b', generateCellMapFromImage black_5x5 blinker_h default_options
                = Returned (true, b', default_options)) as [b' Hb']
    by (eexists; vm_compute; reflexivity).
  destruct (generateCellMapFromImage_counts _ _ _ _ _ Hwf H2 Hs Hsm Hb')
    as (_ & _ & _ & [Hc _] & _).
  exists b'. split; [exact Hb'|]. split; [exact Hc|].
  vm_compute in Hb'. injection Hb' as <-. reflexivity.
Defined.

(** ** Image ingestion with one pixel per cell *)

Lemma count_true_bounds l : 0 ≤ count_true l ≤ Z.of_nat (length l).
Proof. induction l as [|x l IH]; simpl; [lia|]. destruct x; lia. Qed.

Lemma count_true_app l1 l2 : count_true (l1 ++ l2) = count_true l1 + count_true l2.
Proof. induction l1 as [|x l1 IH]; simpl; [done|]. rewrite IH. lia. Qed.

Lemma seam_dark_bounds img thr n rows :
  0 ≤ rows → 0 ≤ seam_dark img thr n rows ≤ rows.
Proof.
  intros Hr. unfold seam_dark.
  pose proof (count_true_bounds
    ((λ r, pixel_dark img thr (r * (n - 1))) <$> seqZ 1 rows)) as Hb.
  rewrite length_fmap, length_seqZ in Hb. lia.
Qed.

Lemma seam_dark_succ img thr n rows :
  0 ≤ rows →
  seam_dark img thr n (rows + 1)
  = seam_dark img thr n rows
    + (if pixel_dark img thr ((rows + 1) * (n - 1)) then 1 else 0).
Proof.
  intros Hr. unfold seam_dark. rewrite seqZ_app by lia.
  rewrite fmap_app, count_true_app.
  change (seqZ (1 + rows) 1) with [1 + rows]. simpl.
  replace (1 + rows) with (rows + 1) by lia. lia.
Qed.

Lemma u32_channel p m sh l : u32 (0 + channel p m sh l) = channel p m sh l.
Proof. rewrite Z.add_0_l. unfold channel. apply u32_small, u32_range. Qed.

(** The block of one pixel: the pixel read is the one at the offset of the
    index, and the cell of the index is written when that pixel is dark. *)
Lemma scan_block_pixel e n s :
  wf_env e n →
  xPixelPerCell e = 1 → yPixelPerCell e = 1 → totalPixelPerCell e = 1 →
  limitX e = n → limitY e = n →
  1 ≤ workingX s ≤ n → 1 ≤ workingY s ≤ n →
  s_index s = workingX s - 1 + (workingY s - 1) * (n - 1) →
  0 ≤ s_index s < n * n - 1 →
  coords (s_cells s) = grid_coords n →
  0 ≤ s_living s < UINT_MAX →
  ∃ c, cell_at (s_cells s) (s_index s) = Some c ∧
    let dark := pixel_dark (e_img e) (e_threshold e) (s_index s) in
    let cs' := if dark
               then <[Z.to_nat (s_index s) := mkCell true true (cellX c) (cellY c)]>
                      (s_cells s)
               else s_cells s in
    let living' := s_living s + (if dark then 1 else 0) in
    scan_block e s
    = if n * n - 1 <=? s_index s + 1 then Break cs' living'
      else Continue (mkScan (workingX s) (workingY s) (row s) (s_index s + 1)
                            cs' living').
Proof.
  intros He Hx Hy Ht HlX HlY HwX HwY Hidx Hi Hco Hliv.
  pose proof He as [Hn Hint _ _ _ _ HW _ _ _ Hpix _ _ HcC].
  pose proof (scan_post_length n _ Hn Hco) as Hlen.
  assert (∃ p, pixel_at (pixels (e_img e)) (s_index s) = Some p) as [p Hp].
  { unfold pixel_at. destruct (Z.leb_spec 0 (s_index s)); [|lia].
    destruct (pixels (e_img e) !! Z.to_nat (s_index s)) eqn:Hl; [by eexists|].
    apply lookup_ge_None in Hl. nia. }
  assert (∃ c, cell_at (s_cells s) (s_index s) = Some c) as [c Hc].
  { unfold cell_at. destruct (Z.leb_spec 0 (s_index s)); [|lia].
    destruct (s_cells s !! Z.to_nat (s_index s)) eqn:Hl; [by eexists|].
    apply lookup_ge_None in Hl. nia. }
  exists c. split; [done|]. cbv zeta.
  unfold scan_block. rewrite Hx, Hy, Ht, HW, HlX, HcC.
  assert (n ≤ n * n) as Hnn by nia.
  rewrite (u32_small (workingX s - 1)), (u32_small (workingY s - 1))
    by (unfold INT_MAX in *; lia).
  change (seqZ (workingX s - 1) 1) with [workingX s - 1].
  change (seqZ (workingY s - 1) 1) with [workingY s - 1].
  cbn [block_sums block_rows].
  replace (workingX s - 1 + (workingY s - 1) * n - (workingY s - 1))
    with (s_index s) by lia.
  rewrite (u32_small (s_index s)) by (unfold INT_MAX in *; lia).
  rewrite Hp. cbn [mbind option_bind]. rewrite !u32_channel, !Z.div_1_r.
  change (u32 (_ + _ + _)) with (pixel_sum (e_img e) p).
  unfold pixel_dark. rewrite Hp.
  rewrite (u32_small (n * n - 1)), (u32_small (s_index s + 1))
    by (unfold INT_MAX in *; lia).
  change (1 =? 0) with false. cbv iota.
  destruct (pixel_sum (e_img e) p <=? e_threshold e).
  - rewrite (cell_write_Some _ _ _ _ c Hc).
    rewrite (u32_small (s_living s + 1)) by (unfold UINT_MAX in *; lia). done.
  - by rewrite Z.add_0_r.
Qed.

Lemma follows_pixels_step dark idx cs c :
  0 ≤ idx → cs !! Z.to_nat idx = Some c →
  follows_pixels dark idx cs ∨ follows_pixels dark (idx + 1) cs →
  follows_pixels dark (idx + 1)
    (if dark idx
     then <[Z.to_nat idx := mkCell true true (cellX c) (cellY c)]> cs
     else cs).
Proof.
  intros H0 Hc HP k c' Hk.
  destruct (decide (k = Z.to_nat idx)) as [->|Hne].
  - rewrite Z2Nat.id by lia. destruct (Z.ltb_spec idx (idx + 1)); [|lia].
    destruct (dark idx) eqn:Hd.
    + rewrite list_lookup_insert_eq in Hk by (by apply lookup_lt_Some in Hc).
      by injection Hk as <-.
    + rewrite Hc in Hk. injection Hk as <-.
      destruct HP as [HP|HP]; destruct (HP _ _ Hc) as [Hl Hch];
        rewrite Z2Nat.id in Hl by lia; rewrite Hd, andb_false_r in Hl;
        by rewrite Hch, Hl.
  - assert (cs !! k = Some c') as Hk'.
    { destruct (dark idx); [by rewrite list_lookup_insert_ne in Hk|done]. }
    assert ((Z.of_nat k <? idx) = (Z.of_nat k <? idx + 1)) as Heq.
    { destruct (Z.ltb_spec (Z.of_nat k) idx), (Z.ltb_spec (Z.of_nat k) (idx + 1));
        try done; lia. }
    destruct HP as [HP|HP]; destruct (HP _ _ Hk') as [Hl Hch]; split; try done;
      by rewrite Hl, Heq.
Qed.

Lemma count_alive_insert_alive cs (i : nat) c ch x y :
  cs !! i = Some c → isLiving c = true →
  count_alive (<[i := mkCell true ch x y]> cs) = count_alive cs.
Proof.
  revert i. induction cs as [|c' cs IH]; intros i Hc Hd; [done|].
  destruct i as [|i]; simpl in *.
  - injection Hc as ->. by rewrite Hd.
  - by rewrite (IH i).
Qed.

(** A block that writes a cell not reached before counts a new living
    cell. *)
Lemma count_alive_fresh dark idx cs c :
  0 ≤ idx → cs !! Z.to_nat idx = Some c → follows_pixels dark idx cs →
  count_alive (if dark idx
               then <[Z.to_nat idx := mkCell true true (cellX c) (cellY c)]> cs
               else cs)
  = count_alive cs + (if dark idx then 1 else 0).
Proof.
  intros H0 Hc HP. destruct (dark idx); [|lia].
  apply (count_alive_insert _ _ c); [done|].
  destruct (HP _ _ Hc) as [-> _]. rewrite Z2Nat.id by lia.
  by destruct (Z.ltb_spec idx idx); [lia|].
Qed.

(** A block that writes a cell reached before counts no new living cell. *)
Lemma count_alive_again dark idx cs c :
  0 ≤ idx → cs !! Z.to_nat idx = Some c → follows_pixels dark (idx + 1) cs →
  count_alive (if dark idx
               then <[Z.to_nat idx := mkCell true true (cellX c) (cellY c)]> cs
               else cs)
  = count_alive cs.
Proof.
  intros H0 Hc HP. destruct (dark idx) eqn:Hd; [|done].
  apply (count_alive_insert_alive _ _ c); [done|].
  destruct (HP _ _ Hc) as [-> _]. rewrite Z2Nat.id by lia. rewrite Hd.
  by destruct (Z.ltb_spec idx (idx + 1)); [|lia].
Qed.

(** One round with one pixel per cell. *)
Lemma scan_round_pixel e n s :
  wf_env e n →
  xPixelPerCell e = 1 → yPixelPerCell e = 1 → totalPixelPerCell e = 1 →
  limitX e = n → limitY e = n →
  pixel_inv e n s →
  match scan_round e s with
  | Continue s' => pixel_inv e n s'
  | Break cs living => pixel_post e n cs living
  | Fault => True
  end.
Proof.
  intros He Hx Hy Ht HlX HlY [Hsi Hwy Hfp Hliv].
  pose proof (scan_round_spec e n s He Hsi) as Hspec.
  pose proof Hsi as [(c & Hc0 & Hwx & Hidx) HxR HyR Hrow Hi Hco _].
  pose proof He as [Hn Hint _ _ _ _ _ _ _ _ _ _ HcX _].
  pose proof (scan_post_length n _ Hn Hco) as Hlen.
  pose proof (count_alive_bounds (s_cells s)) as Hcb.
  pose proof (seam_dark_bounds (e_img e) (e_threshold e) n (row s) Hrow) as Hsb.
  assert (n ≤ n * n) as Hnn by nia.
  rewrite Hx in Hwx. rewrite HlX in HxR. rewrite Hy, HlY in HyR.
  revert Hspec. unfold scan_round. rewrite Hx, Hy, HlX, HlY, HcX.
  rewrite (u32_small (workingX s + 1)), (u32_small (workingY s + 1))
    by (unfold INT_MAX in *; lia).
  destruct (Z.ltb_spec n (workingX s + 1)) as [Hwrap|Hin].
  - destruct (Z.ltb_spec n (workingY s + 1)) as [Hend|Hgo].
    + intros _. split.
      * replace (n * n - n + 1) with (s_index s) by nia. done.
      * rewrite Hliv. replace (n - 1) with (row s) by lia. done.
    + assert ((row s + 1) * n - (row s + 1) = s_index s - 1) as Hback by nia.
      rewrite Hback. rewrite (u32_small (s_index s - 1))
        by (unfold INT_MAX in *; nia).
      destruct (scan_block_pixel e n
        (mkScan 1 (workingY s + 1) (row s + 1) (s_index s - 1) (s_cells s)
                (s_living s)) He Hx Hy Ht HlX HlY) as (c0 & Hc0' & Hblock);
        cbn [workingX workingY row s_index s_cells s_living];
        try done; try (unfold INT_MAX, UINT_MAX in *; nia).
      cbn [workingX workingY row s_index s_cells s_living] in Hc0', Hblock.
      cbv zeta in Hblock. rewrite Hblock.
      destruct (Z.leb_spec (n * n - 1) (s_index s - 1 + 1)); [lia|].
      apply cell_at_Some in Hc0' as [Hpos Hc0'].
      replace (s_index s) with (s_index s - 1 + 1) in Hfp by lia.
      intros [Hsi' _]. constructor; cbn [workingX workingY row s_index s_cells s_living].
      * exact Hsi'.
      * lia.
      * apply follows_pixels_step; auto.
      * rewrite (count_alive_again _ _ _ _ Hpos Hc0' Hfp).
        rewrite seam_dark_succ by lia.
        replace ((row s + 1) * (n - 1)) with (s_index s - 1) by nia. lia.
  - replace (s_index s) with (workingX s + 1 - 1 + (workingY s - 1) * (n - 1))
      in Hi by nia.
    destruct (scan_block_pixel e n
      (mkScan (workingX s + 1) (workingY s) (row s) (s_index s) (s_cells s)
              (s_living s)) He Hx Hy Ht HlX HlY) as (c0 & Hc0' & Hblock);
      cbn [workingX workingY row s_index s_cells s_living];
      try done; try (unfold INT_MAX, UINT_MAX in *; nia).
    cbn [workingX workingY row s_index s_cells s_living] in Hc0', Hblock.
    cbv zeta in Hblock. rewrite Hblock.
    apply cell_at_Some in Hc0' as [Hpos Hc0'].
    destruct (Z.leb_spec (n * n - 1) (s_index s + 1)) as [Hbreak|Hgo].
    + intros _. split.
      * replace (n * n - n + 1) with (s_index s + 1) by nia.
        apply follows_pixels_step; auto.
      * rewrite (count_alive_fresh _ _ _ _ Hpos Hc0' Hfp).
        replace (n - 1) with (row s) by nia. lia.
    + intros [Hsi' _]. constructor; cbn [workingX workingY row s_index s_cells s_living].
      * exact Hsi'.
      * lia.
      * apply follows_pixels_step; auto.
      * rewrite (count_alive_fresh _ _ _ _ Hpos Hc0' Hfp). lia.
Qed.

(** The state in which the process loop starts. *)
Lemma scan_start img b o :
  wf_board b → 2 ≤ cellsX b → wf_surface img →
  1 ≤ w img / cellsX b → 1 ≤ h img / cellsY b →
  scan_inv (env_of img b o) (cellsX b)
    (mkScan 0 (h img / cellsY b) 0 0 (cells (resetPlayboard b))
            (livingCells (resetPlayboard b))).
Proof.
  intros Hwf H2 Hs Hx Hy.
  destruct (env_of_wf img b o Hwf H2 Hs Hx Hy) as (He & HxP & HyP & HlX & HlY).
  pose proof Hwf as [Hn Hint HY HC _ _ Hco]. pose proof Hs as [Hw Hh _ _].
  constructor; cbn [workingX workingY row s_index s_cells]; try lia.
  - exists 0. lia.
  - rewrite HyP, HlY. split; [lia|]. rewrite HY in *.
    apply Z.div_le_upper_bound; nia.
  - apply (wf_coords _ (resetPlayboard_wf b Hwf)).
  - destruct (resetPlayboard_last_dead b Hwf) as (c & Hc & Hd).
    exists c. split; [|done]. simpl in Hc. rewrite HC, HY in Hc. exact Hc.
Qed.

(** X17. With one pixel per cell (an image as wide and as high as the board has
    cells on a side) the ingestion returns true and the result is read off
    the pixel buffer: the cell at position [k] is alive exactly when [k] is
    at most [cellCount - cellsX] and the pixel at offset [k] is dark, the
    living cells are the ones marked changed, and [livingCells] is the
    number of living cells plus the number of dark pixels at the offsets
    [r * (cellsX - 1)], [r] from 1 to [cellsX - 1], which are read twice. *)
Theorem generateCellMapFromImage_pixel_per_cell (img : SDL_Surface)
    (b : playBoard) (o : options) :
  wf_board b → 2 ≤ cellsX b → wf_surface img →
  32 ≤ BitsPerPixel (format img) →
  w img = cellsX b → h img = cellsX b →
  ∃ b', generateCellMapFromImage img b o = Returned (true, b', o) ∧
    (∀ k c, cells b' !! k = Some c →
       isLiving c = (Z.of_nat k <? cellCount b - cellsX b + 1)
                    && pixel_dark img (colorThreshold o) (Z.of_nat k) ∧
       cellChanged c = isLiving c) ∧
    livingCells b'
    = count_alive (cells b')
      + seam_dark img (colorThreshold o) (cellsX b) (cellsX b - 1).
Proof.
  intros Hwf H2 Hs Hbpp Hw Hh.
  pose proof Hwf as [Hn Hint HY HC _ _ Hco]. pose proof Hs as [Hwr Hhr _ _].
  assert (w img / cellsX b = 1) as Hx1 by (rewrite Hw; apply Z.div_same; lia).
  assert (h img / cellsY b = 1) as Hy1 by (rewrite Hh, HY; apply Z.div_same; lia).
  destruct (env_of_wf img b o Hwf H2 Hs) as (He & HxP & HyP & HlX & HlY); [lia..|].
  pose proof (scan_start img b o Hwf H2 Hs ltac:(lia) ltac:(lia)) as Hstart.
  assert (totalPixelPerCell (env_of img b o) = 1) as Ht.
  { change (totalPixelPerCell (env_of img b o))
      with (u32 (xPixelPerCell (env_of img b o) * yPixelPerCell (env_of img b o))).
    rewrite HxP, HyP, Hx1, Hy1. reflexivity. }
  unfold generateCellMapFromImage.
  destruct (Z.ltb_spec (BitsPerPixel (format img)) 32); [lia|].
  destruct (Z.leb_spec (cellsX b) 0); [lia|].
  destruct (Z.leb_spec (cellsY b) 0); [lia|]. cbn [orb].
  fold (env_of img b o).
  change (u32 (u32 (w img) / cellsX b)) with (xPixelPerCell (env_of img b o)).
  change (u32 (u32 (h img) / cellsY b)) with (yPixelPerCell (env_of img b o)).
  rewrite HxP, HyP.
  destruct (Z.ltb_spec (w img / cellsX b) 1); [lia|].
  destruct (Z.ltb_spec (h img / cellsY b) 1); [lia|]. cbn [orb].
  rewrite (u32_small (w img)), (u32_small (h img)) by (unfold INT_MAX in *; lia).
  rewrite Hy1 in *. rewrite Hx1 in HxP.
  destruct (scan_loop_returns (env_of img b o) (cellsX b)
              (scan_fuel (w img) (h img)) _ He Hstart)
    as (cs & living & Hloop & _).
  { unfold scan_measure, scan_fuel. cbn [workingX workingY].
    rewrite HlX, HlY. rewrite Z2Nat.id by nia. nia. }
  rewrite Hloop. eexists. split; [reflexivity|].
  cbn [cells livingCells set_livingCells set_cells].
  assert (pixel_post (env_of img b o) (cellsX b) cs living) as [Hfp Hliv].
  2: { split; [|exact Hliv]. rewrite HC, HY. exact Hfp. }
  apply (scan_loop_invariant (env_of img b o)
    (pixel_inv (env_of img b o) (cellsX b))
    (pixel_post (env_of img b o) (cellsX b))) with (3 := Hloop).
  - intros s Hs'. apply scan_round_pixel; auto; congruence.
  - constructor; cbn [workingX workingY row s_index s_cells s_living]; try done.
    + intros k c Hk.
      assert ((Z.of_nat k <? 0) = false) as -> by (apply Z.ltb_ge; lia).
      simpl in Hk. rewrite list_lookup_fmap in Hk.
      destruct (cells b !! k); [|done]. by injection Hk as <-.
    + simpl. by rewrite count_alive_clear.
Qed.

Lemma generateCellMapFromImage_pixel_per_cell_witness :
  wf_board (init_board 5) ∧ wf_surface diagonal_5x5 ∧
  ∃ b', generateCellMapFromImage diagonal_5x5 (init_board 5) default_options
        = Returned (true, b', default_options) ∧
        alive_map b' = (λ k, bool_decide (k ∈ [0; 6; 12; 18])) <$> seqZ 0 25 ∧
        livingCells b' = 4 + seam_dark diagonal_5x5 650 5 4 ∧
        seam_dark diagonal_5x5 650 5 4 = 1.
Proof.
  assert (wf_board (init_board 5)) as Hwf by wf_by_compute.
  assert (wf_surface diagonal_5x5) as Hs
    by (constructor; try (vm_compute; intuition congruence); reflexivity).
  split; [exact Hwf|]. split; [exact Hs|].
  destruct (generateCellMapFromImage_pixel_per_cell diagonal_5x5 (init_board 5)
              default_options Hwf ltac:(vm_compute; congruence) Hs
              ltac:(vm_compute; congruence) eq_refl eq_refl)
    as (b' & Hb' & _ & Hliv).
  exists b'. split; [exact Hb'|].
  vm_compute in Hb'. injection Hb' as <-.
  split; [vm_compute; reflexivity|]. split; [exact Hliv|reflexivity].
Defined.

(** ** The command line *)

(** The chain of tests tries [-h] before [-ht] and [-c] before [-cb]: no
    argument selects the command of the history or the one of the cairo
    writer, and an argument that selects a command does not start with
    [-h]. *)
Lemma select_command_spec arg :
  match select_command arg with
  | Help => True
  | Command c _ =>
      c ≠ DOCREATEHISTORY ∧ c ≠ USECAIRO ∧ String.prefix "-h" arg = false
  end.
Proof.
  unfold select_command.
  destruct arg as [|a0 [|a1 [|a2 [|a3 arg]]]]; cbn [String.prefix];
    repeat (destruct (Ascii.ascii_dec _ _); cbn [orb]; try congruence);
    try done; destruct arg; by cbn.
Qed.

Lemma set_flag_spec c v s :
  c ≠ DOCREATEHISTORY →
  Main.doCreateHistory (set_flag c v s) = Main.doCreateHistory s ∧
  Main.useCairoPNGs (set_flag c v s) = Main.useCairoPNGs s ∧
  Main.cellsX (set_flag c v s) = Main.cellsX s ∧
  Main.cellsY (set_flag c v s) = Main.cellsY s.
Proof.
  intros Hc. destruct s. unfold set_flag.
  destruct (Z.eqb_spec c DRAWGRID); [done|].
  destruct (Z.eqb_spec c SHOWANIMATIONS); [done|].
  destruct (Z.eqb_spec c DOCREATEHISTORY); [done|].
  by destruct (Z.eqb_spec c DRAWINFOPANEL).
Qed.

Lemma cells_option_range v : 5 ≤ cells_option v ≤ 250.
Proof.
  unfold cells_option. destruct (Z.ltb_spec v 5); [lia|].
  destruct (Z.ltb_spec 250 v); lia.
Qed.

Lemma parse_arg_spec atoi arg s s' :
  parse_arg atoi arg s = Go s' →
  Main.doCreateHistory s' = Main.doCreateHistory s ∧
  Main.useCairoPNGs s' = Main.useCairoPNGs s ∧
  String.prefix "-h" arg = false ∧
  (Main.cellsY s = Main.cellsX s → 5 ≤ Main.cellsX s ≤ 250 →
   Main.cellsY s' = Main.cellsX s' ∧ 5 ≤ Main.cellsX s' ≤ 250).
Proof.
  unfold parse_arg. destruct arg as [|c0 arg]; [by intros [= <-]|].
  change (String.get 0 (String c0 arg)) with (Some c0). cbv iota.
  destruct (Ascii.eqb_spec c0 "-") as [->|Hne]; cbn [negb].
  2: { intros [= <-]. split_and!; try done.
       cbn [String.prefix]. by destruct (Ascii.ascii_dec _ _). }
  pose proof (select_command_spec (String "-" arg)) as Hsel.
  destruct (select_command _) as [|c d]; [done|].
  destruct Hsel as (H5 & H8 & Hh).
  destruct ((c =? -1) || _); [by intros [= <-]|].
  destruct (c <=? MAXIMUMFITCELLS).
  { destruct (16 <? _)%nat; [done|].
    destruct (c =? CELLSXY); [|by intros [= <-]].
    destruct s. intros [= <-]. split_and!; try done.
    intros _ _. split; [done|apply cells_option_range]. }
  destruct (c =? USERANDOM); [destruct s; by intros [= <-]|].
  destruct (Z.eqb_spec c USECAIRO); [done|].
  destruct (String.get d (String "-" arg)) as [ch|]; [|by intros [= <-]].
  destruct (Ascii.eqb ch "1" || Ascii.eqb ch "t").
  { intros [= <-]. destruct (set_flag_spec c true s H5) as (-> & -> & -> & ->). done. }
  destruct (Ascii.eqb ch "0" || Ascii.eqb ch "f"); [|by intros [= <-]].
  intros [= <-]. destruct (set_flag_spec c false s H5) as (-> & -> & -> & ->). done.
Qed.

Lemma parse_args_spec atoi argv : ∀ s s',
  parse_args atoi argv s = Go s' →
  Main.doCreateHistory s' = Main.doCreateHistory s ∧
  Main.useCairoPNGs s' = Main.useCairoPNGs s ∧
  (∀ arg, arg ∈ argv → String.prefix "-h" arg = false) ∧
  (Main.cellsY s = Main.cellsX s → 5 ≤ Main.cellsX s ≤ 250 →
   Main.cellsY s' = Main.cellsX s' ∧ 5 ≤ Main.cellsX s' ≤ 250).
Proof.
  induction argv as [|arg argv IH]; intros s s'.
  - intros [= <-]. split_and!; try done. intros arg Hin. by apply elem_of_nil in Hin.
  - cbn [parse_args]. destruct (parse_arg atoi arg s) as [|s1|] eqn:Harg; try done.
    intros Hrest. destruct (parse_arg_spec _ _ _ _ Harg) as (Hh1 & Hc1 & Hp1 & Hx1).
    destruct (IH _ _ Hrest) as (Hh & Hc & Hp & Hx).
    split_and!; try congruence.
    + intros a Hin. apply elem_of_cons in Hin as [->|Hin]; auto.
    + intros Hsq Hr. destruct (Hx1 Hsq Hr). by apply Hx.
Qed.

(** X18. No command line sets [doCreateHistory] or [useCairoPNGs]: [-ht] is
    tested behind [-h] and ends the program with the help, [-cb] is tested
    behind [-c] and sets the number of cells. When the parser goes on to
    the game no argument started with [-h], the two settings are false as
    declared, and the board is a board of the program, square with a side
    from 5 to 250. The session the loop is entered with has an empty
    history and records the history exactly when the setting of the info
    panel, [-i], is on. *)
Theorem parse_args_commands (atoi : string → Z) (argv : list string)
    (st : Main.settings) :
  parse_args atoi argv default_settings = Go st →
  Main.doCreateHistory st = false ∧ Main.useCairoPNGs st = false ∧
  (∀ arg, arg ∈ argv → String.prefix "-h" arg = false) ∧
  Main.cellsY st = Main.cellsX st ∧ 5 ≤ Main.cellsX st ≤ 250 ∧
  wf_board (gameBoard (main_session st)) ∧
  gameHistory (main_session st) = empty_history ∧
  doRecordHistory (main_session st) = Main.drawInfoPanel st.
Proof.
  intros Hp. destruct (parse_args_spec _ _ _ _ Hp) as (Hh & Hc & Hpre & Hx).
  destruct Hx as [Hsq Hr]; [done|done|].
  split_and!; try done; try lia.
  apply init_board_wf; unfold INT_MAX; nia.
Qed.

Lemma parse_args_commands_witness :
  ∃ st, parse_args decimal ["cgol"; "-c30"; "-i1"; "-cb"; "-g0"]%string
          default_settings = Go st ∧
        parse_arg decimal "-ht1" default_settings = Exit ∧
        Main.doCreateHistory st = false ∧ Main.useCairoPNGs st = false ∧
        Main.drawInfoPanel st = true ∧ Main.drawGrid st = false ∧
        Main.cellsX st = 5 ∧ Main.cellsY st = 5 ∧
        doRecordHistory (main_session st) = true.
Proof.
  eexists (Main.mkSettings 5 5 false true false true false false).
  assert (parse_args decimal ["cgol"; "-c30"; "-i1"; "-cb"; "-g0"]%string
            default_settings
          = Go (Main.mkSettings 5 5 false true false true false false)) as Hp
    by (vm_compute; reflexivity).
  destruct (parse_args_commands _ _ _ Hp) as (Hh & Hc & _ & _ & _ & _ & _ & Hrec).
  split; [exact Hp|]. split; [vm_compute; reflexivity|].
  split; [exact Hh|]. split; [exact Hc|]. split_and!; try done.
Defined.

(** ** Sessions of the main loop *)

Lemma set_cells_id b : set_cells b (cells b) = b.
Proof. by destruct b. Qed.

Lemma addHistory_recorded h b bs :
  recorded h bs → Z.of_nat (length bs) ≤ turns b →
  Z.of_nat (length bs) < TURN_LIMIT →
  ∃ h', addHistory h b = (true, h') ∧ recorded h' (bs ++ [b]) ∧
        H.currentTurn h' = Z.of_nat (length bs).
Proof.
  intros [Hn Hd] Hle Hlim.
  rewrite addHistory_appended by lia. eexists. split; [reflexivity|].
  unfold recorded. simpl. rewrite Hn, Hd, Nat2Z.id, length_app, fmap_app. simpl.
  rewrite take_ge by (rewrite length_fmap; lia). split_and!; [lia|done|done].
Qed.

Lemma display_recorded h bs b c src :
  recorded h bs → bs !! c = Some src → wf_board src →
  coords (cells b) = coords (cells src) →
  historyDisplayTurn (set_currentTurn h (Z.of_nat c)) b
  = Some (true, set_cells b (cells src)).
Proof.
  intros [_ Hd] Hc Hwf Hco. apply historyDisplayTurn_record; auto.
  simpl. unfold turn_at. destruct (Z.leb_spec 0 (Z.of_nat c)); [|lia].
  by rewrite Nat2Z.id, Hd, list_lookup_fmap, Hc.
Qed.

Lemma session_inv_ledger s bs :
  session_inv s bs → Z.of_nat (length bs) ≤ turns (gameBoard s) + 1.
Proof.
  intros Hinv. destruct bs as [|b0 bs].
  - pose proof (wf_turns _ (inv_wf _ _ Hinv)). simpl. lia.
  - destruct (inv_boards _ _ Hinv 0%nat b0 eq_refl) as (Hwf & _ & Ht).
    pose proof (wf_turns _ Hwf). lia.
Qed.

(** Showing a recorded board keeps the state of the session. *)
Lemma session_inv_show s bs c src render :
  session_inv s bs → bs !! c = Some src →
  historyDisplayTurn (set_currentTurn (gameHistory s) (Z.of_nat c)) (gameBoard s)
  = Some (true, set_cells (gameBoard s) (cells src)) ∧
  session_inv (mkSession (set_cells (gameBoard s) (cells src))
                 (set_currentTurn (gameHistory s) (Z.of_nat c))
                 (doRecordHistory s) true (historyCreated s) render (doPause s))
              bs.
Proof.
  intros Hinv Hc. destruct (inv_boards _ _ Hinv _ _ Hc) as (Hwf & Hco & Ht).
  split. { apply (display_recorded _ bs); auto. apply Hinv. }
  pose proof Hinv as [Hwfb Hrec Hbs Hcr Hre Hin Hcu Hli].
  constructor; cbn [gameBoard gameHistory doRecordHistory isInHistory historyCreated].
  - destruct Hwfb. constructor; simpl; auto. by rewrite Hco.
  - destruct Hrec. by split.
  - intros i b Hi. destruct (Hbs i b Hi) as (? & Hcoi & ?).
    split_and!; auto. simpl. by rewrite Hco.
  - done.
  - done.
  - intros _ ->. done.
  - intros _. exists c, src. by split_and!.
  - intros L HL. exact (Hli L HL).
Qed.

(** A turn of the live game with its recording. *)
Lemma session_inv_live_step b h bs render pause :
  wf_board b → turns b + 1 < UINT_MAX → recorded h bs →
  (∀ i bi, bs !! i = Some bi →
     wf_board bi ∧ coords (cells bi) = coords (cells b) ∧
     turns bi + Z.of_nat (length bs) = turns b + Z.of_nat i + 1) →
  ∃ h', addHistory h (turn_of b false) = (true, h') ∧
        session_inv (mkSession (turn_of b false) h' true false true render pause)
                    (bs ++ [turn_of b false]).
Proof.
  intros Hwf Hlim Hrec Hbs. pose proof (wf_turns _ Hwf) as Ht.
  assert (Z.of_nat (length bs) ≤ turns b + 1) as Hled.
  { destruct bs as [|b0 bs]; [simpl; lia|].
    destruct (Hbs 0%nat b0 eq_refl) as (Hwf0 & _ & Ht0).
    pose proof (wf_turns _ Hwf0). lia. }
  pose proof (turn_of_turns b ltac:(lia) ltac:(lia)) as Htt.
  destruct (addHistory_recorded h (turn_of b false) bs Hrec) as (h' & Hadd & Hrec' & Hcur);
    [lia|unfold TURN_LIMIT; lia|].
  exists h'. split; [exact Hadd|].
  constructor; cbn [gameBoard gameHistory doRecordHistory isInHistory historyCreated].
  - by apply turn_of_wf.
  - exact Hrec'.
  - intros i bi Hi. rewrite length_app. cbn [length].
    apply lookup_app_Some in Hi as [Hi|[Hge Hi]].
    + destruct (Hbs i bi Hi) as (? & ? & ?). rewrite turn_of_coords.
      split_and!; auto. lia.
    + apply list_lookup_singleton_Some in Hi as [Hz <-].
      split_and!; [by apply turn_of_wf|done|lia].
  - symmetry. apply bool_decide_eq_true_2. by destruct bs.
  - done.
  - done.
  - intros _. exists (length bs), (turn_of b false). split_and!; try done.
    + by rewrite list_lookup_middle.
    + intros _. rewrite length_app. simpl. lia.
  - intros L. rewrite last_snoc. intros [= <-]. by rewrite set_cells_id.
Qed.

Lemma session_inv_cursor s bs :
  session_inv s bs → bs ≠ [] →
  ∃ c b, H.currentTurn (gameHistory s) = Z.of_nat c ∧ bs !! c = Some b ∧
         cells (gameBoard s) = cells b ∧ (c < length bs)%nat ∧
         H.turns (gameHistory s) = Z.of_nat (length bs) ∧
         (isInHistory s = false → S c = length bs).
Proof.
  intros Hinv Hne. destruct (inv_cursor _ _ Hinv Hne) as (c & b & Hc & Hb & Hcs & Hl).
  exists c, b. split_and!; auto.
  - by apply lookup_lt_Some in Hb.
  - apply Hinv.
Qed.

(** Outside the history mode, or with the cursor on the last record, the
    board of the session is the board of the live game. *)
Lemma session_inv_last s bs c :
  session_inv s bs → H.currentTurn (gameHistory s) = Z.of_nat c →
  S c = length bs → last bs = Some (gameBoard s).
Proof.
  intros Hinv Hc Hl.
  destruct (inv_cursor _ _ Hinv) as (c' & b & Hc' & Hb & Hcs & _).
  { intros ->. simpl in Hl. lia. }
  assert (c' = c) as -> by lia.
  assert (last bs = Some b) as Hlast.
  { rewrite last_lookup. rewrite <- Hb. f_equal. lia. }
  rewrite Hlast. f_equal. rewrite (inv_live _ _ Hinv b Hlast), <- Hcs.
  by rewrite set_cells_id.
Qed.

(** A turn of the main loop keeps the state of the session and leaves the
    recording on. *)
Lemma game_turn_inv s bs :
  session_inv s bs → turns (gameBoard s) + 1 < UINT_MAX →
  ∃ s' bs', game_turn s = Some s' ∧ session_inv s' bs' ∧
            doRecordHistory s' = doRecordHistory s ∧
            turns (gameBoard s') ≤ turns (gameBoard s) + 1.
Proof.
  intros Hinv Hlim. pose proof (inv_wf _ _ Hinv) as Hwf.
  pose proof (wf_turns _ Hwf) as Ht.
  pose proof (session_inv_ledger _ _ Hinv) as Hled.
  pose proof (turn_of_turns (gameBoard s) ltac:(lia) ltac:(lia)) as Htt.
  unfold game_turn.
  destruct (doRender s && negb (doPause s) && negb (livingCells (gameBoard s) =? 0));
    [|exists s, bs; split_and!; auto; lia].
  destruct (doRecordHistory s) eqn:Hrec.
  - destruct (isInHistory s) eqn:Hin.
    + cbn [andb negb].
      destruct (session_inv_cursor _ _ Hinv (inv_in _ _ Hinv Hin))
        as (c & bc & Hc & Hbc & Hcs & Hlt & Hn & _).
      rewrite Hc, Hn.
      rewrite (u32_small (Z.of_nat (length bs) - 1)) by (unfold UINT_MAX in *; lia).
      destruct (Z.eqb_spec (Z.of_nat c) (Z.of_nat (length bs) - 1)) as [Hend|Hmid].
      * cbn [mbind option_bind negb]. rewrite applyTurn_wf by done.
        cbn [mbind option_bind].
        destruct (session_inv_live_step (gameBoard s) (gameHistory s) bs
                    (if isDirty (turn_of (gameBoard s) false) then doRender s else false)
                    (doPause s) Hwf Hlim (inv_recorded _ _ Hinv) (inv_boards _ _ Hinv))
          as (h' & -> & Hinv').
        rewrite (inv_created _ _ Hinv), bool_decide_eq_true_2
          by (intros ->; simpl in Hlt; lia).
        eexists _, _. split; [reflexivity|]. split; [exact Hinv'|].
        split; [done|]. cbn [gameBoard]. lia.
      * unfold historyForwards. rewrite Hc, Hn.
        rewrite (u32_small (Z.of_nat (length bs) - 1)) by (unfold UINT_MAX in *; lia).
        destruct (Z.eqb_spec (Z.of_nat c) (turns (gameBoard s))); [lia|].
        destruct (Z.eqb_spec (Z.of_nat (length bs)) 0); [lia|].
        destruct (Z.eqb_spec (Z.of_nat c) (Z.of_nat (length bs) - 1)); [lia|].
        cbn [orb].
        rewrite (u32_small (Z.of_nat c + 1)) by (unfold UINT_MAX in *; lia).
        replace (Z.of_nat c + 1) with (Z.of_nat (S c)) by lia.
        destruct (lookup_lt_is_Some_2 bs (S c)) as [src Hsrc]; [lia|].
        destruct (session_inv_show s bs (S c) src
                    (if isDirty (gameBoard s) then doRender s else false) Hinv Hsrc)
          as [-> Hinv'].
        cbn [mbind option_bind negb].
        eexists _, _. split; [reflexivity|]. rewrite Hrec in Hinv'.
        split; [exact Hinv'|]. split; [done|]. cbn [gameBoard set_cells turns]. lia.
    + destruct (historyCreated s) eqn:Hcr.
      * cbn [andb negb mbind option_bind]. rewrite applyTurn_wf by done.
        cbn [mbind option_bind].
        destruct (session_inv_live_step (gameBoard s) (gameHistory s) bs
                    (if isDirty (turn_of (gameBoard s) false) then doRender s else false)
                    (doPause s) Hwf Hlim (inv_recorded _ _ Hinv) (inv_boards _ _ Hinv))
          as (h' & -> & Hinv').
        eexists _, _. split; [reflexivity|]. split; [exact Hinv'|].
        split; [done|]. cbn [gameBoard]. lia.
      * cbn [andb negb].
        assert (bs = []) as ->.
        { rewrite (inv_created _ _ Hinv) in Hcr.
          apply bool_decide_eq_false_1 in Hcr. by destruct bs; [|exfalso; apply Hcr]. }
        destruct (addHistory_recorded (gameHistory s) (gameBoard s) []
                    (inv_recorded _ _ Hinv)) as (h1 & -> & Hrec1 & _);
          [simpl; lia|unfold TURN_LIMIT, UINT_MAX; simpl; lia|].
        cbn [mbind option_bind negb]. rewrite applyTurn_wf by done.
        cbn [mbind option_bind].
        destruct (session_inv_live_step (gameBoard s) h1 [gameBoard s]
                    (if isDirty (turn_of (gameBoard s) false) then doRender s else false)
                    (doPause s) Hwf Hlim Hrec1) as (h' & -> & Hinv').
        { intros i bi Hi. apply list_lookup_singleton_Some in Hi as [-> <-].
          split_and!; try done. simpl. lia. }
        eexists _, _. split; [reflexivity|]. split; [exact Hinv'|].
        split; [done|]. cbn [gameBoard]. lia.
  - assert (bs = []) as -> by (by apply (inv_record _ _ Hinv)).
    assert (isInHistory s = false) as Hin.
    { destruct (isInHistory s) eqn:Hin; [|done]. by destruct (inv_in _ _ Hinv Hin). }
    rewrite Hin. cbn [andb negb mbind option_bind]. rewrite applyTurn_wf by done.
    cbn [mbind option_bind].
    eexists _, []. split; [reflexivity|]. split; [|split; [done|cbn [gameBoard]; lia]].
    pose proof Hinv as [_ Hr _ Hcr _ _ _ _].
    constructor; cbn [gameBoard gameHistory doRecordHistory isInHistory historyCreated];
      try done.
    by apply turn_of_wf.
Qed.

Lemma session_inv_nonempty s bs :
  session_inv s bs → historyCreated s = true → bs ≠ [].
Proof.
  intros Hinv Hcr. rewrite (inv_created _ _ Hinv) in Hcr.
  by apply bool_decide_eq_true_1 in Hcr.
Qed.

Lemma session_inv_records s bs :
  session_inv s bs → isInHistory s = true →
  doRecordHistory s = true ∧ historyCreated s = true.
Proof.
  intros Hinv Hin. pose proof (inv_in _ _ Hinv Hin) as Hne. split.
  - destruct (doRecordHistory s) eqn:Hr; [done|]. by destruct (inv_record _ _ Hinv Hr).
  - rewrite (inv_created _ _ Hinv). by apply bool_decide_eq_true_2.
Qed.

Lemma key_comma_inv s bs :
  session_inv s bs →
  ∃ s', key_comma s = Some s' ∧ session_inv s' bs ∧
        doRecordHistory s' = doRecordHistory s ∧
        turns (gameBoard s') = turns (gameBoard s).
Proof.
  intros Hinv. unfold key_comma.
  destruct (historyCreated s) eqn:Hcr; [|by exists s].
  destruct (session_inv_cursor _ _ Hinv (session_inv_nonempty _ _ Hinv Hcr))
    as (c & bc & Hc & Hbc & Hcs & Hlt & Hn & _).
  pose proof (session_inv_ledger _ _ Hinv) as Hled.
  pose proof (wf_turns _ (inv_wf _ _ Hinv)) as Ht.
  unfold historyBackwards. rewrite Hc, Hn. destruct c as [|c].
  - cbn [Z.of_nat Z.eqb orb mbind option_bind]. eexists. split; [reflexivity|].
    split; [|done]. rewrite <- Hcr. by destruct s.
  - destruct (Z.eqb_spec (Z.of_nat (S c)) 0); [lia|].
    destruct (Z.eqb_spec (Z.of_nat (length bs)) 0); [lia|]. cbn [orb].
    replace (u32 (Z.of_nat (S c) - 1)) with (Z.of_nat c)
      by (rewrite u32_small; unfold UINT_MAX in *; lia).
    destruct (lookup_lt_is_Some_2 bs c) as [src Hsrc]; [lia|].
    destruct (session_inv_show s bs c src (doRender s) Hinv Hsrc) as [-> Hinv'].
    cbn [mbind option_bind orb]. eexists. split; [reflexivity|].
    rewrite Hcr in Hinv'. by split.
Qed.

Lemma key_period_inv s bs :
  session_inv s bs → turns (gameBoard s) + 1 < UINT_MAX →
  ∃ s', key_period s = Some s' ∧ session_inv s' bs ∧
        doRecordHistory s' = doRecordHistory s ∧
        turns (gameBoard s') = turns (gameBoard s).
Proof.
  intros Hinv Hlim. unfold key_period.
  destruct (historyCreated s) eqn:Hcr; [|by exists s].
  destruct (session_inv_cursor _ _ Hinv (session_inv_nonempty _ _ Hinv Hcr))
    as (c & bc & Hc & Hbc & Hcs & Hlt & Hn & _).
  pose proof (session_inv_ledger _ _ Hinv) as Hled.
  pose proof (wf_turns _ (inv_wf _ _ Hinv)) as Ht.
  unfold historyForwards. rewrite Hc, Hn.
  rewrite (u32_small (Z.of_nat (length bs) - 1)) by (unfold UINT_MAX in *; lia).
  destruct (Z.eqb_spec (Z.of_nat c) (Z.of_nat (length bs) - 1)) as [Hend|Hmid].
  - rewrite orb_true_r. cbn [mbind option_bind]. rewrite Hc, Hn.
    rewrite (u32_small (Z.of_nat (length bs) - 1)) by (unfold UINT_MAX in *; lia).
    destruct (Z.eqb_spec (Z.of_nat c) (Z.of_nat (length bs) - 1)); [|lia].
    eexists. split; [reflexivity|]. split; [|done].
    pose proof Hinv as [Hwfb Hrec Hbs Hcr' Hre Hin Hcu Hli].
    constructor; cbn [gameBoard gameHistory doRecordHistory isInHistory historyCreated];
      try done; try congruence.
    intros _. exists c, bc. split_and!; try done. intros _. lia.
  - destruct (Z.eqb_spec (Z.of_nat c) (turns (gameBoard s))); [lia|].
    destruct (Z.eqb_spec (Z.of_nat (length bs)) 0); [lia|]. cbn [orb].
    rewrite (u32_small (Z.of_nat c + 1)) by (unfold UINT_MAX in *; lia).
    replace (Z.of_nat c + 1) with (Z.of_nat (S c)) by lia.
    destruct (lookup_lt_is_Some_2 bs (S c)) as [src Hsrc]; [lia|].
    destruct (session_inv_show s bs (S c) src (doRender s) Hinv Hsrc) as [-> Hinv'].
    cbn [mbind option_bind]. eexists. split; [reflexivity|].
    rewrite Hcr in Hinv'. by split.
Qed.

Lemma clearHistory_recorded h bs : recorded h bs → recorded (clearHistory h).2 [].
Proof.
  intros [Hn Hd]. unfold clearHistory.
  destruct (H.turnData h) eqn:Hdata; [|done].
  symmetry in Hd. apply fmap_nil_inv in Hd as ->. by split.
Qed.

Lemma set_turns_wf b t : wf_board b → 0 ≤ t ≤ UINT_MAX → wf_board (set_turns b t).
Proof. intros [? ? ? ? ? ? ?] Ht. by constructor. Qed.

Lemma key_h_inv s bs :
  session_inv s bs →
  ∃ bs', session_inv (key_h s) bs' ∧
         turns (gameBoard (key_h s)) ≤ turns (gameBoard s).
Proof.
  intros Hinv. pose proof Hinv as [Hwfb Hrec Hbs Hcr Hre Hin Hcu Hli].
  pose proof (session_inv_ledger _ _ Hinv) as Hled.
  pose proof (wf_turns _ Hwfb) as Ht.
  unfold key_h. destruct (doRecordHistory s) eqn:Hdo; cbn [negb].
  - exists []. split.
    + constructor; cbn [gameBoard gameHistory doRecordHistory isInHistory historyCreated];
        try done.
      * destruct (isInHistory s) eqn:Hi; [|done].
        destruct (session_inv_cursor _ _ Hinv (inv_in _ _ Hinv Hi))
          as (c & bc & Hc & Hbc & Hcs & Hlt & Hn & _).
        apply set_turns_wf; [done|]. rewrite Hc, Hn.
        rewrite (u32_small (Z.of_nat (length bs) - 1)) by (unfold UINT_MAX in *; lia).
        rewrite (u32_small (Z.of_nat (length bs) - 1 - Z.of_nat c))
          by (unfold UINT_MAX in *; lia).
        rewrite u32_small; unfold UINT_MAX in *; lia.
      * by apply (clearHistory_recorded _ bs).
    + cbn [gameBoard]. destruct (isInHistory s) eqn:Hi; [|lia].
      destruct (session_inv_cursor _ _ Hinv (inv_in _ _ Hinv Hi))
        as (c & bc & Hc & Hbc & Hcs & Hlt & Hn & _).
      cbn [set_turns turns]. rewrite Hc, Hn.
      rewrite (u32_small (Z.of_nat (length bs) - 1)) by (unfold UINT_MAX in *; lia).
      rewrite (u32_small (Z.of_nat (length bs) - 1 - Z.of_nat c))
        by (unfold UINT_MAX in *; lia).
      rewrite u32_small; unfold UINT_MAX in *; lia.
  - exists bs. split; [|cbn [gameBoard]; lia].
    constructor; cbn [gameBoard gameHistory doRecordHistory isInHistory historyCreated];
      try done.
Qed.

Lemma key_c_inv s bs :
  session_inv s bs →
  session_inv (key_c s) [] ∧ doRecordHistory (key_c s) = doRecordHistory s ∧
  turns (gameBoard (key_c s)) = 0.
Proof.
  intros Hinv. pose proof Hinv as [Hwfb Hrec Hbs Hcr Hre Hin Hcu Hli].
  split; [|done].
  constructor; cbn [key_c gameBoard gameHistory doRecordHistory isInHistory historyCreated];
    try done.
  - by apply resetPlayboard_wf.
  - destruct (doRecordHistory s) eqn:Hdo.
    + by apply (clearHistory_recorded _ bs).
    + by rewrite (Hre eq_refl) in Hrec.
Qed.

Lemma key_space_inv s bs :
  session_inv s bs →
  session_inv (key_space s) bs ∧ doRecordHistory (key_space s) = doRecordHistory s ∧
  gameBoard (key_space s) = gameBoard s.
Proof.
  intros Hinv. unfold key_space.
  destruct (doPause s && (livingCells (gameBoard s) =? 0)); [done|].
  split; [|done]. by destruct Hinv.
Qed.

(** Every event of the session keeps its state, and only the key [h]
    changes the recording. *)
Lemma handle_inv ev s bs :
  session_inv s bs → turns (gameBoard s) + 1 < UINT_MAX →
  ∃ s' bs', handle ev s = Some s' ∧ session_inv s' bs' ∧
            (ev ≠ KeyH → doRecordHistory s' = doRecordHistory s) ∧
            turns (gameBoard s') ≤ turns (gameBoard s) + 1.
Proof.
  intros Hinv Hlim. destruct ev; cbn [handle].
  - destruct (game_turn_inv s bs Hinv Hlim) as (s' & bs' & ? & ? & ? & ?).
    by exists s', bs'.
  - destruct (key_comma_inv s bs Hinv) as (s' & ? & ? & ? & ?).
    exists s', bs. split_and!; auto. lia.
  - destruct (key_period_inv s bs Hinv Hlim) as (s' & ? & ? & ? & ?).
    exists s', bs. split_and!; auto. lia.
  - destruct (key_h_inv s bs Hinv) as (bs' & ? & ?).
    exists (key_h s), bs'. split_and!; auto; [done|lia].
  - destruct (key_c_inv s bs Hinv) as (? & ? & Ht).
    pose proof (wf_turns _ (inv_wf _ _ Hinv)).
    exists (key_c s), []. split_and!; auto. rewrite Ht. lia.
  - destruct (key_space_inv s bs Hinv) as (? & ? & Hb).
    exists (key_space s), bs. split_and!; auto. rewrite Hb. lia.
Qed.

(** Every sequence of events keeps the state of the session. *)
Lemma run_inv (evs : list event) : ∀ s bs,
  session_inv s bs → turns (gameBoard s) + Z.of_nat (length evs) < UINT_MAX →
  ∃ s' bs', run evs s = Some s' ∧ session_inv s' bs' ∧
            (KeyH ∉ evs → doRecordHistory s' = doRecordHistory s) ∧
            turns (gameBoard s') ≤ turns (gameBoard s) + Z.of_nat (length evs).
Proof.
  induction evs as [|ev evs IH]; intros s bs Hinv Hlim.
  - exists s, bs. split_and!; auto. simpl. lia.
  - cbn [run length] in *.
    destruct (handle_inv ev s bs Hinv) as (s1 & bs1 & -> & Hinv1 & Hrec1 & Ht1); [lia|].
    destruct (IH s1 bs1 Hinv1) as (s' & bs' & Hrun & Hinv' & Hrec' & Ht'); [lia|].
    exists s', bs'. cbn [mbind option_bind]. split_and!; auto; [|lia].
    intros Hnot. apply not_elem_of_cons in Hnot as [Hne Hnot].
    rewrite Hrec', Hrec1; auto.
Qed.

Lemma fresh_session_inv b record render pause :
  wf_board b → session_inv (fresh_session b record render pause) [].
Proof. intros Hwf. by constructor. Qed.

(** The sessions reached from a fresh one. *)
Lemma reachable_inv evs b record render pause s :
  wf_board b → turns b + Z.of_nat (length evs) < UINT_MAX →
  run evs (fresh_session b record render pause) = Some s →
  ∃ bs, session_inv s bs ∧ turns (gameBoard s) ≤ turns b + Z.of_nat (length evs).
Proof.
  intros Hwf Hlim Hrun.
  destruct (run_inv evs _ [] (fresh_session_inv b record render pause Hwf) Hlim)
    as (s' & bs & Hrun' & Hinv & _ & Ht).
  rewrite Hrun in Hrun'. injection Hrun' as <-. by exists bs.
Qed.

(** X19. From a session in which nothing is recorded, every sequence of turns of
    the loop and of the keys [,], [.], [h], [c] and space is handled without
    an access outside an array. The recording of the history is switched by
    the key [h] only: [addHistory] never refuses a turn of the loop, so the
    loop never disables the recording, as long as the turn counter stays
    below its limit. The history holds at most one turn more than the turn
    counter counts, the history mode is entered only with the recording on
    and a first snapshot made, and with the recording off the history is
    empty. *)
Theorem session_keeps_recording (evs : list event) (b : playBoard)
    (record render pause : bool) :
  wf_board b → turns b + Z.of_nat (length evs) < UINT_MAX →
  ∃ s', run evs (fresh_session b record render pause) = Some s' ∧
        wf_board (gameBoard s') ∧
        (KeyH ∉ evs → doRecordHistory s' = record) ∧
        H.turns (gameHistory s') = Z.of_nat (length (H.turnData (gameHistory s'))) ∧
        H.turns (gameHistory s') ≤ turns (gameBoard s') + 1 ∧
        (isInHistory s' = true →
         doRecordHistory s' = true ∧ historyCreated s' = true) ∧
        (doRecordHistory s' = false → H.turnData (gameHistory s') = []).
Proof.
  intros Hwf Hlim.
  destruct (run_inv evs _ [] (fresh_session_inv b record render pause Hwf) Hlim)
    as (s' & bs & Hrun & Hinv & Hrec & Ht).
  exists s'. destruct (inv_recorded _ _ Hinv) as [Hn Hd].
  split_and!; auto.
  - apply Hinv.
  - by rewrite Hn, Hd, length_fmap.
  - rewrite Hn. by apply session_inv_ledger.
  - by apply (session_inv_records _ bs).
  - intros Hoff. by rewrite Hd, (inv_record _ _ Hinv Hoff).
Qed.

Lemma session_keeps_recording_witness :
  wf_board blinker_h ∧
  ∃ s', run [Turn; Turn; Comma; Comma; Turn; Turn; Turn; Space; KeyC] blinker_session
        = Some s' ∧ doRecordHistory s' = true.
Proof.
  assert (wf_board blinker_h) as Hwf by wf_by_compute.
  split; [exact Hwf|].
  destruct (session_keeps_recording
              [Turn; Turn; Comma; Comma; Turn; Turn; Turn; Space; KeyC]
              blinker_h true true false Hwf) as (s' & Hrun & _ & Hrec & _).
  { vm_compute. reflexivity. }
  exists s'. split; [exact Hrun|]. apply Hrec.
  intros Hin. repeat (apply elem_of_cons in Hin as [Hin|Hin]; [discriminate|]).
  by apply elem_of_nil in Hin.
Defined.

(** ** Replaying the history and resuming the game *)

Lemma at_cursor_inv s bs j src :
  session_inv s bs → bs !! j = Some src → session_inv (at_cursor s j src) bs.
Proof. intros Hinv Hj. by apply (session_inv_show s bs j src (doRender s)). Qed.

(** The key [,] with the cursor behind the first record. *)
Lemma key_comma_at s bs j src :
  session_inv s bs → historyCreated s = true →
  H.currentTurn (gameHistory s) = Z.of_nat (S j) → bs !! j = Some src →
  key_comma s = Some (at_cursor s j src).
Proof.
  intros Hinv Hcr Hc Hsrc. unfold key_comma. rewrite Hcr.
  destruct (session_inv_cursor _ _ Hinv (session_inv_nonempty _ _ Hinv Hcr))
    as (c & bc & Hc' & Hbc & Hcs & Hlt & Hn & _).
  pose proof (session_inv_ledger _ _ Hinv) as Hled.
  pose proof (wf_turns _ (inv_wf _ _ Hinv)) as Ht.
  unfold historyBackwards. rewrite Hc, Hn.
  destruct (Z.eqb_spec (Z.of_nat (S j)) 0); [lia|].
  destruct (Z.eqb_spec (Z.of_nat (length bs)) 0); [lia|]. cbn [orb].
  replace (u32 (Z.of_nat (S j) - 1)) with (Z.of_nat j)
    by (rewrite u32_small; unfold UINT_MAX in *; lia).
  destruct (session_inv_show s bs j src (doRender s) Hinv Hsrc) as [-> _].
  cbn [mbind option_bind orb]. unfold at_cursor. by rewrite Hcr.
Qed.

(** A turn of the loop with the cursor before the last record. *)
Lemma game_turn_at s bs j src :
  session_inv s bs → isInHistory s = true →
  doRender s = true → doPause s = false → livingCells (gameBoard s) ≠ 0 →
  isDirty (gameBoard s) = true → turns (gameBoard s) + 1 < UINT_MAX →
  H.currentTurn (gameHistory s) = Z.of_nat j → bs !! S j = Some src →
  game_turn s = Some (at_cursor s (S j) src).
Proof.
  intros Hinv Hin Hrender Hpause Hliving Hdirty Hlim Hc Hsrc.
  destruct (session_inv_records _ _ Hinv Hin) as [Hrec Hcr].
  pose proof (session_inv_ledger _ _ Hinv) as Hled.
  pose proof (wf_turns _ (inv_wf _ _ Hinv)) as Ht.
  pose proof (proj1 (inv_recorded _ _ Hinv)) as Hn.
  pose proof (lookup_lt_Some _ _ _ Hsrc) as Hlt.
  unfold game_turn. rewrite Hrender, Hpause, Hrec, Hin, Hcr.
  destruct (Z.eqb_spec (livingCells (gameBoard s)) 0); [done|].
  cbn [andb negb]. rewrite Hc, Hn.
  rewrite (u32_small (Z.of_nat (length bs) - 1)) by (unfold UINT_MAX in *; lia).
  destruct (Z.eqb_spec (Z.of_nat j) (Z.of_nat (length bs) - 1)); [lia|].
  unfold historyForwards. rewrite Hc, Hn.
  rewrite (u32_small (Z.of_nat (length bs) - 1)) by (unfold UINT_MAX in *; lia).
  destruct (Z.eqb_spec (Z.of_nat j) (turns (gameBoard s))); [lia|].
  destruct (Z.eqb_spec (Z.of_nat (length bs)) 0); [lia|].
  destruct (Z.eqb_spec (Z.of_nat j) (Z.of_nat (length bs) - 1)); [lia|].
  cbn [orb].
  rewrite (u32_small (Z.of_nat j + 1)) by (unfold UINT_MAX in *; lia).
  replace (Z.of_nat j + 1) with (Z.of_nat (S j)) by lia.
  destruct (session_inv_show s bs (S j) src (doRender s) Hinv Hsrc) as [-> _].
  cbn [mbind option_bind negb]. unfold at_cursor.
  cbn [set_cells isDirty]. by rewrite Hdirty, Hrender, Hrec, Hcr, Hpause.
Qed.

(** A turn of the loop outside the history mode or with the cursor on the
    last record: the game goes on from the live board. *)
Lemma game_turn_live s bs :
  session_inv s bs → doRecordHistory s = true → historyCreated s = true →
  doRender s = true → doPause s = false → livingCells (gameBoard s) ≠ 0 →
  turns (gameBoard s) + 1 < UINT_MAX →
  Z.of_nat (length bs) = H.currentTurn (gameHistory s) + 1 →
  game_turn s
  = Some (mkSession (turn_of (gameBoard s) false)
            (addHistory (gameHistory s) (turn_of (gameBoard s) false)).2
            true false true
            (if isDirty (turn_of (gameBoard s) false) then true else false)
            false).
Proof.
  intros Hinv Hrec Hcr Hrender Hpause Hliving Hlim Hc.
  pose proof (inv_wf _ _ Hinv) as Hwf.
  pose proof (session_inv_ledger _ _ Hinv) as Hled.
  pose proof (wf_turns _ Hwf) as Ht.
  pose proof (proj1 (inv_recorded _ _ Hinv)) as Hn.
  destruct (session_inv_live_step (gameBoard s) (gameHistory s) bs true false
              Hwf Hlim (inv_recorded _ _ Hinv) (inv_boards _ _ Hinv))
    as (h' & Hadd & _).
  destruct (session_inv_cursor _ _ Hinv (session_inv_nonempty _ _ Hinv Hcr))
    as (c & _ & Hc' & _ & _ & Hlt & _ & _).
  unfold game_turn. rewrite Hrender, Hpause, Hrec, Hcr.
  destruct (Z.eqb_spec (livingCells (gameBoard s)) 0); [done|].
  cbn [andb negb]. rewrite andb_false_r.
  destruct (isInHistory s).
  - rewrite Hn.
    rewrite (u32_small (Z.of_nat (length bs) - 1)) by (unfold UINT_MAX in *; lia).
    destruct (Z.eqb_spec (H.currentTurn (gameHistory s)) (Z.of_nat (length bs) - 1));
      [|lia].
    cbn [mbind option_bind negb]. rewrite applyTurn_wf by done.
    cbn [mbind option_bind]. by rewrite Hadd.
  - cbn [mbind option_bind negb]. rewrite applyTurn_wf by done.
    cbn [mbind option_bind]. by rewrite Hadd.
Qed.

Lemma at_cursor_at_cursor s j src j' src' :
  at_cursor (at_cursor s j src) j' src' = at_cursor s j' src'.
Proof. reflexivity. Qed.

(** [S k] times the key [,] from a cursor at [j], [S k] at most. *)
Lemma run_commas bs k : ∀ s j,
  session_inv s bs → historyCreated s = true →
  H.currentTurn (gameHistory s) = Z.of_nat j → (S k ≤ j)%nat →
  ∃ src, bs !! (j - S k)%nat = Some src ∧
         run (replicate (S k) Comma) s = Some (at_cursor s (j - S k) src).
Proof.
  induction k as [|k IH]; intros s j Hinv Hcr Hc Hk.
  - destruct (session_inv_cursor _ _ Hinv (session_inv_nonempty _ _ Hinv Hcr))
      as (c & _ & Hc' & _ & _ & Hlt & _ & _).
    destruct (lookup_lt_is_Some_2 bs (j - 1)) as [src Hsrc]; [lia|].
    exists src. split; [done|]. cbn [replicate run handle].
    assert (H.currentTurn (gameHistory s) = Z.of_nat (S (j - 1))) as Hc1
      by (rewrite Hc; f_equal; lia).
    by rewrite (key_comma_at s bs (j - 1) src Hinv Hcr Hc1 Hsrc).
  - destruct (session_inv_cursor _ _ Hinv (session_inv_nonempty _ _ Hinv Hcr))
      as (c & _ & Hc' & _ & _ & Hlt & _ & _).
    destruct (lookup_lt_is_Some_2 bs (j - 1)) as [src1 Hsrc1]; [lia|].
    destruct (IH (at_cursor s (j - 1) src1) (j - 1)%nat) as (src & Hsrc & Hrun);
      [by apply at_cursor_inv|done|done|lia|].
    exists src. replace (j - S (S k))%nat with (j - 1 - S k)%nat by lia.
    split; [done|].
    change (replicate (S (S k)) Comma) with (Comma :: replicate (S k) Comma).
    assert (H.currentTurn (gameHistory s) = Z.of_nat (S (j - 1))) as Hc1
      by (rewrite Hc; f_equal; lia).
    cbn [run handle]. rewrite (key_comma_at s bs (j - 1) src1 Hinv Hcr Hc1 Hsrc1).
    cbn [mbind option_bind]. by rewrite Hrun.
Qed.

(** [S m] turns of the loop in the history mode from a cursor at [j], with
    [j + S m] records at least before the last. *)
Lemma run_replay bs m : ∀ s j,
  session_inv s bs → isInHistory s = true →
  doRender s = true → doPause s = false → livingCells (gameBoard s) ≠ 0 →
  isDirty (gameBoard s) = true → turns (gameBoard s) + 1 < UINT_MAX →
  H.currentTurn (gameHistory s) = Z.of_nat j → (j + S m < length bs)%nat →
  ∃ src, bs !! (j + S m)%nat = Some src ∧
         run (replicate (S m) Turn) s = Some (at_cursor s (j + S m) src).
Proof.
  induction m as [|m IH]; intros s j Hinv Hin Hrender Hpause Hliving Hdirty Hlim Hc Hm.
  - destruct (lookup_lt_is_Some_2 bs (S j)) as [src Hsrc]; [lia|].
    exists src. replace (j + 1)%nat with (S j) by lia. split; [done|].
    cbn [replicate run handle]. by rewrite (game_turn_at s bs j src).
  - destruct (lookup_lt_is_Some_2 bs (S j)) as [src1 Hsrc1]; [lia|].
    destruct (IH (at_cursor s (S j) src1) (S j)) as (src & Hsrc & Hrun);
      try done; [by apply at_cursor_inv|lia|].
    exists src. replace (j + S (S m))%nat with (S j + S m)%nat by lia.
    split; [done|].
    change (replicate (S (S m)) Turn) with (Turn :: replicate (S m) Turn).
    cbn [run handle].
    rewrite (game_turn_at s bs j src1 Hinv Hin Hrender Hpause Hliving Hdirty Hlim Hc Hsrc1).
    cbn [mbind option_bind]. by rewrite Hrun.
Qed.

Lemma run_app evs1 evs2 s : run (evs1 ++ evs2) s = run evs1 s ≫= run evs2.
Proof.
  revert s. induction evs1 as [|ev evs1 IH]; intros s; [done|].
  cbn [app run]. destruct (handle ev s) as [s1|]; [|done].
  cbn [mbind option_bind]. apply IH.
Qed.

Lemma replay_resumes_inv (s : session) (bs : list playBoard) (k : nat) :
  session_inv s bs → isInHistory s = false → historyCreated s = true →
  doRender s = true → doPause s = false → livingCells (gameBoard s) ≠ 0 →
  isDirty (gameBoard s) = true → (k < length bs)%nat →
  turns (gameBoard s) + 1 < UINT_MAX →
  ∃ s', run [Turn] s = Some s' ∧
        run (replicate k Comma ++ replicate (S k) Turn) s = Some s' ∧
        gameBoard s' = turn_of (gameBoard s) false ∧
        isInHistory s' = false ∧ doRecordHistory s' = true ∧
        H.turns (gameHistory s') = H.turns (gameHistory s) + 1.
Proof.
  intros Hinv Hin Hcr Hrender Hpause Hliving Hdirty Hk Hlim.
  pose proof (session_inv_nonempty _ _ Hinv Hcr) as Hne.
  assert (doRecordHistory s = true) as Hrec.
  { destruct (doRecordHistory s) eqn:Hr; [done|]. by destruct (inv_record _ _ Hinv Hr). }
  destruct (session_inv_cursor _ _ Hinv Hne) as (c & bc & Hc & Hbc & Hcs & Hlt & Hn & Hl).
  specialize (Hl Hin).
  pose proof (inv_wf _ _ Hinv) as Hwf.
  pose proof (game_turn_live s bs Hinv Hrec Hcr Hrender Hpause Hliving Hlim
                ltac:(lia)) as Hlive.
  eexists. split; [cbn [run handle]; rewrite Hlive; reflexivity|].
  split_and!; try done.
  - destruct k as [|k]; [cbn [replicate app run handle]; by rewrite Hlive|].
    rewrite run_app.
    destruct (run_commas bs k s c Hinv Hcr Hc) as (src1 & Hsrc1 & ->); [lia|].
    cbn [mbind option_bind].
    replace (S (S k)) with (S k + 1)%nat by lia.
    rewrite replicate_add, run_app.
    destruct (run_replay bs k (at_cursor s (c - S k) src1) (c - S k)%nat)
      as (src2 & Hsrc2 & ->); try done; [by apply at_cursor_inv|lia|].
    cbn [mbind option_bind]. rewrite at_cursor_at_cursor.
    replace (c - S k + S k)%nat with c in * by lia.
    assert (src2 = gameBoard s) as ->.
    { pose proof (session_inv_last s bs c Hinv Hc Hl) as Hlast.
      rewrite last_lookup in Hlast.
      replace (Nat.pred (length bs)) with c in Hlast by lia. congruence. }
    cbn [replicate run handle].
    rewrite (game_turn_live (at_cursor s c (gameBoard s)) bs); try done.
    + cbn [at_cursor gameBoard gameHistory mbind option_bind].
      rewrite set_cells_id. rewrite <- Hc. by destruct (gameHistory s).
    + by apply at_cursor_inv.
    + cbn [at_cursor gameBoard gameHistory set_currentTurn H.currentTurn]. lia.
  - cbn [gameHistory].
    destruct (addHistory_recorded (gameHistory s) (turn_of (gameBoard s) false) bs
                (inv_recorded _ _ Hinv)) as (h' & -> & [Hn' _] & _).
    + pose proof (session_inv_ledger _ _ Hinv).
      pose proof (wf_turns _ Hwf). rewrite turn_of_turns; lia.
    + pose proof (session_inv_ledger _ _ Hinv). unfold TURN_LIMIT. lia.
    + cbn [snd]. rewrite Hn', Hn, length_app. simpl. lia.
Qed.

(** X20. Going back in the history and letting the loop run is transparent. In a
    running session reached from a fresh one, outside the history mode and
    with [k] turns at least recorded before the last, [k] times the key [,]
    followed by [k + 1] turns of the loop, of which [k] replay the recorded
    turns and the last leaves the history mode, end in the very session
    that one turn without any navigation gives. The board is the next board
    of the live game and the turn is recorded. *)
Theorem replay_resumes (evs : list event) (b : playBoard)
    (record render pause : bool) (s : session) (k : nat) :
  wf_board b → turns b + Z.of_nat (length evs) + 1 < UINT_MAX →
  run evs (fresh_session b record render pause) = Some s →
  isInHistory s = false → historyCreated s = true →
  doRender s = true → doPause s = false → livingCells (gameBoard s) ≠ 0 →
  isDirty (gameBoard s) = true → Z.of_nat k < H.turns (gameHistory s) →
  ∃ s', run [Turn] s = Some s' ∧
        run (replicate k Comma ++ replicate (S k) Turn) s = Some s' ∧
        gameBoard s' = turn_of (gameBoard s) false ∧
        isInHistory s' = false ∧ doRecordHistory s' = true ∧
        H.turns (gameHistory s') = H.turns (gameHistory s) + 1.
Proof.
  intros Hwf Hlim Hrun Hin Hcr Hrender Hpause Hliving Hdirty Hk.
  destruct (reachable_inv evs b record render pause s Hwf ltac:(lia) Hrun)
    as (bs & Hinv & Ht).
  apply (replay_resumes_inv s bs k); auto; [|lia].
  rewrite (proj1 (inv_recorded _ _ Hinv)) in Hk. lia.
Qed.

Lemma replay_resumes_witness :
  wf_board blinker_h ∧
  run [Turn] blinker_session = Some recorded_session ∧
  ∃ s', run [Turn] recorded_session = Some s' ∧
        run [Comma; Turn; Turn] recorded_session = Some s' ∧
        alive_map (gameBoard s') = alive_map blinker_h.
Proof.
  assert (wf_board blinker_h) as Hwf by wf_by_compute.
  assert (run [Turn] blinker_session = Some recorded_session) as Hrun
    by (vm_compute; reflexivity).
  split; [exact Hwf|]. split; [exact Hrun|].
  destruct (replay_resumes [Turn] blinker_h true true false recorded_session 1 Hwf)
    as (s' & Hone & Hnav & Hb & _).
  - vm_compute. reflexivity.
  - exact Hrun.
  - reflexivity.
  - reflexivity.
  - reflexivity.
  - reflexivity.
  - vm_compute. congruence.
  - vm_compute. reflexivity.
  - vm_compute. reflexivity.
  - exists s'. split; [exact Hone|]. split; [exact Hnav|].
    rewrite Hb. vm_compute. reflexivity.
Defined.




(** ** The size of a record and the counter *)

(** C9, evaluated. On the board of side 7 with five living cells on the
    diagonal and the recording on: one turn, one step back in the history,
    the key [h] twice (recording off, then on) and one more turn. The step
    back shows the five cells with [livingCells] left at 3; the key [h] makes
    that board the board of the game; the turn then kills two cells and
    stores a record of 5 entries, two deaths and three stable cells, with
    [livingCells] 3 before the turn and 1 after it: the record is longer than
    [livingCells] before plus [livingCells] after. *)
Theorem record_exceeds_livingCells :
  wf_board diagonal_7 ∧
  livingCells diagonal_7 = count_alive (cells diagonal_7) ∧
  ∃ s4 s5 t,
    run [Turn; Comma; KeyH; KeyH] (fresh_session diagonal_7 true true false)
    = Some s4 ∧
    wf_board (gameBoard s4) ∧
    (∀ i c, cells (gameBoard s4) !! i = Some c → cellChanged c = false) ∧
    game_turn s4 = Some s5 ∧
    applyTurn (gameBoard s4) false = Some (gameBoard s5) ∧
    addHistory (H.mkGame 1 0 [record_of (gameBoard s4)]) (gameBoard s5)
    = (true, gameHistory s5) ∧
    last (H.turnData (gameHistory s5)) = Some t ∧
    records t = 5 ∧ countDeath t = 2 ∧ countStable t = 3 ∧ countBorn t = 0 ∧
    livingCells (gameBoard s4) = 3 ∧ livingCells (gameBoard s5) = 1 ∧
    count_alive (cells (gameBoard s4)) = 5 ∧
    count_alive (cells (gameBoard s5)) = 3.
Proof.
  split; [wf_by_compute|]. split; [vm_compute; reflexivity|].
  eexists _, _, _. split; [vm_compute; reflexivity|].
  split; [wf_by_compute|].
  split.
  { intros i c Hc. apply list_elem_of_lookup_2 in Hc. revert c Hc.
    apply Forall_forall. vm_compute. repeat constructor. }
  split; [vm_compute; reflexivity|].
  repeat split; vm_compute; reflexivity.
Qed.
